(** * Ornament realization in music21/expressions.py

    A shallow embedding of the ornament classes of [music21.expressions]
    (mordents, trills, turns, appoggiaturas, tremolos), of their [realize]
    methods and of the driver [realizeOrnaments], together with the
    properties of these that the specification states.

    Python objects live in a store: a note is a location, [copy.deepcopy]
    allocates, and attribute assignment updates the store in place.
    Exceptions are results of the computation. Quarter lengths are exact
    rationals; where the code divides, subtracts or truncates the Python
    numbers that hold them, the rounding of a float is modelled. *)

From Stdlib Require Import ZArith QArith Qround Qpower Lia Lqa String List.
From stdpp Require Import base list.
Import ListNotations.

Close Scope Q_scope.
Open Scope string_scope.
Open Scope list_scope.

(* ===================================================================== *)
(** ** Exceptions and the store monad *)
(* ===================================================================== *)

Inductive Exception : Type :=
| ExpressionException (msg : string)
| TremoloException (msg : string)
| TypeError (msg : string)
| ValueError (msg : string)
| AttributeError (msg : string)
| IndexError (msg : string)
| ZeroDivisionError
| InvalidReference   (* a location outside the store; no Python reference is *)
| OutOfFuel.         (* a loop of the model that was given too few steps *)

Inductive Result (A : Type) : Type :=
| Ok (a : A)
| Raise (e : Exception).
Arguments Ok {A} a.
Arguments Raise {A} e.

Definition isOk {A} (r : Result A) : bool :=
  match r with Ok _ => true | Raise _ => false end.

(** What the specification calls a domain error is an
    [ExpressionException]. *)
Definition isDomainError {A} (r : Result A) : bool :=
  match r with Raise (ExpressionException _) => true | _ => false end.

(** Objects are referred to by their place in the store, which is the
    list of the objects allocated so far. *)
Abbreviation loc := nat (only parsing).
Abbreviation store := list (only parsing).

Module Store.
Section WithObject.
Context {Obj : Type}.


(** A computation reads and updates the store and returns or raises. *)
Definition M (A : Type) : Type := list Obj -> list Obj * Result A.

Definition ret {A} (a : A) : M A := fun h => (h, Ok a).
Definition raise {A} (e : Exception) : M A := fun h => (h, Raise e).
Definition bind {A B} (m : M A) (k : A -> M B) : M B :=
  fun h => match m h with
           | (h', Ok a) => k a h'
           | (h', Raise e) => (h', Raise e)
           end.

Definition read (l : loc) : M Obj :=
  fun h => match h !! l with
           | Some o => (h, Ok o)
           | None => (h, Raise InvalidReference)
           end.

(** Attribute assignment on the object at [l]. *)
Definition modify (l : loc) (f : Obj -> Obj) : M unit :=
  fun h => match h !! l with
           | Some o => (<[l := f o]> h, Ok tt)
           | None => (h, Raise InvalidReference)
           end.

Definition alloc (o : Obj) : M loc :=
  fun h => (h ++ [o], Ok (length h)).

(** [copy.deepcopy(obj)]: a new object with the same content. *)
Definition deepcopy (l : loc) : M loc :=
  bind (read l) alloc.

(** [for x in xs: body(x)] *)
Fixpoint forEach {A} (xs : list A) (body : A -> M unit) : M unit :=
  match xs with
  | [] => ret tt
  | x :: xs' => bind (body x) (fun _ => forEach xs' body)
  end.

(** [for _ in range(n): body()], the body extending an accumulator *)
Fixpoint repeatM {A} (n : nat) (body : A -> M A) (acc : A) : M A :=
  match n with
  | O => ret acc
  | S n' => bind (body acc) (repeatM n' body)
  end.
End WithObject.
Arguments M : clear implicits.
End Store.
Import Store.

Declare Scope store_scope.
Delimit Scope store_scope with store.
Notation "x <- m ;; k" := (bind m (fun x => k))
  (at level 100, m at next level, right associativity) : store_scope.
Notation "m ;; k" := (bind m (fun _ => k))
  (at level 100, right associativity) : store_scope.
Open Scope store_scope.

(* ===================================================================== *)
(** ** Pitches, accidentals, intervals and key signatures *)
(* ===================================================================== *)

Module pitch.

Inductive Step : Type := sC | sD | sE | sF | sG | sA | sB.

Definition Step_eqb (s1 s2 : Step) : bool :=
  match s1, s2 with
  | sC, sC | sD, sD | sE, sE | sF, sF | sG, sG | sA, sA | sB, sB => true
  | _, _ => false
  end.

Definition stepIndex (s : Step) : Z :=
  match s with
  | sC => 0 | sD => 1 | sE => 2 | sF => 3 | sG => 4 | sA => 5 | sB => 6
  end%Z.

Definition stepOfIndex (i : Z) : Step :=
  match (i mod 7)%Z with
  | 0 => sC | 1 => sD | 2 => sE | 3 => sF | 4 => sG | 5 => sA | _ => sB
  end%Z.

(** Semitones of the natural step above C. *)
Definition stepSemitones (s : Step) : Z :=
  match s with
  | sC => 0 | sD => 2 | sE => 4 | sF => 5 | sG => 7 | sA => 9 | sB => 11
  end%Z.

(** Modelled from the spec: the accidental of the pitch model (section 6,
    "a pitch modifier with a boolean display-forced flag"); the pitch
    module is not part of the sources at hand. [alter] is the change in
    semitones, [displayStatus] is [None] while undetermined. *)
Record Accidental : Type := mkAccidental {
  alter : Q;
  displayStatus : option bool
}.

(** Modelled from the spec: the table of accidental names of the pitch
    module, with the alteration each name stands for. *)
Definition accidentalNameToAlter : list (string * Q) :=
  [ ("natural", 0); ("sharp", 1); ("double-sharp", 2);
    ("triple-sharp", 3); ("quadruple-sharp", 4);
    ("flat", -1); ("double-flat", -2);
    ("triple-flat", -3); ("quadruple-flat", -4);
    ("half-sharp", 1 # 2); ("one-and-a-half-sharp", 3 # 2);
    ("half-flat", -1 # 2); ("one-and-a-half-flat", -3 # 2) ]%Q.

Fixpoint assoc {V} (k : string) (t : list (string * V)) : option V :=
  match t with
  | [] => None
  | (k', v) :: t' => if String.eqb k k' then Some v else assoc k t'
  end.

(** Modelled from the spec: [pitch.isValidAccidentalName]. *)
Definition isValidAccidentalName (name : string) : bool :=
  match assoc name accidentalNameToAlter with
  | Some _ => true
  | None => false
  end.

(** Modelled from the spec: [pitch.standardizeAccidentalName]; the names
    of the table are already standard. *)
Definition standardizeAccidentalName (name : string) : string := name.

(** [pitch.Accidental(name)] for a name of the table. *)
Definition AccidentalOfName (name : string) : Accidental :=
  match assoc name accidentalNameToAlter with
  | Some a => mkAccidental a None
  | None => mkAccidental 0 None
  end.

(** Modelled from the spec: a pitch is a step, an octave and an optional
    accidental. *)
Record Pitch : Type := mkPitch {
  step : Step;
  octave : Z;
  accidental : option Accidental
}.

Definition withAccidental (p : Pitch) (a : option Accidental) : Pitch :=
  mkPitch (step p) (octave p) a.

Definition alterOf (p : Pitch) : Q :=
  match accidental p with
  | Some a => alter a
  | None => 0%Q
  end.

Definition diatonicNoteNum (p : Pitch) : Z :=
  (stepIndex (step p) + 1 + 7 * octave p)%Z.

(** Pitch space: semitones, middle C (C4) being 60. *)
Definition ps (p : Pitch) : Q :=
  (inject_Z (12 * (octave p + 1) + stepSemitones (step p)) + alterOf p)%Q.

(** [p1.nameWithOctave == p2.nameWithOctave]: a natural sign and no
    accidental print alike. *)
Definition sameNameWithOctave (p1 p2 : Pitch) : bool :=
  Step_eqb (step p1) (step p2) && Z.eqb (octave p1) (octave p2)
  && Qeq_bool (alterOf p1) (alterOf p2).

End pitch.
Import pitch.

Module interval.

(** Modelled from the spec: an interval is a signed number of staff
    steps and a signed number of semitones (section 6, "forward
    transposition of a pitch by a generic or specific interval, and
    interval reversal"). A generic interval has no semitones. *)
Record Interval : Type := mkInterval {
  staffDistance : Z;
  semitones : option Q
}.

(** [interval.GenericInterval(2)] and [interval.GenericInterval(-2)] *)
Definition GenericInterval (directed : Z) : Interval :=
  mkInterval (if (0 <=? directed)%Z then directed - 1 else directed + 1)%Z None.

(** [interval.Interval('m2')], ['M2'], ['m-2'], ['M-2'] *)
Definition m2 : Interval := mkInterval 1 (Some 1%Q).
Definition M2 : Interval := mkInterval 1 (Some 2%Q).
Definition m_2 : Interval := mkInterval (-1) (Some (-1)%Q).
Definition M_2 : Interval := mkInterval (-1) (Some (-2)%Q).

(** [interval.Interval(p1, p2)] *)
Definition between (p1 p2 : Pitch) : Interval :=
  mkInterval (diatonicNoteNum p2 - diatonicNoteNum p1)
             (Some (Qred (ps p2 - ps p1))).

Definition reverse (i : Interval) : Interval :=
  mkInterval (- staffDistance i)
             (match semitones i with
              | Some s => Some (Qred (- s))
              | None => None
              end).

(** Modelled from the spec: transposition. The staff steps fix the step
    and octave; a specific interval then fixes the accidental, none being
    left when no alteration is needed; a generic interval keeps the
    accidental as it is. *)
Definition transposePitch (i : Interval) (p : Pitch) : Pitch :=
  let dnn := (diatonicNoteNum p + staffDistance i - 1)%Z in
  let natural := mkPitch (stepOfIndex dnn) (dnn / 7) None in
  match semitones i with
  | None => withAccidental natural (accidental p)
  | Some s =>
      let fix_ := Qred (s - (ps natural - ps p)) in
      if Qeq_bool fix_ 0 then natural
      else withAccidental natural (Some (mkAccidental fix_ None))
  end.

End interval.

Module key.

(** Modelled from the spec: a key signature is a number of sharps
    (negative for flats), with an "accidental for scale step" lookup
    that returns [None] for natural (section 6). *)
Record KeySignature : Type := mkKeySignature { sharps : Z }.

Definition orderOfSharps : list Step := [sF; sC; sG; sD; sA; sE; sB].

Definition accidentalByStep (k : KeySignature) (s : Step) : option Accidental :=
  if (0 <? sharps k)%Z then
    if existsb (Step_eqb s) (take (Z.to_nat (sharps k)) orderOfSharps)
    then Some (AccidentalOfName "sharp") else None
  else if (sharps k <? 0)%Z then
    if existsb (Step_eqb s) (take (Z.to_nat (- sharps k)) (rev orderOfSharps))
    then Some (AccidentalOfName "flat") else None
  else None.

End key.


(* ===================================================================== *)
(** ** Python's numbers *)
(* ===================================================================== *)

(** [common.types.OffsetQL]: a quarter length is a Python float or a
    [Fraction]. [PyFloat x] is the float of value [x], [PyFraction x] the
    fraction of value [x]. *)
Inductive OffsetQL : Type :=
| PyFloat (x : Q)
| PyFraction (x : Q).

Definition value (a : OffsetQL) : Q :=
  match a with
  | PyFloat x | PyFraction x => x
  end.

Coercion value : OffsetQL >-> Q.

(** Rounding to the nearest integer, a tie going to the even one *)
Definition roundHalfEven (y : Q) : Z :=
  let f := Qfloor y in
  match (y - inject_Z f ?= 1 # 2)%Q with
  | Lt => f
  | Gt => (f + 1)%Z
  | Eq => if Z.even f then f else (f + 1)%Z
  end.

(** The binary exponent [e] of a positive number: [2 ^ e <= q < 2 ^ (e + 1)] *)
Definition exponent (q : Q) : Z :=
  let e := (Z.log2 (Qnum q) - Z.log2 (Zpos (Qden q)))%Z in
  if Qle_bool (2 ^ e)%Q q then e else (e - 1)%Z.

Definition roundPositive (q : Q) : Q :=
  let e := exponent q in
  (inject_Z (roundHalfEven (q * 2 ^ (52 - e))) * 2 ^ (e - 52))%Q.

(** The float nearest to [q], as Python's arithmetic on floats and its
    conversion of a [Fraction] to a float give it: a significand of 53
    bits, a tie going to the even significand. The exponent is taken
    without bounds: quarter lengths stay far from the ends of the range
    of a double, where a float overflows or loses bits. *)
Definition float64 (q : Q) : Q :=
  let q := Qred q in
  Qred match Qnum q with
       | Z0 => 0
       | Zpos _ => roundPositive q
       | Zneg _ => - roundPositive (- q)
       end%Q.

Module Python.

(** [float(a)] *)
Definition float (a : OffsetQL) : Q :=
  match a with
  | PyFloat x => x
  | PyFraction x => float64 x
  end.

(** [a - b]: exact on two fractions; otherwise both are taken as floats
    and the difference is rounded to a float *)
Definition sub (a b : OffsetQL) : OffsetQL :=
  match a, b with
  | PyFraction x, PyFraction y => PyFraction (x - y)
  | _, _ => PyFloat (float64 (float a - float b)%Q)
  end.

(** [a / b], for [b] other than zero *)
Definition truediv (a b : OffsetQL) : OffsetQL :=
  match a, b with
  | PyFraction x, PyFraction y => PyFraction (x / y)
  | _, _ => PyFloat (float64 (float a / float b)%Q)
  end.

(** [a / k] for an [int] [k], which a float takes as the float of the
    same value *)
Definition truedivInt (a : OffsetQL) (k : Z) : OffsetQL :=
  match a with
  | PyFraction x => PyFraction (x / inject_Z k)
  | PyFloat x => PyFloat (float64 (x / inject_Z k)%Q)
  end.

End Python.

(* ===================================================================== *)
(** ** Expressions and notes *)
(* ===================================================================== *)

(** [common.enums.OrnamentDelay] *)
Inductive OrnamentDelay : Type := NO_DELAY | DEFAULT_DELAY.

(** [OrnamentDelay | OffsetQL], the type of [Turn.delay] *)
Inductive Delay : Type :=
| DelayEnum (d : OrnamentDelay)
| DelayQL (q : OffsetQL).

Inductive MordentClass : Type :=
| GeneralMordent_ | Mordent_ | HalfStepMordent_ | WholeStepMordent_
| InvertedMordent_ | HalfStepInvertedMordent_ | WholeStepInvertedMordent_.

Record MordentObj : Type := mkMordent {
  mordentClass : MordentClass;
  mordent_accidentalName : string;      (* self._accidentalName *)
  mordent_quarterLength : Q;
  mordent_autoScale : bool
}.

Inductive TrillClass : Type :=
| Trill_ | HalfStepTrill_ | WholeStepTrill_ | Shake_.

Record TrillObj : Type := mkTrill {
  trillClass : TrillClass;
  trill_accidentalName : string;        (* self._accidentalName *)
  nachschlag : bool;
  trill_quarterLength : OffsetQL;
  trill_autoScale : bool
}.

Inductive TurnClass : Type := Turn_ | InvertedTurn_.

Record TurnObj : Type := mkTurn {
  turnClass : TurnClass;
  turn_upperAccidentalName : string;    (* self._upperAccidentalName *)
  turn_lowerAccidentalName : string;    (* self._lowerAccidentalName *)
  turn_delay : Delay;                   (* self._delay *)
  turn_quarterLength : Q;
  turn_autoScale : bool
}.

Inductive AppoggiaturaClass : Type :=
| GeneralAppoggiatura_
| Appoggiatura_ | HalfStepAppoggiatura_ | WholeStepAppoggiatura_
| InvertedAppoggiatura_ | HalfStepInvertedAppoggiatura_
| WholeStepInvertedAppoggiatura_.

Record AppoggiaturaObj : Type := mkAppoggiatura {
  appoggiaturaClass : AppoggiaturaClass;
  size : option interval.Interval;      (* [None] stands for [''] *)
  appoggiatura_autoScale : bool
}.

Record TremoloObj : Type := mkTremolo {
  measured : bool;
  tremolo_numberOfMarks : Z;            (* self._numberOfMarks *)
  tremolo_autoScale : bool
}.

(** The members of a note's [.expressions]. [EOrnament] is a plain
    [Ornament] or a [Schleifer], which inherit [Ornament.realize];
    [EOther] is an expression without a [realize] attribute (a [Fermata],
    a [TextExpression], a [RehearsalMark], an [ArpeggioMark]). *)
Inductive Expression : Type :=
| EMordent (m : MordentObj)
| ETrill (t : TrillObj)
| ETurn (t : TurnObj)
| EAppoggiatura (a : AppoggiaturaObj)
| ETremolo (t : TremoloObj)
| EOrnament (className : string)
| EOther (className : string).

#[global] Instance Q_eq_dec : EqDecision Q.
Proof. solve_decision. Defined.
#[global] Instance OffsetQL_eq_dec : EqDecision OffsetQL.
Proof. solve_decision. Defined.
#[global] Instance string_eq_dec : EqDecision string := String.string_dec.
#[global] Instance Interval_eq_dec : EqDecision interval.Interval.
Proof. solve_decision. Defined.
#[global] Instance OrnamentDelay_eq_dec : EqDecision OrnamentDelay.
Proof. solve_decision. Defined.
#[global] Instance Delay_eq_dec : EqDecision Delay.
Proof. solve_decision. Defined.
#[global] Instance MordentClass_eq_dec : EqDecision MordentClass.
Proof. solve_decision. Defined.
#[global] Instance TrillClass_eq_dec : EqDecision TrillClass.
Proof. solve_decision. Defined.
#[global] Instance TurnClass_eq_dec : EqDecision TurnClass.
Proof. solve_decision. Defined.
#[global] Instance AppoggiaturaClass_eq_dec : EqDecision AppoggiaturaClass.
Proof. solve_decision. Defined.
#[global] Instance MordentObj_eq_dec : EqDecision MordentObj.
Proof. solve_decision. Defined.
#[global] Instance TrillObj_eq_dec : EqDecision TrillObj.
Proof. solve_decision. Defined.
#[global] Instance TurnObj_eq_dec : EqDecision TurnObj.
Proof. solve_decision. Defined.
#[global] Instance AppoggiaturaObj_eq_dec : EqDecision AppoggiaturaObj.
Proof. solve_decision. Defined.
#[global] Instance TremoloObj_eq_dec : EqDecision TremoloObj.
Proof. solve_decision. Defined.
#[global] Instance Expression_eq_dec : EqDecision Expression.
Proof. solve_decision. Defined.

(** The notated event. [pitch] is [None] for a rest or an unpitched event;
    [quarterLength] is [duration.quarterLength]; [contextKeySig] is what
    [getContextByClass(key.KeySignature)] finds around the event. *)
Record Note : Type := mkNote {
  pitch : option Pitch;
  quarterLength : Q;
  expressions : list Expression;
  contextKeySig : option key.KeySignature
}.

(** Python list operations on [.expressions]: [l.index(x)] where it is
    guarded by [x in l], and [l.remove(x)]. Modelled from the spec: two
    expressions compare equal when they have the same class and
    attributes. *)
Fixpoint index_of (x : Expression) (l : list Expression) : option nat :=
  match l with
  | [] => None
  | y :: l' => if decide (x = y) then Some O
               else match index_of x l' with
                    | Some i => Some (S i)
                    | None => None
                    end
  end.

Fixpoint remove_first (x : Expression) (l : list Expression) : list Expression :=
  match l with
  | [] => []
  | y :: l' => if decide (x = y) then l' else y :: remove_first x l'
  end.

Definition isIn (x : Expression) (l : list Expression) : bool :=
  match index_of x l with Some _ => true | None => false end.

(** [for i, x in enumerate(l)] *)
Definition enumerate {A} (l : list A) : list (nat * A) :=
  combine (seq 0 (length l)) l.

(** Truth value of a Python string *)
Definition nonEmpty (s : string) : bool := negb (String.eqb s "").

Definition liftR {A} (r : Result A) : M Note A :=
  match r with Ok a => ret a | Raise e => raise e end.

Definition set_quarterLength (q : Q) (n : Note) : Note :=
  mkNote (pitch n) (Qred q) (expressions n) (contextKeySig n).

Definition set_expressions (es : list Expression) (n : Note) : Note :=
  mkNote (pitch n) (quarterLength n) es (contextKeySig n).

Definition set_pitch (p : option Pitch) (n : Note) : Note :=
  mkNote p (quarterLength n) (expressions n) (contextKeySig n).

(** [n.duration.quarterLength = q]; the duration keeps the value as an
    exact fraction in lowest terms. *)
Definition setQuarterLength (l : loc) (q : Q) : M Note unit :=
  modify l (set_quarterLength q).

(** [n.expressions = es] *)
Definition setExpressions (l : loc) (es : list Expression) : M Note unit :=
  modify l (set_expressions es).

(** [n.expressions.pop(i)] *)
Definition popExpression (l : loc) (i : nat) : M Note unit :=
  modify l (fun n => set_expressions (delete i (expressions n)) n).

(** [n.expressions.remove(x)] *)
Definition removeExpression (l : loc) (x : Expression) : M Note unit :=
  modify l (fun n => set_expressions (remove_first x (expressions n)) n).

(** [n.transpose(i, inPlace=True)]; an event without pitch has no such
    method. *)
Definition transpose (l : loc) (i : interval.Interval) : M Note unit :=
  n <- read l ;;
  match pitch n with
  | None => raise (AttributeError "transpose")
  | Some p => modify l (set_pitch (Some (interval.transposePitch i p)))
  end.

(** [n.pitch.accidental = a] *)
Definition setAccidental (l : loc) (a : option Accidental) : M Note unit :=
  n <- read l ;;
  match pitch n with
  | None => raise (AttributeError "pitch")
  | Some p => modify l (set_pitch (Some (withAccidental p a)))
  end.

(** The key signature a method works with: the one passed, else the one
    of the context, else no sharps or flats. *)
Definition keySigOrContext (keySig : option key.KeySignature) (srcObj : Note)
  : key.KeySignature :=
  match keySig with
  | Some k => k
  | None => match contextKeySig srcObj with
            | Some k => k
            | None => key.mkKeySignature 0
            end
  end.

(** The three-element tuple that [realize] returns *)
Definition Realization : Type := (list loc * option loc * list loc)%type.

(* ===================================================================== *)
(** ** Ornament *)
(* ===================================================================== *)

Module Ornament.

Definition realize (srcObj : loc) (keySig : option key.KeySignature)
  (inPlace : bool) : M Note Realization :=
  srcObj <- (if negb inPlace then deepcopy srcObj else ret srcObj) ;;
  ret ([], Some srcObj, []).

Definition fillListOfRealizedNotes (selfQuarterLength : Q) (srcObj : loc)
  (fillObjects : list loc) (transposeInterval : interval.Interval)
  (useQL : option Q) : M Note (list loc) :=
  src <- read srcObj ;;
  match pitch src with
  | None => raise (TypeError "Expected note")
  | Some _ =>
      let useQL := match useQL with Some q => q | None => selfQuarterLength end in
      firstNote <- deepcopy srcObj ;;
      setQuarterLength firstNote useQL ;;
      secondNote <- deepcopy srcObj ;;
      setQuarterLength secondNote useQL ;;
      transpose secondNote transposeInterval ;;
      ret (fillObjects ++ [firstNote; secondNote])
  end.

End Ornament.

(* ===================================================================== *)
(** ** GeneralMordent and its subclasses *)
(* ===================================================================== *)

Module GeneralMordent.

Definition _direction (c : MordentClass) : string :=
  match c with
  | GeneralMordent_ => ""
  | Mordent_ | HalfStepMordent_ | WholeStepMordent_ => "down"
  | InvertedMordent_ | HalfStepInvertedMordent_
  | WholeStepInvertedMordent_ => "up"
  end.

Definition isFixedStep (c : MordentClass) : bool :=
  match c with
  | HalfStepMordent_ | WholeStepMordent_
  | HalfStepInvertedMordent_ | WholeStepInvertedMordent_ => true
  | _ => false
  end.

Definition className (c : MordentClass) : string :=
  match c with
  | GeneralMordent_ => "GeneralMordent"
  | Mordent_ => "Mordent"
  | HalfStepMordent_ => "HalfStepMordent"
  | WholeStepMordent_ => "WholeStepMordent"
  | InvertedMordent_ => "InvertedMordent"
  | HalfStepInvertedMordent_ => "HalfStepInvertedMordent"
  | WholeStepInvertedMordent_ => "WholeStepInvertedMordent"
  end.

(** [__init__]; [accidentalName] is [None] when the keyword is absent. *)
Definition init (c : MordentClass) (accidentalName : option string)
  : Result MordentObj :=
  if isFixedStep c && bool_decide (accidentalName <> None) then
    Raise (ExpressionException
             ("Cannot initialize " ++ className c ++ " with accidentalName"))
  else
    let name := match accidentalName with Some s => s | None => "" end in
    Ok (mkMordent c
          (if nonEmpty name && isValidAccidentalName name
           then standardizeAccidentalName name else "")
          (1 # 8) true).

(** The [accidentalName] property *)
Definition accidentalName (self : MordentObj) : string :=
  if isFixedStep (mordentClass self) then ""
  else mordent_accidentalName self.

(** The [accidentalName] setter *)
Definition set_accidentalName (self : MordentObj) (newAccidentalName : string)
  : Result MordentObj :=
  if isFixedStep (mordentClass self) then
    Raise (ExpressionException
             ("Cannot set accidentalName of " ++ className (mordentClass self)))
  else if nonEmpty newAccidentalName && isValidAccidentalName newAccidentalName
  then Ok (mkMordent (mordentClass self)
             (standardizeAccidentalName newAccidentalName)
             (mordent_quarterLength self) (mordent_autoScale self))
  else Ok (mkMordent (mordentClass self) ""
             (mordent_quarterLength self) (mordent_autoScale self)).

Definition directionKnown (self : MordentObj) : bool :=
  String.eqb (_direction (mordentClass self)) "up"
  || String.eqb (_direction (mordentClass self)) "down".

Definition getSize (self : MordentObj) (srcObj : Note)
  (keySig : option key.KeySignature) : Result interval.Interval :=
  match mordentClass self with
  | HalfStepMordent_ => Ok interval.m_2
  | WholeStepMordent_ => Ok interval.M_2
  | HalfStepInvertedMordent_ => Ok interval.m2
  | WholeStepInvertedMordent_ => Ok interval.M2
  | _ =>
      if negb (directionKnown self) then
        Raise (ExpressionException
                 "Cannot compute mordent size if I do not know its direction")
      else
        match pitch srcObj with
        | None =>
            Raise (TypeError "Cannot compute mordent size with an unpitched srcObj")
        | Some srcPitch =>
            let keySig := keySigOrContext keySig srcObj in
            let ornamentalPitch := withAccidental srcPitch None in
            let ornamentalPitch :=
              if String.eqb (_direction (mordentClass self)) "up"
              then interval.transposePitch (interval.GenericInterval 2) ornamentalPitch
              else interval.transposePitch (interval.GenericInterval (-2)) ornamentalPitch in
            let ornamentalPitch :=
              if nonEmpty (accidentalName self)
              then withAccidental ornamentalPitch
                     (Some (AccidentalOfName (accidentalName self)))
              else withAccidental ornamentalPitch
                     (key.accidentalByStep keySig (step ornamentalPitch)) in
            Ok (interval.between srcPitch ornamentalPitch)
        end
  end.

Definition realize (self : MordentObj) (srcObj : loc)
  (keySig : option key.KeySignature) (inPlace : bool) : M Note Realization :=
  src <- read srcObj ;;
  if negb (directionKnown self) then
    raise (ExpressionException
             "Cannot realize a mordent if I do not know its direction")
  else if Qeq_bool (quarterLength src) 0 then
    raise (ExpressionException
             "Cannot steal time from an object with no duration")
  else if bool_decide (pitch src = None) then
    raise (TypeError "Cannot realize a mordent with an unpitched srcObj")
  else
    use_ql <- (if Qle_bool (quarterLength src) (mordent_quarterLength self * 2)
               then if negb (mordent_autoScale self)
                    then raise (ExpressionException
                                  "The note is not long enough to realize a mordent")
                    else ret (quarterLength src / 4)%Q
               else ret (mordent_quarterLength self)) ;;
    let currentKeySig := keySigOrContext keySig src in
    let remainderQL := (quarterLength src - 2 * use_ql)%Q in
    transposeInterval <- liftR (getSize self src (Some currentKeySig)) ;;
    mordNotes <- Ornament.fillListOfRealizedNotes (mordent_quarterLength self)
                   srcObj [] transposeInterval (Some use_ql) ;;
    forEach (enumerate mordNotes) (fun '(noteIdx, n) =>
      let noteNum := S noteIdx in
      nObj <- read n ;;
      match pitch nObj with
      | None => raise (AttributeError "pitch")
      | Some p =>
          if bool_decide (accidental p = None) && Nat.eqb noteNum 2
          then setAccidental n (key.accidentalByStep currentKeySig (step p))
          else ret tt
      end) ;;
    src <- read srcObj ;;
    let inExpressions := index_of (EMordent self) (expressions src) in
    remainderNote <- (if negb inPlace then deepcopy srcObj else ret srcObj) ;;
    setQuarterLength remainderNote remainderQL ;;
    match inExpressions with
    | Some i => popExpression remainderNote i
    | None => ret tt
    end ;;
    ret (mordNotes, Some remainderNote, [])%list.

End GeneralMordent.

(** [int(q)]: truncation toward zero *)
Definition int (q : Q) : Z := Z.quot (Qnum q) (Zpos (Qden q)).

Definition Qlt_bool (x y : Q) : bool := negb (Qle_bool y x).

(** Modelled from the spec: quarter lengths are exact fractions, and
    [common.numberTools.opFrac] hands back the fraction that exact
    arithmetic gives, in lowest terms; where the number it is given is a
    float that Python computed from such fractions, the rounding of that
    float is undone. It is applied by the setter of
    [duration.quarterLength] too. *)
Definition opFrac (q : Q) : Q := Qred q.

(** Modelled from the spec: the number that [duration.quarterLength] hands
    out for the quarter length [q], as [opFrac] left it: a float when
    [q] is the value of one, and else a [Fraction]. *)
Definition offsetQL (q : Q) : OffsetQL :=
  if Qeq_bool (float64 q) q then PyFloat q else PyFraction q.

(* ===================================================================== *)
(** ** Trill and its subclasses *)
(* ===================================================================== *)

Module Trill.

Definition className (c : TrillClass) : string :=
  match c with
  | Trill_ => "Trill"
  | HalfStepTrill_ => "HalfStepTrill"
  | WholeStepTrill_ => "WholeStepTrill"
  | Shake_ => "Shake"
  end.

Definition isFixedStep (c : TrillClass) : bool :=
  match c with
  | HalfStepTrill_ | WholeStepTrill_ => true
  | _ => false
  end.

(** [self._setAccidentalFromKeySig], set once by [__init__] *)
Definition _setAccidentalFromKeySig (self : TrillObj) : bool :=
  negb (isFixedStep (trillClass self)).

Definition init (c : TrillClass) (accidentalName : option string)
  : Result TrillObj :=
  if isFixedStep c && bool_decide (accidentalName <> None) then
    Raise (ExpressionException
             ("Cannot initialize " ++ className c ++ " with accidentalName"))
  else
    let name := match accidentalName with Some s => s | None => "" end in
    Ok (mkTrill c
          (if nonEmpty name && isValidAccidentalName name
           then standardizeAccidentalName name else "")
          false
          (PyFloat (match c with Shake_ => 1 # 4 | _ => 1 # 8 end))
          true).

Definition accidentalName (self : TrillObj) : string :=
  if isFixedStep (trillClass self) then "" else trill_accidentalName self.

Definition set_accidentalName (self : TrillObj) (newAccidentalName : string)
  : Result TrillObj :=
  if isFixedStep (trillClass self) then
    Raise (ExpressionException
             ("Cannot set accidentalName of " ++ className (trillClass self)))
  else if nonEmpty newAccidentalName && isValidAccidentalName newAccidentalName
  then Ok (mkTrill (trillClass self)
             (standardizeAccidentalName newAccidentalName)
             (nachschlag self) (trill_quarterLength self) (trill_autoScale self))
  else Ok (mkTrill (trillClass self) ""
             (nachschlag self) (trill_quarterLength self) (trill_autoScale self)).

Definition getSize (self : TrillObj) (srcObj : Note)
  (keySig : option key.KeySignature) : Result interval.Interval :=
  match trillClass self with
  | HalfStepTrill_ => Ok interval.m2
  | WholeStepTrill_ => Ok interval.M2
  | _ =>
      match pitch srcObj with
      | None =>
          Raise (TypeError "Cannot compute trill's size with an unpitched srcObj")
      | Some srcPitch =>
          let keySig := keySigOrContext keySig srcObj in
          let ornamentalPitch := withAccidental srcPitch None in
          let ornamentalPitch :=
            interval.transposePitch (interval.GenericInterval 2) ornamentalPitch in
          let ornamentalPitch :=
            if nonEmpty (accidentalName self)
            then withAccidental ornamentalPitch
                   (Some (AccidentalOfName (accidentalName self)))
            else withAccidental ornamentalPitch
                   (key.accidentalByStep keySig (step ornamentalPitch)) in
          Ok (interval.between srcPitch ornamentalPitch)
      end
  end.

(** The sub-note length that [realize] settles on, or the exception it
    raises on the way. Doubling a float is exact, and so is the comparison
    of a float with a fraction. *)
Definition effectiveQL (self : TrillObj) (srcQL : Q) : Result OffsetQL :=
  let useQL := trill_quarterLength self in
  if Qeq_bool srcQL 0 then
    Raise (ExpressionException
             "Cannot steal time from an object with no duration")
  else
    match (if Qlt_bool srcQL (2 * useQL)
           then if negb (trill_autoScale self)
                then Raise (ExpressionException
                              "The note is not long enough to realize a trill")
                else Ok (Python.truedivInt (offsetQL srcQL) 2)
           else Ok useQL) with
    | Raise e => Raise e
    | Ok useQL =>
        if Qlt_bool srcQL (4 * trill_quarterLength self) && nachschlag self
        then if negb (trill_autoScale self)
             then Raise (ExpressionException
                           "The note is not long enough for a nachschlag")
             else Ok (Python.truedivInt (offsetQL srcQL) 4)
        else Ok useQL
    end.

(** [int(srcObj.duration.quarterLength / useQL)] truncates the quotient
    that Python holds, a float unless both numbers are fractions.
    [int(numberOfTrillNotes / 2)] is the quotient of the two integers,
    truncated: the float that Python makes of it on the way is exact for
    any number of notes that a list can hold. *)
Definition realize (self : TrillObj) (srcObj : loc)
  (keySig : option key.KeySignature) (inPlace : bool) : M Note Realization :=
  src <- read srcObj ;;
  match pitch src with
  | None => raise (TypeError "Cannot realize trill with an unpitched srcObj")
  | Some srcPitch =>
      useQL <- liftR (effectiveQL self (quarterLength src)) ;;
      let currentKeySig := keySigOrContext keySig src in
      transposeInterval <- liftR (getSize self src (Some currentKeySig)) ;;
      let transposeIntervalReverse := interval.reverse transposeInterval in
      if Qeq_bool useQL 0 then raise ZeroDivisionError else
      let numberOfTrillNotes :=
        int (Python.truediv (offsetQL (quarterLength src)) useQL) in
      let numberOfTrillNotes :=
        if nachschlag self then (numberOfTrillNotes - 2)%Z
        else numberOfTrillNotes in
      trillNotes <-
        repeatM (Z.to_nat (Z.quot numberOfTrillNotes 2))
          (fun trillNotes =>
             Ornament.fillListOfRealizedNotes (trill_quarterLength self)
               srcObj trillNotes transposeInterval (Some (value useQL)))
          [] ;;
      let setAccidentalFromKeySig := _setAccidentalFromKeySig self in
      (if setAccidentalFromKeySig then
         forEach trillNotes (fun n =>
           nObj <- read n ;;
           src <- read srcObj ;;
           match pitch nObj, pitch src with
           | Some p, Some sp =>
               if negb (sameNameWithOctave p sp) then
                 if bool_decide (accidental p = None)
                 then setAccidental n (key.accidentalByStep currentKeySig (step p))
                 else ret tt
               else ret tt
           | _, _ => raise (AttributeError "pitch")
           end)
       else ret tt) ;;
      src <- read srcObj ;;
      (if inPlace && isIn (ETrill self) (expressions src)
       then removeExpression srcObj (ETrill self)
       else ret tt) ;;
      if nachschlag self then
        firstNoteNachschlag <- deepcopy srcObj ;;
        setExpressions firstNoteNachschlag [] ;;
        setQuarterLength firstNoteNachschlag useQL ;;
        secondNoteNachschlag <- deepcopy srcObj ;;
        setExpressions secondNoteNachschlag [] ;;
        setQuarterLength secondNoteNachschlag useQL ;;
        transpose secondNoteNachschlag transposeIntervalReverse ;;
        (if setAccidentalFromKeySig then
           n1 <- read firstNoteNachschlag ;;
           match pitch n1 with
           | None => raise (AttributeError "step")
           | Some p1 =>
               setAccidental firstNoteNachschlag
                 (key.accidentalByStep currentKeySig (step p1)) ;;
               n2 <- read secondNoteNachschlag ;;
               match pitch n2 with
               | None => raise (AttributeError "step")
               | Some p2 =>
                   setAccidental secondNoteNachschlag
                     (key.accidentalByStep currentKeySig (step p2))
               end
           end
         else ret tt) ;;
        ret (trillNotes, None, [firstNoteNachschlag; secondNoteNachschlag])
      else
        ret (trillNotes, None, [])
  end.

End Trill.

(* ===================================================================== *)
(** ** Turn and InvertedTurn *)
(* ===================================================================== *)

Module Turn.

Definition _isInverted (c : TurnClass) : bool :=
  match c with Turn_ => false | InvertedTurn_ => true end.

Definition validName (name : string) : string :=
  if nonEmpty name && isValidAccidentalName name
  then standardizeAccidentalName name else "".

(** The [delay] setter *)
Definition set_delay (self : TurnObj) (newDelay : Delay) : TurnObj :=
  let newDelay :=
    match newDelay with
    | DelayQL q => if Qle_bool q 0 then DelayEnum NO_DELAY else newDelay
    | DelayEnum _ => newDelay
    end in
  mkTurn (turnClass self) (turn_upperAccidentalName self)
    (turn_lowerAccidentalName self) newDelay
    (turn_quarterLength self) (turn_autoScale self).

Definition init (c : TurnClass) (delay : Delay)
  (upperAccidentalName lowerAccidentalName : string) : TurnObj :=
  set_delay
    (mkTurn c (validName upperAccidentalName) (validName lowerAccidentalName)
       (DelayQL (PyFloat 0)) (1 # 4) true)
    delay.

Definition set_upperAccidentalName (self : TurnObj) (name : string) : TurnObj :=
  mkTurn (turnClass self) (validName name) (turn_lowerAccidentalName self)
    (turn_delay self) (turn_quarterLength self) (turn_autoScale self).

Definition set_lowerAccidentalName (self : TurnObj) (name : string) : TurnObj :=
  mkTurn (turnClass self) (turn_upperAccidentalName self) (validName name)
    (turn_delay self) (turn_quarterLength self) (turn_autoScale self).

(** Assignment to the plain attributes [quarterLength] and [autoScale] *)
Definition set_quarterLength (self : TurnObj) (q : Q) : TurnObj :=
  mkTurn (turnClass self) (turn_upperAccidentalName self)
    (turn_lowerAccidentalName self) (turn_delay self) q (turn_autoScale self).

Definition set_autoScale (self : TurnObj) (b : bool) : TurnObj :=
  mkTurn (turnClass self) (turn_upperAccidentalName self)
    (turn_lowerAccidentalName self) (turn_delay self)
    (turn_quarterLength self) b.

Definition isDelayed (self : TurnObj) : bool :=
  negb (bool_decide (turn_delay self = DelayEnum NO_DELAY)).

Definition getSize (self : TurnObj) (srcObj : Note)
  (keySig : option key.KeySignature) (which : string)
  : Result interval.Interval :=
  if negb (String.eqb which "upper" || String.eqb which "lower") then
    Raise (ExpressionException
      "Turn.getSize requires 'which' parameter be set to 'upper' or 'lower'")
  else
    match pitch srcObj with
    | None => Raise (TypeError "Cannot compute Turn size with an unpitched srcObj")
    | Some srcPitch =>
        let keySig := keySigOrContext keySig srcObj in
        let ornamentalPitch := withAccidental srcPitch None in
        let '(ornamentalPitch, accidentalName) :=
          if String.eqb which "upper"
          then (interval.transposePitch (interval.GenericInterval 2) ornamentalPitch,
                turn_upperAccidentalName self)
          else (interval.transposePitch (interval.GenericInterval (-2)) ornamentalPitch,
                turn_lowerAccidentalName self) in
        let ornamentalPitch :=
          if nonEmpty accidentalName
          then withAccidental ornamentalPitch (Some (AccidentalOfName accidentalName))
          else withAccidental ornamentalPitch
                 (key.accidentalByStep keySig (step ornamentalPitch)) in
        Ok (interval.between srcPitch ornamentalPitch)
    end.

(** The duration left to the main note *)
Definition remainderDuration (self : TurnObj) (srcQL : Q) : Q :=
  match turn_delay self with
  | DelayEnum NO_DELAY => 0
  | DelayEnum DEFAULT_DELAY => opFrac (srcQL / 2)
  | DelayQL theDelay => theDelay
  end%Q.

(** [remainderDuration] as the number that Python holds: the float [0.0],
    what [opFrac] hands back, or the delay as it was assigned *)
Definition remainder (self : TurnObj) (srcQL : Q) : OffsetQL :=
  match turn_delay self with
  | DelayEnum NO_DELAY => PyFloat 0
  | DelayEnum DEFAULT_DELAY => offsetQL (opFrac (srcQL / 2))
  | DelayQL theDelay => theDelay
  end.

(** [turnDuration = srcObj.duration.quarterLength - remainderDuration], as
    the number that Python holds *)
Definition turnDuration (self : TurnObj) (srcQL : Q) : OffsetQL :=
  Python.sub (offsetQL srcQL) (remainder self srcQL).

(** [useQL] and [fourthNoteQL], or the exception for a note too short.
    The tests are made on [turnDuration], the number that Python holds;
    what is handed to [opFrac] comes back as the fraction that exact
    arithmetic gives for it, computed from [exactDuration]. *)
Definition turnLengths (self : TurnObj) (turnDuration : OffsetQL)
  (exactDuration : Q) : Result (Q * option Q) :=
  if Qlt_bool turnDuration (4 * turn_quarterLength self) then
    if negb (turn_autoScale self) then
      Raise (ExpressionException "The note is not long enough to realize a turn")
    else Ok (opFrac (exactDuration / 4), None)
  else if Qlt_bool (4 * turn_quarterLength self) turnDuration then
    let useQL := turn_quarterLength self in
    Ok (useQL, Some (opFrac (exactDuration - 3 * useQL)))
  else Ok (turn_quarterLength self, None).

Definition realize (self : TurnObj) (srcObj : loc)
  (keySig : option key.KeySignature) (inPlace : bool) : M Note Realization :=
  src <- read srcObj ;;
  if bool_decide (pitch src = None) then
    raise (TypeError "Cannot realize turn with Unpitched srcObj")
  else if Qeq_bool (quarterLength src) 0 then
    raise (ExpressionException
             "Cannot steal time from an object with no duration")
  else
    let remainderDuration := remainderDuration self (quarterLength src) in
    let turnDuration := turnDuration self (quarterLength src) in
    let exactDuration := (quarterLength src - remainderDuration)%Q in
    lengths <- liftR (turnLengths self turnDuration exactDuration) ;;
    let '(useQL, fourthNoteQL) := lengths in
    firstTransposeInterval <-
      liftR (getSize self src keySig
               (if negb (_isInverted (turnClass self)) then "upper" else "lower")) ;;
    secondTransposeInterval <-
      liftR (getSize self src keySig
               (if negb (_isInverted (turnClass self)) then "lower" else "upper")) ;;
    firstNote <- deepcopy srcObj ;;
    setExpressions firstNote [] ;;
    setQuarterLength firstNote useQL ;;
    transpose firstNote firstTransposeInterval ;;
    secondNote <- deepcopy srcObj ;;
    setExpressions secondNote [] ;;
    setQuarterLength secondNote useQL ;;
    thirdNote <- deepcopy srcObj ;;
    setExpressions thirdNote [] ;;
    setQuarterLength thirdNote useQL ;;
    transpose thirdNote secondTransposeInterval ;;
    fourthNote <- deepcopy srcObj ;;
    setExpressions fourthNote [] ;;
    setQuarterLength fourthNote
      (match fourthNoteQL with None => useQL | Some q => q end) ;;
    let turnNotes := [firstNote; secondNote; thirdNote; fourthNote] in
    src <- read srcObj ;;
    let currentKeySig := keySigOrContext None src in
    forEach (enumerate turnNotes) (fun '(noteIdx, n) =>
      let noteNum := S noteIdx in
      nObj <- read n ;;
      match pitch nObj with
      | None => raise (AttributeError "pitch")
      | Some p =>
          if bool_decide (accidental p = None)
             && (Nat.eqb noteNum 1 || Nat.eqb noteNum 3)
          then setAccidental n (key.accidentalByStep currentKeySig (step p))
          else ret tt
      end) ;;
    let inExpressions := index_of (ETurn self) (expressions src) in
    if Qeq_bool remainderDuration 0 then
      ret ([], None, turnNotes)
    else
      remainderNote <- (if negb inPlace then deepcopy srcObj else ret srcObj) ;;
      setQuarterLength remainderNote remainderDuration ;;
      match inExpressions with
      | Some i => popExpression remainderNote i
      | None => ret tt
      end ;;
      ret ([], Some remainderNote, turnNotes).

End Turn.

(* ===================================================================== *)
(** ** GeneralAppoggiatura and its subclasses *)
(* ===================================================================== *)

Module GeneralAppoggiatura.

Definition direction (c : AppoggiaturaClass) : string :=
  match c with
  | GeneralAppoggiatura_ => ""
  | Appoggiatura_ | HalfStepAppoggiatura_ | WholeStepAppoggiatura_ => "down"
  | InvertedAppoggiatura_ | HalfStepInvertedAppoggiatura_
  | WholeStepInvertedAppoggiatura_ => "up"
  end.

Definition init (c : AppoggiaturaClass) : AppoggiaturaObj :=
  mkAppoggiatura c
    (match c with
     | HalfStepAppoggiatura_ | HalfStepInvertedAppoggiatura_ => Some interval.m2
     | _ => Some interval.M2
     end)
    true.

Definition directionKnown (self : AppoggiaturaObj) : bool :=
  String.eqb (direction (appoggiaturaClass self)) "up"
  || String.eqb (direction (appoggiaturaClass self)) "down".

Definition realize (self : AppoggiaturaObj) (srcObj : loc)
  (keySig : option key.KeySignature) (inPlace : bool) : M Note Realization :=
  src <- read srcObj ;;
  if negb (directionKnown self) then
    raise (ExpressionException
             "Cannot realize an Appoggiatura if I do not know its direction")
  else
    match size self with
    | None =>
        raise (ExpressionException
                 "Cannot realize an Appoggiatura if there is no size given")
    | Some theSize =>
        if Qeq_bool (quarterLength src) 0 then
          raise (ExpressionException
                   "Cannot steal time from an object with no duration")
        else
          let newDuration := (quarterLength src / 2)%Q in
          let transposeInterval :=
            if String.eqb (direction (appoggiaturaClass self)) "down"
            then theSize else interval.reverse theSize in
          appoggiaturaNote <- deepcopy srcObj ;;
          setQuarterLength appoggiaturaNote newDuration ;;
          transpose appoggiaturaNote transposeInterval ;;
          src <- read srcObj ;;
          let inExpressions := index_of (EAppoggiatura self) (expressions src) in
          remainderNote <- (if negb inPlace then deepcopy srcObj else ret srcObj) ;;
          setQuarterLength remainderNote newDuration ;;
          match inExpressions with
          | Some i => popExpression remainderNote i
          | None => ret tt
          end ;;
          ret ([appoggiaturaNote], Some remainderNote, [])
    end.

End GeneralAppoggiatura.

(* ===================================================================== *)
(** ** Tremolo *)
(* ===================================================================== *)

(** Modelled from the spec: [splitAtQuarterLength(ql, retainOrigin=False)]
    of the notated event, which is not part of the sources at hand. It
    leaves the event alone and returns two new events, the first of length
    [ql] and the second with the rest of the duration (section 4.6, "split
    the event at [lengthOfEach] boundaries"). *)
Definition splitAtQuarterLength (e : loc) (ql : Q) : M Note (loc * loc) :=
  n <- read e ;;
  first <- deepcopy e ;;
  setQuarterLength first ql ;;
  rest <- deepcopy e ;;
  setQuarterLength rest (quarterLength n - ql)%Q ;;
  ret (first, rest).

Module Tremolo.

Definition init : TremoloObj := mkTremolo true 3 true.

(** The [numberOfMarks] setter, for an integer *)
Definition set_numberOfMarks (self : TremoloObj) (num : Z) : Result TremoloObj :=
  if (num <? 0)%Z || (8 <? num)%Z then
    Raise (TremoloException "Number of marks must be a number from 0 to 8")
  else Ok (mkTremolo (measured self) num (tremolo_autoScale self)).

Definition lengthOfEach (self : TremoloObj) : Q :=
  (2 ^ (-1 * tremolo_numberOfMarks self))%Q.

(** [while eRemain.quarterLength > lengthOfEach: ...], run for at most
    [fuel] rounds *)
Fixpoint splitLoop (fuel : nat) (lengthOfEach : Q) (eRemain : loc)
  (objsConverted : list loc) : M Note (list loc * loc) :=
  e <- read eRemain ;;
  if Qlt_bool lengthOfEach (quarterLength e) then
    match fuel with
    | O => raise OutOfFuel
    | S fuel' =>
        split <- splitAtQuarterLength eRemain lengthOfEach ;;
        let '(addNote, eRemain) := split in
        splitLoop fuel' lengthOfEach eRemain (objsConverted ++ [addNote])
    end
  else ret (objsConverted, eRemain).

(** Rounds that the loop needs at most for a duration [q] *)
Definition roundsFor (lengthOfEach q : Q) : nat :=
  Z.to_nat (Qceiling (q / lengthOfEach)).

Definition realize (self : TremoloObj) (srcObj : loc)
  (keySig : option key.KeySignature) (inPlace : bool) : M Note Realization :=
  let lengthOfEach := lengthOfEach self in
  eRemain <- (if negb inPlace then deepcopy srcObj else ret srcObj) ;;
  e <- read eRemain ;;
  (if isIn (ETremolo self) (expressions e)
   then removeExpression eRemain (ETremolo self)
   else ret tt) ;;
  looped <- splitLoop (roundsFor lengthOfEach (quarterLength e))
              lengthOfEach eRemain [] ;;
  let '(objsConverted, eRemain) := looped in
  ret (objsConverted ++ [eRemain], None, []).

End Tremolo.

(* ===================================================================== *)
(** ** realizeOrnaments *)
(* ===================================================================== *)

(** [hasattr(thisExpression, 'realize')] *)
Definition hasRealize (e : Expression) : bool :=
  match e with
  | EOther _ => false
  | _ => true
  end.

(** [thisExpression.realize(srcObject, keySig=keySig)] *)
Definition realize (thisExpression : Expression) (srcObj : loc)
  (keySig : option key.KeySignature) (inPlace : bool) : M Note Realization :=
  match thisExpression with
  | EMordent m => GeneralMordent.realize m srcObj keySig inPlace
  | ETrill t => Trill.realize t srcObj keySig inPlace
  | ETurn t => Turn.realize t srcObj keySig inPlace
  | EAppoggiatura a => GeneralAppoggiatura.realize a srcObj keySig inPlace
  | ETremolo t => Tremolo.realize t srcObj keySig inPlace
  | EOrnament _ => Ornament.realize srcObj keySig inPlace
  | EOther _ => raise (AttributeError "realize")
  end.

(** [for i in xs: acc.append(i)] *)
Definition appendAll {A} (acc xs : list A) : list A :=
  fold_left (fun acc i => acc ++ [i]) xs acc.

(** The state of the loop of [realizeOrnaments] when it is left *)
Record LoopState : Type := mkLoopState {
  preExpandList : list loc;
  srcObject : option loc;
  postExpandList : list loc;
  loopBuster : nat
}.

(** [while loopBuster: ...] *)
Fixpoint realizeLoop (loopBuster : nat) (keySig : option key.KeySignature)
  (srcObject : loc) (preExpandList postExpandList : list loc)
  : M Note LoopState :=
  match loopBuster with
  | O => ret (mkLoopState preExpandList (Some srcObject) postExpandList O)
  | S loopBuster =>
      src <- read srcObject ;;
      match expressions src with
      | [] => raise (IndexError "list index out of range")
      | thisExpression :: _ =>
          if hasRealize thisExpression then
            realized <- realize thisExpression srcObject keySig false ;;
            let '(preExpand, newSrcObject, postExpand) := realized in
            let preExpandList := appendAll preExpandList preExpand in
            let postExpandList := appendAll postExpandList postExpand in
            match newSrcObject with
            | None =>
                ret (mkLoopState preExpandList None postExpandList loopBuster)
            | Some newSrcObject =>
                src <- read srcObject ;;
                setExpressions newSrcObject (drop 1 (expressions src)) ;;
                let srcObject := newSrcObject in
                src <- read srcObject ;;
                match expressions src with
                | [] => ret (mkLoopState preExpandList (Some srcObject)
                               postExpandList loopBuster)
                | _ :: _ => realizeLoop loopBuster keySig srcObject
                              preExpandList postExpandList
                end
            end
          else
            setExpressions srcObject (drop 1 (expressions src)) ;;
            src <- read srcObject ;;
            match expressions src with
            | [] => ret (mkLoopState preExpandList (Some srcObject)
                           postExpandList loopBuster)
            | _ :: _ => realizeLoop loopBuster keySig srcObject
                          preExpandList postExpandList
            end
      end
  end.

Definition retList (st : LoopState) : list loc :=
  let retList := [] in
  let retList := appendAll retList (preExpandList st) in
  let retList := match srcObject st with
                 | Some s => retList ++ [s]
                 | None => retList
                 end in
  appendAll retList (postExpandList st).

Definition realizeOrnaments (srcObj : loc) (keySig : option key.KeySignature)
  : M Note (list loc) :=
  src <- read srcObj ;;
  match expressions src with
  | [] => ret [srcObj]
  | _ :: _ =>
      st <- realizeLoop 100 keySig srcObj [] [] ;;
      ret (retList st)
  end.

(* ===================================================================== *)
(** ** RehearsalMark and ArpeggioMark *)
(* ===================================================================== *)

Record RehearsalMarkObj : Type := mkRehearsalMark {
  content : string;
  numbering : option string
}.

Record ArpeggioMarkObj : Type := mkArpeggioMark {
  type : string
}.

Module RehearsalMark.

Definition init (content : string) (numbering : option string)
  : Result RehearsalMarkObj :=
  match numbering with
  | None => Ok (mkRehearsalMark content None)
  | Some s =>
      if String.eqb s "alphabetical" || String.eqb s "roman"
         || String.eqb s "number"
      then Ok (mkRehearsalMark content numbering)
      else Raise (ExpressionException
             "Numbering must be 'alphabetical', 'roman', 'number', or None")
  end.

End RehearsalMark.

Module ArpeggioMark.

Definition validType (s : string) : bool :=
  String.eqb s "normal" || String.eqb s "up" || String.eqb s "down"
  || String.eqb s "non-arpeggio".

Definition init (arpeggioType : option string) : Result ArpeggioMarkObj :=
  let arpeggioType :=
    match arpeggioType with
    | None => "normal"
    | Some s => if nonEmpty s then s else "normal"
    end in
  if negb (validType arpeggioType) then
    Raise (ValueError
      "Arpeggio type must be 'normal', 'up', 'down', or 'non-arpeggio'")
  else Ok (mkArpeggioMark arpeggioType).

End ArpeggioMark.

Module ArpeggioMarkSpanner.

Definition init (arpeggioType : string) : Result ArpeggioMarkObj :=
  if negb (ArpeggioMark.validType arpeggioType) then
    Raise (ValueError
      "Arpeggio type must be 'normal', 'up', 'down', or 'non-arpeggio'")
  else Ok (mkArpeggioMark arpeggioType).

End ArpeggioMarkSpanner.

(* ===================================================================== *)
(** ** Ornamental pitches and their accidental display *)
(* ===================================================================== *)

(** [if p.accidental is None: p.accidental = pitch.Accidental(0)] and then
    [p.accidental.displayStatus = True] *)
Definition forceAccidentalDisplay (p : Pitch) : Pitch :=
  let a := match accidental p with
           | Some a => a
           | None => mkAccidental 0 None
           end in
  withAccidental p (Some (mkAccidental (alter a) (Some true))).

(** The keyword arguments of [updateAccidentalDisplay] *)
Record DisplayArguments : Type := mkDisplayArguments {
  pitchPast : option (list Pitch);
  pitchPastMeasure : option (list Pitch);
  otherSimultaneousPitches : option (list Pitch);
  alteredPitches : option (list Pitch);
  cautionaryPitchClass : bool;
  cautionaryAll : bool;
  overrideStatus : bool;
  cautionaryNotImmediateRepeat : bool
}.

(** What [Pitch.updateAccidentalDisplay] is called with: the arguments of
    the ornament without [otherSimultaneousPitches], and
    [lastNoteWasTied]. *)
Record PitchDisplayArguments : Type := mkPitchDisplayArguments {
  p_pitchPast : option (list Pitch);
  p_pitchPastMeasure : option (list Pitch);
  p_alteredPitches : option (list Pitch);
  p_cautionaryPitchClass : bool;
  p_cautionaryAll : bool;
  p_overrideStatus : bool;
  p_cautionaryNotImmediateRepeat : bool;
  p_lastNoteWasTied : bool
}.

Definition untiedArguments (args : DisplayArguments) : PitchDisplayArguments :=
  mkPitchDisplayArguments (pitchPast args) (pitchPastMeasure args)
    (alteredPitches args) (cautionaryPitchClass args) (cautionaryAll args)
    (overrideStatus args) (cautionaryNotImmediateRepeat args) false.

Module GeneralMordentDisplay.

(** [resolveOrnamentalPitches]: the new value of
    [self._ornamentalPitches] *)
Definition resolveOrnamentalPitches (self : MordentObj) (srcObj : Note)
  (keySig : option key.KeySignature) : Result (list Pitch) :=
  match pitch srcObj with
  | None =>
      Raise (TypeError
        "Cannot resolve mordent's ornamental pitches with an unpitched srcObj")
  | Some srcPitch =>
      match GeneralMordent.getSize self srcObj keySig with
      | Raise e => Raise e
      | Ok transposeInterval =>
          let ornamentalPitch :=
            interval.transposePitch transposeInterval srcPitch in
          let ornamentalPitch :=
            if nonEmpty (GeneralMordent.accidentalName self)
            then forceAccidentalDisplay ornamentalPitch
            else ornamentalPitch in
          Ok [ornamentalPitch]
      end
  end.

(** The [ornamentalPitch] property *)
Definition ornamentalPitch (_ornamentalPitches : list Pitch) : option Pitch :=
  match _ornamentalPitches with
  | p :: _ => Some p
  | [] => None
  end.

Section WithPitchDisplay.
(** [Pitch.updateAccidentalDisplay], of the pitch module: the pitch as the
    call leaves it *)
Variable Pitch_updateAccidentalDisplay : PitchDisplayArguments -> Pitch -> Pitch.

(** [updateAccidentalDisplay]: [self._ornamentalPitches] as the call
    leaves it, the pitch being updated where it stands *)
Definition updateAccidentalDisplay (self : MordentObj)
  (_ornamentalPitches : list Pitch) (args : DisplayArguments) : list Pitch :=
  match ornamentalPitch _ornamentalPitches with
  | None => _ornamentalPitches
  | Some p =>
      if nonEmpty (GeneralMordent.accidentalName self)
      then <[0 := forceAccidentalDisplay p]> _ornamentalPitches
      else <[0 := Pitch_updateAccidentalDisplay (untiedArguments args) p]>
             _ornamentalPitches
  end.

End WithPitchDisplay.

End GeneralMordentDisplay.

Module TrillDisplay.

Definition resolveOrnamentalPitches (self : TrillObj) (srcObj : Note)
  (keySig : option key.KeySignature) : Result (list Pitch) :=
  match pitch srcObj with
  | None =>
      Raise (TypeError
        "Cannot resolve trill's ornamental pitches with an unpitched srcObj")
  | Some srcPitch =>
      match Trill.getSize self srcObj keySig with
      | Raise e => Raise e
      | Ok transposeInterval =>
          let ornamentalPitch :=
            interval.transposePitch transposeInterval srcPitch in
          let ornamentalPitch :=
            if nonEmpty (Trill.accidentalName self)
            then forceAccidentalDisplay ornamentalPitch
            else ornamentalPitch in
          Ok [ornamentalPitch]
      end
  end.

Definition ornamentalPitch (_ornamentalPitches : list Pitch) : option Pitch :=
  match _ornamentalPitches with
  | p :: _ => Some p
  | [] => None
  end.

Section WithPitchDisplay.
Variable Pitch_updateAccidentalDisplay : PitchDisplayArguments -> Pitch -> Pitch.

Definition updateAccidentalDisplay (self : TrillObj)
  (_ornamentalPitches : list Pitch) (args : DisplayArguments) : list Pitch :=
  match ornamentalPitch _ornamentalPitches with
  | None => _ornamentalPitches
  | Some p =>
      if nonEmpty (Trill.accidentalName self)
      then <[0 := forceAccidentalDisplay p]> _ornamentalPitches
      else <[0 := Pitch_updateAccidentalDisplay (untiedArguments args) p]>
             _ornamentalPitches
  end.

End WithPitchDisplay.

End TrillDisplay.

Module TurnDisplay.

Definition resolveOrnamentalPitches (self : TurnObj) (srcObj : Note)
  (keySig : option key.KeySignature) : Result (list Pitch) :=
  match pitch srcObj with
  | None =>
      Raise (TypeError
        "Cannot resolve turn's ornamental pitches with an unpitched srcObj")
  | Some srcPitch =>
      match Turn.getSize self srcObj keySig "upper" with
      | Raise e => Raise e
      | Ok transposeIntervalUp =>
          let upperPitch := interval.transposePitch transposeIntervalUp srcPitch in
          match Turn.getSize self srcObj keySig "lower" with
          | Raise e => Raise e
          | Ok transposeIntervalDown =>
              let lowerPitch :=
                interval.transposePitch transposeIntervalDown srcPitch in
              let upperPitch :=
                if nonEmpty (turn_upperAccidentalName self)
                then forceAccidentalDisplay upperPitch else upperPitch in
              let lowerPitch :=
                if nonEmpty (turn_lowerAccidentalName self)
                then forceAccidentalDisplay lowerPitch else lowerPitch in
              Ok [upperPitch; lowerPitch]
          end
      end
  end.

(** [upperOrnamentalPitch] and [lowerOrnamentalPitch] *)
Definition upperOrnamentalPitch (_ornamentalPitches : list Pitch) : option Pitch :=
  if (1 <=? length _ornamentalPitches)%nat then _ornamentalPitches !! 0%nat
  else None.

Definition lowerOrnamentalPitch (_ornamentalPitches : list Pitch) : option Pitch :=
  if (2 <=? length _ornamentalPitches)%nat then _ornamentalPitches !! 1%nat
  else None.

Section WithPitchDisplay.
Variable Pitch_updateAccidentalDisplay : PitchDisplayArguments -> Pitch -> Pitch.

Definition updateAccidentalDisplay (self : TurnObj)
  (_ornamentalPitches : list Pitch) (args : DisplayArguments) : list Pitch :=
  match _ornamentalPitches with
  | [] => _ornamentalPitches
  | _ :: _ =>
      let pitches :=
        match upperOrnamentalPitch _ornamentalPitches with
        | None => _ornamentalPitches
        | Some p =>
            if nonEmpty (turn_upperAccidentalName self)
            then <[0 := forceAccidentalDisplay p]> _ornamentalPitches
            else <[0 := Pitch_updateAccidentalDisplay (untiedArguments args) p]>
                   _ornamentalPitches
        end in
      match lowerOrnamentalPitch pitches with
      | None => pitches
      | Some p =>
          if nonEmpty (turn_lowerAccidentalName self)
          then <[1 := forceAccidentalDisplay p]> pitches
          else <[1 := Pitch_updateAccidentalDisplay (untiedArguments args) p]>
                 pitches
      end
  end.

End WithPitchDisplay.

End TurnDisplay.

(* ===================================================================== *)
(** ** TremoloSpanner and TrillExtension *)
(* ===================================================================== *)

Record TremoloSpannerObj : Type := mkTremoloSpanner {
  tremoloSpanner_placement : option string;
  tremoloSpanner_measured : bool;
  tremoloSpanner_numberOfMarks : Z      (* self._numberOfMarks *)
}.

Module TremoloSpanner.

Definition init : TremoloSpannerObj := mkTremoloSpanner None true 3.

(** The [numberOfMarks] setter, for an integer *)
Definition set_numberOfMarks (self : TremoloSpannerObj) (num : Z)
  : Result TremoloSpannerObj :=
  if (num <? 0)%Z || (8 <? num)%Z then
    Raise (TremoloException "Number of marks must be a number from 0 to 8")
  else Ok (mkTremoloSpanner (tremoloSpanner_placement self)
             (tremoloSpanner_measured self) num).

End TremoloSpanner.

Record TrillExtensionObj : Type := mkTrillExtension {
  _placement : option string
}.

(** What an assignment to [TrillExtension.placement] comes to *)
Inductive PlacementResult : Type :=
| PlacementSet (t : TrillExtensionObj)
| TrillExtensionException (msg : string).

Module TrillExtension.

(** [str.lower], on the letters A to Z *)
Definition lowerChar (c : Ascii.ascii) : Ascii.ascii :=
  let n := Ascii.nat_of_ascii c in
  if (65 <=? n)%nat && (n <=? 90)%nat then Ascii.ascii_of_nat (n + 32) else c.

Fixpoint lower (s : string) : string :=
  match s with
  | EmptyString => EmptyString
  | String c s' => String (lowerChar c) (lower s')
  end.

Definition init : TrillExtensionObj := mkTrillExtension None.

Definition _getPlacement (self : TrillExtensionObj) : option string :=
  _placement self.

Definition _setPlacement (self : TrillExtensionObj) (value : option string)
  : PlacementResult :=
  match value with
  | Some v =>
      if negb (String.eqb (lower v) "above" || String.eqb (lower v) "below")
      then TrillExtensionException ("incorrect placement value: " ++ v)
      else PlacementSet (mkTrillExtension (Some (lower v)))
  | None => PlacementSet self
  end.

End TrillExtension.

(* ===================================================================== *)
(** ** TextExpression *)
(* ===================================================================== *)

Module TextExpression.

Section WithCharacters.
(** The characters of a Python string, the full stop among them, and
    [repr] on strings *)
Variable Char : Type.
Variable fullStop : Char.
Variable repr : list Char -> list Char.

(** [_reprInternal]; [self._content] is a string, as [__init__] and the
    setter of [content] store nothing else. *)
Definition _reprInternal (_content : list Char) : list Char :=
  if (13 <=? length _content)%nat then
    let shortContent := take 10 _content ++ [fullStop; fullStop; fullStop] in
    repr shortContent
  else repr _content.

End WithCharacters.

End TextExpression.

(* ===================================================================== *)
(** ** Vocabulary of the properties *)
(* ===================================================================== *)

Definition C4 : Pitch := mkPitch sC 4 None.
Definition E4 : Pitch := mkPitch sE 4 None.
Definition B3 : Pitch := mkPitch sB 3 None.
Definition Fsharp4 : Pitch := mkPitch sF 4 (Some (AccidentalOfName "sharp")).

Definition noSharpsOrFlats : key.KeySignature := key.mkKeySignature 0.
Definition oneSharp : key.KeySignature := key.mkKeySignature 1.

(** The Turn objects a program can build: made by [__init__], then
    changed through the property setters and attribute assignments. *)
Inductive TurnReachable : TurnObj -> Prop :=
| reach_init c d u l : TurnReachable (Turn.init c d u l)
| reach_delay t d : TurnReachable t -> TurnReachable (Turn.set_delay t d)
| reach_upper t s :
    TurnReachable t -> TurnReachable (Turn.set_upperAccidentalName t s)
| reach_lower t s :
    TurnReachable t -> TurnReachable (Turn.set_lowerAccidentalName t s)
| reach_quarterLength t q :
    TurnReachable t -> TurnReachable (Turn.set_quarterLength t q)
| reach_autoScale t b :
    TurnReachable t -> TurnReachable (Turn.set_autoScale t b).

Definition delayPositive (d : Delay) : Prop :=
  match d with
  | DelayQL q => (0 < q)%Q
  | DelayEnum _ => True
  end.

Definition stealsTime (e : Expression) : bool :=
  match e with
  | EMordent _ | ETrill _ | ETurn _ | EAppoggiatura _ => true
  | _ => false
  end.

(** The checks that [realize] makes before it looks at the duration: the
    direction of a mordent, the pitch of the event for a trill and a turn,
    the direction and the size of an appoggiatura. *)
Definition reachesDurationCheck (e : Expression) (src : Note) : bool :=
  match e with
  | EMordent m => GeneralMordent.directionKnown m
  | ETrill _ | ETurn _ => bool_decide (pitch src <> None)
  | EAppoggiatura a =>
      GeneralAppoggiatura.directionKnown a && bool_decide (size a <> None)
  | _ => false
  end.

Definition noDuration : Exception :=
  ExpressionException "Cannot steal time from an object with no duration".

(** The durations of the events of the store *)
Definition qls (h : store Note) : list Q := quarterLength <$> h.

Definition durationAt (h : store Note) (l : loc) : option Q :=
  quarterLength <$> (h !! l).


(** The duration of the fourth note of a turn *)
Definition fourthQL (lengths : Q * option Q) : Q :=
  match snd lengths with
  | None => fst lengths
  | Some q => q
  end.

Definition B4 : Pitch := mkPitch sB 4 None.
Definition fiveSharps : key.KeySignature := key.mkKeySignature 5.

(** What Python holds for [srcObj.duration.quarterLength / useQL] *)
Definition trillQuotient (srcQL : Q) (useQL : OffsetQL) : OffsetQL :=
  Python.truediv (offsetQL srcQL) useQL.

(** The number of pairs of alternation notes of a trill on an event of
    duration [srcQL], for the sub-note length [useQL] *)
Definition trillPairs (t : TrillObj) (srcQL : Q) (useQL : OffsetQL) : nat :=
  Z.to_nat (Z.quot (if nachschlag t then (int (trillQuotient srcQL useQL) - 2)%Z
                    else int (trillQuotient srcQL useQL)) 2).

(** The quarter length [q] is one that [duration.quarterLength] hands out
    as a float. *)
Definition heldAsFloat (q : Q) : Prop := (float64 q == q)%Q.

Definition nachschlagNotes (t : TrillObj) : nat :=
  if nachschlag t then 2 else 0.

(** A computation that leaves the first [n] objects of the store alone:
    whatever it assigns to, it assigns to objects allocated later. [P]
    holds of what it returns. *)
Definition writesOnlyFresh {A} (n : nat) (m : M Note A) (P : A -> Prop) : Prop :=
  forall h : store Note, n <= length h ->
    n <= length (fst (m h))
    /\ take n (fst (m h)) = take n h
    /\ forall a, snd (m h) = Ok a -> P a.

(** The locations of a realization are all at or after [n]. *)
Definition realizationFrom (n : nat) (r : Realization) : Prop :=
  let '(pre, main, post) := r in
  Forall (le n) pre /\ (forall l, main = Some l -> n <= l) /\ Forall (le n) post.



(** The remaining event as a list: itself, or nothing when it is [None] *)
Definition remainingEvent (o : option loc) : list loc :=
  match o with
  | Some s => [s]
  | None => []
  end.


Definition D5 : Pitch := mkPitch sD 5 None.
Definition C5 : Pitch := mkPitch sC 5 None.

(** The main note that an out-of-place [realize] hands back for the event
    [src]: the same pitch in the same context, and the expressions of
    [src] without the ornament realized (a plain [Ornament] takes nothing
    out). *)
Definition remainderOf (e : Expression) (src nr : Note) : Prop :=
  pitch nr = pitch src
  /\ contextKeySig nr = contextKeySig src
  /\ expressions nr = match e with
                      | EOrnament _ => expressions src
                      | _ => remove_first e (expressions src)
                      end.

(* ===================================================================== *)
(** ** Vocabulary of the further properties *)
(* ===================================================================== *)

(** How many expressions at the head of the list have no [realize] *)
Fixpoint leadingUnrealizable (es : list Expression) : nat :=
  match es with
  | e :: es' => if hasRealize e then 0 else S (leadingUnrealizable es')
  | [] => 0
  end.

(** [if p.accidental is None: p.accidental = keySig.accidentalByStep(p.step)] *)
Definition fillAccidental (k : key.KeySignature) (p : Pitch) : Pitch :=
  if bool_decide (accidental p = None)
  then withAccidental p (key.accidentalByStep k (step p))
  else p.

(** A computation that raises exceptions of the kind [P] only *)
Definition raisesOnly {A} (P : Exception -> Prop) (m : M Note A) : Prop :=
  forall (h : store Note) e, snd (m h) = Raise e -> P e.

Definition resultRaisesOnly {A} (P : Exception -> Prop) (r : Result A) : Prop :=
  forall e, r = Raise e -> P e.

(** The exceptions for an event too short for its ornament *)
Definition tooShort (e : Exception) : bool :=
  match e with
  | ExpressionException msg => String.prefix "The note is not long enough" msg
  | _ => false
  end.

(** [self.autoScale] of the ornaments that look at it *)
Definition scales (e : Expression) : bool :=
  match e with
  | EMordent m => mordent_autoScale m
  | ETrill t => trill_autoScale t
  | ETurn t => turn_autoScale t
  | _ => true
  end.

Definition notIndexError (e : Exception) : Prop :=
  forall msg, e <> IndexError msg.

(** [k] times the two notes [n1] and [n2] *)
Fixpoint alternation (k : nat) (n1 n2 : Note) : list Note :=
  match k with
  | O => []
  | S k' => n1 :: n2 :: alternation k' n1 n2
  end.

(** The pitch of the upper note of a trill after the loop that corrects
    accidentals: a note that is not the note of the event and has no
    accidental takes the accidental of the key signature for its step. *)
Definition trillUpperPitch (t : TrillObj) (k : key.KeySignature) (p p2 : Pitch)
  : Pitch :=
  if Trill._setAccidentalFromKeySig t then
    if sameNameWithOctave p2 p then p2 else fillAccidental k p2
  else p2.

(** The pitch of a note of the nachschlag: its accidental is that of the
    key signature for its step, whatever it was before. *)
Definition nachschlagPitch (t : TrillObj) (k : key.KeySignature) (q : Pitch)
  : Pitch :=
  if Trill._setAccidentalFromKeySig t
  then withAccidental q (key.accidentalByStep k (step q))
  else q.

(** A pitch whose accidental is there and marked to be displayed *)
Definition displayForced (p : Pitch) : Prop :=
  exists a, accidental p = Some a /\ displayStatus a = Some true.

(** The alteration, in semitones, that an optional accidental stands for *)
Definition alterOfAccidental (a : option Accidental) : Q :=
  match a with
  | Some a => alter a
  | None => 0
  end.

(** The alteration that [getSize] gives the ornamental pitch on the step
    [s]: that of the accidental named, or else that of the key signature
    for the step *)
Definition ornamentalAlter (name : string) (k : key.KeySignature) (s : Step) : Q :=
  if nonEmpty name then alter (AccidentalOfName name)
  else alterOfAccidental (key.accidentalByStep k s).

(** The tremolos a program can build: made by [__init__], then changed by
    assignments to [numberOfMarks] that do not raise, and to the plain
    attributes [measured] and [autoScale]. *)
Inductive TremoloReachable : TremoloObj -> Prop :=
| tremolo_init : TremoloReachable Tremolo.init
| tremolo_marks t num t' :
    TremoloReachable t -> Tremolo.set_numberOfMarks t num = Ok t' ->
    TremoloReachable t'
| tremolo_measured t b :
    TremoloReachable t ->
    TremoloReachable (mkTremolo b (tremolo_numberOfMarks t) (tremolo_autoScale t))
| tremolo_autoScale_set t b :
    TremoloReachable t ->
    TremoloReachable (mkTremolo (measured t) (tremolo_numberOfMarks t) b).

Inductive TremoloSpannerReachable : TremoloSpannerObj -> Prop :=
| tremoloSpanner_init : TremoloSpannerReachable TremoloSpanner.init
| tremoloSpanner_marks t num t' :
    TremoloSpannerReachable t -> TremoloSpanner.set_numberOfMarks t num = Ok t' ->
    TremoloSpannerReachable t'
| tremoloSpanner_attributes t placement measured :
    TremoloSpannerReachable t ->
    TremoloSpannerReachable
      (mkTremoloSpanner placement measured (tremoloSpanner_numberOfMarks t)).

(** The trill extensions a program can build: made by [__init__], then
    changed by assignments to [placement] that do not raise. *)
Inductive TrillExtensionReachable : TrillExtensionObj -> Prop :=
| trillExtension_init : TrillExtensionReachable TrillExtension.init
| trillExtension_placement t value t' :
    TrillExtensionReachable t ->
    TrillExtension._setPlacement t value = PlacementSet t' ->
    TrillExtensionReachable t'.



(** A computation that, of the first [n] objects of the store, assigns to
    the event at [s] only, and leaves that event related to what it was by
    [R]; [P] holds of what it returns. *)
Definition writesEvent (R : Note -> Note -> Prop) (s n : nat) {A}
  (m : M Note A) (P : A -> Prop) : Prop :=
  forall h : store Note, n <= length h ->
    n <= length (fst (m h))
    /\ (forall x, x < n -> x <> s -> fst (m h) !! x = h !! x)
    /\ (forall o, h !! s = Some o -> exists o', fst (m h) !! s = Some o' /\ R o o')
    /\ forall a, snd (m h) = Ok a -> P a.

(** The event after an assignment to its duration or its expressions:
    the same pitch in the same context *)
Definition samePitchAndContext (o o' : Note) : Prop :=
  pitch o' = pitch o /\ contextKeySig o' = contextKeySig o.

Abbreviation keepsPitch := (writesEvent samePitchAndContext).

(** A realization in place: the main note is the event itself, the other
    notes are new. *)
Definition realizationInPlace (s n : nat) (r : Realization) : Prop :=
  let '(pre, main, post) := r in
  Forall (le n) pre /\ (forall l, main = Some l -> l = s) /\ Forall (le n) post.

(** What [realize] in place returns, for any ornament: notes that are new
    or the event itself, and as the main note the event itself *)
Definition realizationOfEvent (s n : nat) (r : Realization) : Prop :=
  let '(pre, main, post) := r in
  Forall (fun x => x = s \/ n <= x) (pre ++ post)
  /\ (forall l, main = Some l -> l = s).

(* ===================================================================== *)
(** * Properties *)
(* ===================================================================== *)

(** ** The rounding of floats *)

Section Rounding.
Local Open Scope Q_scope.

Lemma float64_proper p q : p == q -> float64 p = float64 q.
Proof. intros H. unfold float64. rewrite (Qred_complete _ _ H). reflexivity. Qed.

Lemma pow2_pos k : 0 < 2 ^ k.
Proof. apply Qpower_0_lt. reflexivity. Qed.

Lemma pow2_succ k : 2 ^ (k + 1) == 2 * 2 ^ k.
Proof. rewrite Qpower_plus by discriminate. change (2 ^ 1) with 2. ring. Qed.

Lemma pow2_pred k : 2 ^ (k - 1) == 2 ^ k / 2.
Proof.
  unfold Z.sub. rewrite Qpower_plus by discriminate.
  change (2 ^ (-1)) with (/ 2). reflexivity.
Qed.

Lemma inject_Z_pow2 a : (0 <= a)%Z -> inject_Z (2 ^ a) == 2 ^ a.
Proof. intros Ha. rewrite Zpower_Qpower by exact Ha. reflexivity. Qed.

Lemma exponent_spec q : 0 < q -> 2 ^ exponent q <= q /\ q < 2 ^ (exponent q + 1).
Proof.
  intros Hq. unfold exponent.
  destruct q as [n d]. simpl Qnum. simpl Qden.
  assert (Hn : (0 < n)%Z).
  { unfold Qlt in Hq. simpl in Hq. lia. }
  set (a := Z.log2 n). set (b := Z.log2 (Z.pos d)).
  destruct (Z.log2_spec n Hn) as [Ha1 Ha2]. fold a in Ha1, Ha2.
  destruct (Z.log2_spec (Z.pos d) eq_refl) as [Hb1 Hb2]. fold b in Hb1, Hb2.
  assert (Ha0 : (0 <= a)%Z) by apply Z.log2_nonneg.
  assert (Hb0 : (0 <= b)%Z) by apply Z.log2_nonneg.
  assert (Hd : 0 < inject_Z (Z.pos d)) by reflexivity.
  assert (Eq : n # d == inject_Z n / inject_Z (Z.pos d)).
  { rewrite Qmake_Qdiv. reflexivity. }
  assert (Hlow : 2 ^ (a - b - 1) < n # d).
  { rewrite Eq. apply Qlt_shift_div_l; [exact Hd|].
    apply Qlt_le_trans with (2 ^ (a - b - 1) * 2 ^ (b + 1)).
    - apply Qmult_lt_l; [apply pow2_pos|].
      rewrite <- inject_Z_pow2 by lia. rewrite <- Zlt_Qlt. replace (Z.succ b) with (b + 1)%Z in Hb2 by lia. exact Hb2.
    - rewrite <- Qpower_plus by discriminate.
      replace (a - b - 1 + (b + 1))%Z with a by lia.
      rewrite <- inject_Z_pow2 by lia. rewrite <- Zle_Qle. exact Ha1. }
  assert (Hhigh : n # d < 2 ^ (a - b + 1)).
  { rewrite Eq. apply Qlt_shift_div_r; [exact Hd|].
    apply Qlt_le_trans with (2 ^ (a + 1)).
    - rewrite <- inject_Z_pow2 by lia. rewrite <- Zlt_Qlt. replace (Z.succ a) with (a + 1)%Z in Ha2 by lia. exact Ha2.
    - replace (a + 1)%Z with (a - b + 1 + b)%Z at 1 by lia.
      rewrite Qpower_plus by discriminate.
      apply Qmult_le_l; [apply pow2_pos|].
      rewrite <- inject_Z_pow2 by lia. rewrite <- Zle_Qle. exact Hb1. }
  destruct (Qle_bool (2 ^ (a - b)) (n # d)) eqn:E.
  - apply Qle_bool_iff in E. split; assumption.
  - assert (~ 2 ^ (a - b) <= n # d) as E'.
    { intros H. apply Qle_bool_iff in H. congruence. }
    apply Qnot_le_lt in E'. split.
    + apply Qlt_le_weak. exact Hlow.
    + replace (a - b - 1 + 1)%Z with (a - b)%Z by lia. exact E'.
Qed.

Lemma exponent_unique q e :
  2 ^ e <= q -> q < 2 ^ (e + 1) -> exponent q = e.
Proof.
  intros H1 H2.
  assert (Hq : 0 < q) by (eapply Qlt_le_trans; [apply (pow2_pos e) | exact H1]).
  destruct (exponent_spec q Hq) as [H3 H4].
  assert (2 ^ exponent q < 2 ^ (e + 1)) as A by (eapply Qle_lt_trans; eassumption).
  assert (2 ^ e < 2 ^ (exponent q + 1)) as B by (eapply Qle_lt_trans; eassumption).
  apply Qpower_lt_compat_l_inv in A; [|reflexivity].
  apply Qpower_lt_compat_l_inv in B; [|reflexivity].
  lia.
Qed.

Lemma exponent_proper p q : 0 < p -> p == q -> exponent p = exponent q.
Proof.
  intros Hp E. symmetry. assert (Hq : 0 < q) by (rewrite <- E; exact Hp).
  destruct (exponent_spec p Hp) as [H1 H2].
  apply exponent_unique; rewrite <- E; assumption.
Qed.

Lemma roundHalfEven_proper p q : p == q -> roundHalfEven p = roundHalfEven q.
Proof.
  intros E. unfold roundHalfEven.
  rewrite (Qfloor_comp _ _ E).
  assert (p - inject_Z (Qfloor q) == q - inject_Z (Qfloor q)) as E'
      by (rewrite E; reflexivity).
  rewrite (Qcompare_comp _ _ E' _ _ (Qeq_refl _)). reflexivity.
Qed.

Lemma roundPositive_proper p q : 0 < p -> p == q -> roundPositive p == roundPositive q.
Proof.
  intros Hp E. unfold roundPositive.
  rewrite (exponent_proper p q Hp E).
  rewrite (roundHalfEven_proper (p * 2 ^ (52 - exponent q)) (q * 2 ^ (52 - exponent q)))
    by (rewrite E; reflexivity).
  reflexivity.
Qed.

Lemma exponent_half q : 0 < q -> exponent (q / 2) = (exponent q - 1)%Z.
Proof.
  intros Hq. destruct (exponent_spec q Hq) as [H1 H2].
  apply exponent_unique.
  - rewrite pow2_pred. apply Qmult_le_r; [reflexivity | exact H1].
  - replace (exponent q - 1 + 1)%Z with (exponent q) by lia.
    rewrite pow2_succ in H2.
    apply Qlt_shift_div_r; [reflexivity|]. lra.
Qed.

Lemma roundPositive_half q : 0 < q -> roundPositive (q / 2) == roundPositive q / 2.
Proof.
  intros Hq. unfold roundPositive. rewrite (exponent_half q Hq).
  set (e := exponent q).
  rewrite (roundHalfEven_proper (q / 2 * 2 ^ (52 - (e - 1))) (q * 2 ^ (52 - e))).
  - replace (e - 1 - 52)%Z with (e - 52 - 1)%Z by lia.
    rewrite pow2_pred. field.
  - replace (52 - (e - 1))%Z with (52 - e + 1)%Z by lia.
    rewrite pow2_succ. field.
Qed.

Lemma Qnum_sign q : match Qnum (Qred q) with
                    | Z0 => q == 0 | Zpos _ => 0 < q | Zneg _ => q < 0 end.
Proof.
  pose proof (Qred_correct q) as E.
  destruct (Qred q) as [n d] eqn:R. simpl.
  destruct n; rewrite <- E; reflexivity.
Qed.

Lemma float64_pos q : 0 < q -> float64 q == roundPositive q.
Proof.
  intros Hq. unfold float64. rewrite Qred_correct.
  pose proof (Qnum_sign q) as S.
  destruct (Qnum (Qred q)).
  - rewrite S in Hq. discriminate Hq.
  - apply roundPositive_proper; [rewrite Qred_correct; exact Hq | apply Qred_correct].
  - lra.
Qed.

Lemma float64_neg q : q < 0 -> float64 q == - roundPositive (- q).
Proof.
  intros Hq. unfold float64. rewrite Qred_correct.
  pose proof (Qnum_sign q) as S.
  destruct (Qnum (Qred q)).
  - rewrite S in Hq. discriminate Hq.
  - lra.
  - apply Qopp_comp. apply roundPositive_proper; [rewrite Qred_correct; lra|].
    rewrite Qred_correct. reflexivity.
Qed.

Lemma float64_zero q : q == 0 -> float64 q = 0.
Proof. intros H. rewrite (float64_proper _ _ H). reflexivity. Qed.

(** Halving is exact: the double of [q / 2] is half the double of [q]. *)
Lemma float64_half q : float64 (q / 2) == float64 q / 2.
Proof.
  destruct (Q_dec q 0) as [[H|H]|H].
  - rewrite (float64_neg (q / 2)) by (apply Qlt_shift_div_r; [reflexivity|lra]).
    rewrite (float64_neg q H).
    rewrite (roundPositive_proper (- (q / 2)) (- q / 2)).
    + rewrite roundPositive_half by lra. field.
    + assert (q / 2 < 0) by (apply Qlt_shift_div_r; [reflexivity|lra]). lra.
    + field.
  - rewrite (float64_pos (q / 2)) by (apply Qlt_shift_div_l; [reflexivity|lra]).
    rewrite (float64_pos q H). apply roundPositive_half. exact H.
  - rewrite (float64_zero q H). rewrite float64_zero; [reflexivity|].
    rewrite H. reflexivity.
Qed.

Lemma roundHalfEven_Z m : roundHalfEven (inject_Z m) = m.
Proof.
  unfold roundHalfEven. rewrite Qfloor_Z.
  assert (inject_Z m - inject_Z m == 0) as E by ring.
  rewrite (Qcompare_comp _ _ E _ _ (Qeq_refl _)). reflexivity.
Qed.

Lemma roundHalfEven_lower (a : Z) y : inject_Z a <= y -> (a <= roundHalfEven y)%Z.
Proof.
  intros H. unfold roundHalfEven.
  assert (a <= Qfloor y)%Z.
  { rewrite <- (Qfloor_Z a). apply Qfloor_resp_le. exact H. }
  destruct (y - inject_Z (Qfloor y) ?= 1 # 2); [destruct (Z.even _)| |]; lia.
Qed.

Lemma roundHalfEven_upper (b : Z) y : y <= inject_Z b -> (roundHalfEven y <= b)%Z.
Proof.
  intros H. unfold roundHalfEven.
  pose proof (Qfloor_le y) as Hf.
  assert (Qfloor y <= b)%Z as Hb.
  { rewrite <- (Qfloor_Z b). apply Qfloor_resp_le. exact H. }
  destruct (Z.eq_dec (Qfloor y) b) as [E|E].
  - assert (y - inject_Z (Qfloor y) == 0) as E0.
    { rewrite E in *. lra. }
    rewrite (Qcompare_comp _ _ E0 _ _ (Qeq_refl _)). simpl. lia.
  - destruct (y - inject_Z (Qfloor y) ?= 1 # 2); [destruct (Z.even _)| |]; lia.
Qed.

Lemma pow2_52 : inject_Z (2 ^ 52) == 2 ^ 52.
Proof. reflexivity. Qed.

Lemma roundPositive_idempotent q :
  0 < q -> roundPositive (roundPositive q) == roundPositive q.
Proof.
  intros Hq. destruct (exponent_spec q Hq) as [H1 H2].
  set (e := exponent q) in *.
  set (y := q * 2 ^ (52 - e)).
  assert (Hy1 : inject_Z (2 ^ 52) <= y).
  { unfold y. rewrite inject_Z_pow2 by lia.
    replace 52%Z with (e + (52 - e))%Z at 1 by lia.
    rewrite Qpower_plus by discriminate.
    apply Qmult_le_r; [apply pow2_pos | exact H1]. }
  assert (Hy2 : y <= inject_Z (2 ^ 53)).
  { unfold y. rewrite inject_Z_pow2 by lia.
    replace 53%Z with (e + 1 + (52 - e))%Z at 1 by lia.
    rewrite Qpower_plus by discriminate.
    apply Qlt_le_weak. apply Qmult_lt_r; [apply pow2_pos | exact H2]. }
  pose proof (roundHalfEven_lower _ _ Hy1) as Hm1.
  pose proof (roundHalfEven_upper _ _ Hy2) as Hm2.
  set (m := roundHalfEven y) in *.
  assert (Hr : roundPositive q = inject_Z m * 2 ^ (e - 52)) by reflexivity.
  rewrite Hr.
  assert (Hm0 : 0 < inject_Z m).
  { change 0 with (inject_Z 0). rewrite <- Zlt_Qlt.
    assert (0 < 2 ^ 52)%Z by reflexivity. lia. }
  assert (Hpos : 0 < inject_Z m * 2 ^ (e - 52)).
  { apply Qmult_lt_0_compat; [exact Hm0 | apply pow2_pos]. }
  destruct (Z.eq_dec m (2 ^ 53)%Z) as [E|E].
  - assert (Ex : exponent (inject_Z m * 2 ^ (e - 52)) = (e + 1)%Z).
    { apply exponent_unique.
      - rewrite E, inject_Z_pow2 by lia. rewrite <- Qpower_plus by discriminate.
        replace (53 + (e - 52))%Z with (e + 1)%Z by lia. apply Qle_refl.
      - rewrite E, inject_Z_pow2 by lia. rewrite <- Qpower_plus by discriminate.
        apply Qpower_lt_compat_l; [lia | reflexivity]. }
    unfold roundPositive at 1. rewrite Ex.
    rewrite (roundHalfEven_proper _ (inject_Z (2 ^ 52))).
    + rewrite roundHalfEven_Z, E. rewrite !inject_Z_pow2 by lia.
      rewrite <- !Qpower_plus by discriminate.
      replace (52 + (e + 1 - 52))%Z with (53 + (e - 52))%Z by lia. reflexivity.
    + rewrite E, !inject_Z_pow2 by lia.
      rewrite <- !Qpower_plus by discriminate.
      replace (53 + (e - 52) + (52 - (e + 1)))%Z with 52%Z by lia. reflexivity.
  - assert (Ex : exponent (inject_Z m * 2 ^ (e - 52)) = e).
    { apply exponent_unique.
      - replace e with (52 + (e - 52))%Z at 1 by lia.
        rewrite Qpower_plus by discriminate.
        apply Qmult_le_r; [apply pow2_pos|].
        rewrite <- inject_Z_pow2 by lia. rewrite <- Zle_Qle. exact Hm1.
      - replace (e + 1)%Z with (53 + (e - 52))%Z by lia.
        rewrite Qpower_plus by discriminate.
        apply Qmult_lt_r; [apply pow2_pos|].
        rewrite <- inject_Z_pow2 by lia. rewrite <- Zlt_Qlt. lia. }
    unfold roundPositive at 1. rewrite Ex.
    rewrite (roundHalfEven_proper _ (inject_Z m)).
    + rewrite roundHalfEven_Z. reflexivity.
    + rewrite <- Qmult_assoc, <- Qpower_plus by discriminate.
      replace (e - 52 + (52 - e))%Z with 0%Z by lia.
      change (2 ^ 0) with 1. ring.
Qed.

Lemma roundPositive_pos q : 0 < q -> 0 < roundPositive q.
Proof.
  intros Hq. destruct (exponent_spec q Hq) as [H1 H2].
  unfold roundPositive.
  apply Qmult_lt_0_compat; [|apply pow2_pos].
  change 0 with (inject_Z 0). rewrite <- Zlt_Qlt.
  assert (2 ^ 52 <= roundHalfEven (q * 2 ^ (52 - exponent q)))%Z.
  { apply roundHalfEven_lower. rewrite inject_Z_pow2 by lia.
    replace 52%Z with (exponent q + (52 - exponent q))%Z at 1 by lia.
    rewrite Qpower_plus by discriminate.
    apply Qmult_le_r; [apply pow2_pos | exact H1]. }
  assert (0 < 2 ^ 52)%Z by reflexivity. lia.
Qed.

Lemma float64_eq p q : float64 p == float64 q -> float64 p = float64 q.
Proof.
  unfold float64.
  set (x := match Qnum (Qred p) with
            | Z0 => 0 | Zpos _ => roundPositive (Qred p)
            | Zneg _ => - roundPositive (- Qred p) end).
  set (y := match Qnum (Qred q) with
            | Z0 => 0 | Zpos _ => roundPositive (Qred q)
            | Zneg _ => - roundPositive (- Qred q) end).
  intros E. apply Qred_complete. rewrite <- (Qred_correct x), <- (Qred_correct y).
  exact E.
Qed.

(** A double is its own double. *)
Lemma float64_idempotent q : float64 (float64 q) = float64 q.
Proof.
  assert (float64 (float64 q) == float64 q) as E.
  { destruct (Q_dec q 0) as [[H|H]|H].
    - assert (0 < roundPositive (- q)) as Hp by (apply roundPositive_pos; lra).
      rewrite (float64_proper _ _ (float64_neg q H)).
      rewrite float64_neg by lra. rewrite (float64_neg q H).
      apply Qopp_comp.
      rewrite (roundPositive_proper (- - roundPositive (- q)) (roundPositive (- q)))
        by (try ring; lra).
      apply roundPositive_idempotent. lra.
    - rewrite (float64_proper _ _ (float64_pos q H)).
      rewrite float64_pos by (apply roundPositive_pos; exact H).
      rewrite (float64_pos q H). apply roundPositive_idempotent. exact H.
    - rewrite (float64_zero q H). reflexivity. }
  apply float64_eq. exact E.
Qed.

Lemma roundPositive_Z m :
  (0 < m < 2 ^ 53)%Z -> roundPositive (inject_Z m) == inject_Z m.
Proof.
  intros Hm.
  destruct (Z.log2_spec m ltac:(lia)) as [L1 L2].
  pose proof (Z.log2_nonneg m) as L0.
  set (e := Z.log2 m) in *.
  assert (e < 53)%Z as He.
  { apply (Z.pow_lt_mono_r_iff 2); lia. }
  assert (Ex : exponent (inject_Z m) = e).
  { apply exponent_unique.
    - rewrite <- inject_Z_pow2 by lia. rewrite <- Zle_Qle. exact L1.
    - rewrite <- inject_Z_pow2 by lia. rewrite <- Zlt_Qlt.
      replace (e + 1)%Z with (Z.succ e) by lia. exact L2. }
  unfold roundPositive. rewrite Ex.
  rewrite (roundHalfEven_proper _ (inject_Z (m * 2 ^ (52 - e)))).
  - rewrite roundHalfEven_Z, inject_Z_mult, inject_Z_pow2 by lia.
    rewrite <- Qmult_assoc, <- Qpower_plus by discriminate.
    replace (52 - e + (e - 52))%Z with 0%Z by lia.
    change (2 ^ 0) with 1. ring.
  - rewrite inject_Z_mult, inject_Z_pow2 by lia. reflexivity.
Qed.

(** A whole number below [2 ^ 53] is a float. *)
Lemma float64_Z m : (Z.abs m < 2 ^ 53)%Z -> float64 (inject_Z m) == inject_Z m.
Proof.
  intros Hm. destruct (Z.lt_trichotomy m 0) as [H|[H|H]].
  - rewrite float64_neg by (change 0 with (inject_Z 0); rewrite <- Zlt_Qlt; exact H).
    rewrite (roundPositive_proper (- inject_Z m) (inject_Z (- m))).
    + rewrite roundPositive_Z by lia. rewrite inject_Z_opp. ring.
    + change 0 with (inject_Z 0). rewrite <- inject_Z_opp, <- Zlt_Qlt. lia.
    + rewrite inject_Z_opp. reflexivity.
  - subst m. reflexivity.
  - rewrite float64_pos by (change 0 with (inject_Z 0); rewrite <- Zlt_Qlt; exact H).
    apply roundPositive_Z. lia.
Qed.

(** Python's [9.0 / Fraction(9, 14)] is [13.999999999999998], and
    [Fraction(1, 3) - 0.0] is below a third. *)
Example Python_arithmetic_rounds :
  Python.truediv (PyFloat 9) (PyFraction (9 # 14))
  = PyFloat (7881299347898367 # 562949953421312)
  /\ Python.sub (PyFraction (1 # 3)) (PyFloat 0)
     = PyFloat (6004799503160661 # 18014398509481984).
Proof. split; vm_compute; reflexivity. Qed.

Lemma value_offsetQL q : value (offsetQL q) = q.
Proof. unfold offsetQL. destruct (Qeq_bool (float64 q) q); reflexivity. Qed.

Lemma float_offsetQL q : Python.float (offsetQL q) == float64 q.
Proof.
  unfold offsetQL. destruct (Qeq_bool (float64 q) q) eqn:E; [|reflexivity].
  apply Qeq_bool_iff in E. simpl. symmetry. exact E.
Qed.

Lemma float64_quarter q : float64 (q / 4) == float64 q / 4.
Proof.
  rewrite (float64_proper (q / 4) (q / 2 / 2)) by field.
  rewrite !float64_half. field.
Qed.

(** Dividing what [duration.quarterLength] hands out by two or by four
    is exact, whether it is a float or a fraction. *)
Lemma truedivInt_offsetQL q :
  value (Python.truedivInt (offsetQL q) 2) == q / 2
  /\ value (Python.truedivInt (offsetQL q) 4) == q / 4.
Proof.
  unfold offsetQL. destruct (Qeq_bool (float64 q) q) eqn:E; simpl.
  - apply Qeq_bool_iff in E.
    change (inject_Z 2) with 2. change (inject_Z 4) with 4.
    rewrite float64_half, float64_quarter, E. split; reflexivity.
  - split; reflexivity.
Qed.

End Rounding.

(** ** The pitch model on the examples of the docstrings *)

Example transpose_C4_M2 :
  interval.transposePitch interval.M2 C4 = mkPitch sD 4 None.
Proof. reflexivity. Qed.

Example transpose_C4_m_2 :
  interval.transposePitch interval.m_2 C4 = B3.
Proof. reflexivity. Qed.

Example transpose_B3_M2 :
  interval.transposePitch interval.M2 B3
  = mkPitch sC 4 (Some (mkAccidental 1 None)).
Proof. reflexivity. Qed.

Example between_C4_B3 : interval.between C4 B3 = interval.m_2.
Proof. reflexivity. Qed.

(** [InvertedMordent().getSize(note.Note('B3'))] is a minor second up, and
    with a sharp a major second up, as the class docstring has it. *)
Example InvertedMordent_getSize_B3 :
  GeneralMordent.getSize (mkMordent InvertedMordent_ "" (1 # 8) true)
    (mkNote (Some B3) 1 [] None) None = Ok interval.m2
  /\ GeneralMordent.getSize (mkMordent InvertedMordent_ "sharp" (1 # 8) true)
       (mkNote (Some B3) 1 [] None) None = Ok interval.M2.
Proof. split; reflexivity. Qed.

(* ===================================================================== *)
(** ** Turn.delay *)
(* ===================================================================== *)


Lemma set_delay_positive t d : delayPositive (turn_delay (Turn.set_delay t d)).
Proof.
  unfold Turn.set_delay. destruct d as [e|q]; simpl; [exact I|].
  destruct (Qle_bool q 0) eqn:E; simpl; [exact I|].
  apply Qnot_le_lt. intros H. apply Qle_bool_iff in H. congruence.
Qed.

Lemma reachable_delay_positive t : TurnReachable t -> delayPositive (turn_delay t).
Proof.
  induction 1 as [c d u l|t d _ _|t s _ IH|t s _ IH|t q _ IH|t b _ IH];
    try exact IH; apply set_delay_positive.
Qed.




(* ===================================================================== *)
(** ** Configuration errors *)
(* ===================================================================== *)

Lemma set_numberOfMarks_out_of_range t num :
  (num < 0 \/ 8 < num)%Z ->
  Tremolo.set_numberOfMarks t num
  = Raise (TremoloException "Number of marks must be a number from 0 to 8").
Proof.
  intros H. unfold Tremolo.set_numberOfMarks.
  destruct (num <? 0)%Z eqn:E1; [reflexivity|].
  destruct (8 <? num)%Z eqn:E2; [reflexivity|].
  apply Z.ltb_ge in E1, E2. lia.
Qed.

Lemma set_numberOfMarks_in_range t num :
  (0 <= num <= 8)%Z ->
  Tremolo.set_numberOfMarks t num
  = Ok (mkTremolo (measured t) num (tremolo_autoScale t)).
Proof.
  intros H. unfold Tremolo.set_numberOfMarks.
  destruct (num <? 0)%Z eqn:E1; [apply Z.ltb_lt in E1; lia|].
  destruct (8 <? num)%Z eqn:E2; [apply Z.ltb_lt in E2; lia|].
  reflexivity.
Qed.

Lemma Mordent_set_invalid_accidentalName m name :
  GeneralMordent.isFixedStep (mordentClass m) = false ->
  nonEmpty name && isValidAccidentalName name = false ->
  GeneralMordent.set_accidentalName m name
  = Ok (mkMordent (mordentClass m) "" (mordent_quarterLength m)
          (mordent_autoScale m)).
Proof.
  intros Hc Hn. unfold GeneralMordent.set_accidentalName.
  rewrite Hc, Hn. reflexivity.
Qed.

Lemma Trill_set_invalid_accidentalName t name :
  Trill.isFixedStep (trillClass t) = false ->
  nonEmpty name && isValidAccidentalName name = false ->
  Trill.set_accidentalName t name
  = Ok (mkTrill (trillClass t) "" (nachschlag t) (trill_quarterLength t)
          (trill_autoScale t)).
Proof.
  intros Hc Hn. unfold Trill.set_accidentalName.
  rewrite Hc, Hn. reflexivity.
Qed.

(** C6, as the code has it. A tremolo mark count outside 0..8 raises when
    it is assigned, and one inside is stored as it is; an invalid numbering
    of a rehearsal mark and an invalid arpeggio type raise when the object
    is built. An invalid accidental name is no error for a mordent, a
    trill or a turn: the assignment returns and the stored name is reset
    to the empty string. Only the fixed-step mordents and trills raise,
    and they do so for every name. *)
Theorem configuration_errors (name : string) (num : Z) :
  ((num < 0 \/ 8 < num)%Z ->
   forall t, Tremolo.set_numberOfMarks t num
     = Raise (TremoloException "Number of marks must be a number from 0 to 8"))
  /\ ((0 <= num <= 8)%Z ->
      forall t, Tremolo.set_numberOfMarks t num
        = Ok (mkTremolo (measured t) num (tremolo_autoScale t)))
  /\ (String.eqb name "alphabetical" || String.eqb name "roman"
      || String.eqb name "number" = false ->
      forall c, isDomainError (RehearsalMark.init c (Some name)) = true)
  /\ (nonEmpty name = true -> ArpeggioMark.validType name = false ->
      isOk (ArpeggioMark.init (Some name)) = false
      /\ isOk (ArpeggioMarkSpanner.init name) = false)
  /\ (nonEmpty name && isValidAccidentalName name = false ->
      (forall m, GeneralMordent.isFixedStep (mordentClass m) = false ->
         GeneralMordent.set_accidentalName m name
         = Ok (mkMordent (mordentClass m) "" (mordent_quarterLength m)
                 (mordent_autoScale m)))
      /\ (forall t, Trill.isFixedStep (trillClass t) = false ->
            Trill.set_accidentalName t name
            = Ok (mkTrill (trillClass t) "" (nachschlag t)
                    (trill_quarterLength t) (trill_autoScale t)))
      /\ (forall t, turn_upperAccidentalName (Turn.set_upperAccidentalName t name) = ""
                    /\ turn_lowerAccidentalName (Turn.set_lowerAccidentalName t name) = ""))
  /\ (forall m, GeneralMordent.isFixedStep (mordentClass m) = true ->
        isDomainError (GeneralMordent.set_accidentalName m name) = true)
  /\ (forall t, Trill.isFixedStep (trillClass t) = true ->
        isDomainError (Trill.set_accidentalName t name) = true).
Proof.
  repeat split.
  - intros H t. apply set_numberOfMarks_out_of_range, H.
  - intros H t. apply set_numberOfMarks_in_range, H.
  - intros H c. unfold RehearsalMark.init. rewrite H. reflexivity.
  - unfold ArpeggioMark.init. rewrite H, H0. reflexivity.
  - unfold ArpeggioMarkSpanner.init. rewrite H0. reflexivity.
  - intros m Hm. apply Mordent_set_invalid_accidentalName; assumption.
  - intros t Ht. apply Trill_set_invalid_accidentalName; assumption.
  - unfold Turn.set_upperAccidentalName, Turn.validName. simpl. rewrite H. reflexivity.
  - unfold Turn.set_lowerAccidentalName, Turn.validName. simpl. rewrite H. reflexivity.
  - intros m Hm. unfold GeneralMordent.set_accidentalName. rewrite Hm. reflexivity.
  - intros t Ht. unfold Trill.set_accidentalName. rewrite Ht. reflexivity.
Qed.

Lemma configuration_errors_witness :
  Tremolo.set_numberOfMarks Tremolo.init 9
  = Raise (TremoloException "Number of marks must be a number from 0 to 8")
  /\ Tremolo.set_numberOfMarks Tremolo.init 5 = Ok (mkTremolo true 5 true)
  /\ isDomainError (RehearsalMark.init "B" (Some "bogus")) = true
  /\ isOk (ArpeggioMark.init (Some "bogus")) = false
  /\ Trill.set_accidentalName (mkTrill Trill_ "sharp" false (PyFloat (1 # 8)) true) "bogus"
     = Ok (mkTrill Trill_ "" false (PyFloat (1 # 8)) true).
Proof.
  pose proof (configuration_errors "bogus" 9) as H9.
  pose proof (configuration_errors "bogus" 5) as H5.
  destruct H9 as (Hout & _ & Hnum & Harp & Hacc & _).
  destruct H5 as (_ & Hin & _).
  split; [|split; [|split; [|split]]].
  - apply Hout. right. reflexivity.
  - apply (Hin ltac:(split; discriminate) Tremolo.init).
  - apply Hnum. reflexivity.
  - apply Harp; reflexivity.
  - apply (proj1 (proj2 (Hacc eq_refl)) (mkTrill Trill_ "sharp" false (PyFloat (1 # 8)) true)).
    reflexivity.
Defined.

(** C6 as it is stated fails. ['bogus'] is no accidental name, and
    assigning it to a mordent or a trill that holds ['sharp'] raises
    nothing: the setter returns, and the stored name is now empty. *)
Lemma invalid_accidentalName_does_not_raise :
  isValidAccidentalName "bogus" = false
  /\ GeneralMordent.set_accidentalName (mkMordent Mordent_ "sharp" (1 # 8) true) "bogus"
     = Ok (mkMordent Mordent_ "" (1 # 8) true)
  /\ Trill.set_accidentalName (mkTrill Trill_ "sharp" false (PyFloat (1 # 8)) true) "bogus"
     = Ok (mkTrill Trill_ "" false (PyFloat (1 # 8)) true).
Proof. repeat split. Qed.

(* ===================================================================== *)
(** ** getSize of a mordent on C4 *)
(* ===================================================================== *)

(** C8, for the class the result belongs to. [Mordent().getSize] of a C4
    without accidental under a key signature without sharps or flats is a
    minor second down, and with [accidentalName='flat'] a major second
    down. *)
Theorem Mordent_getSize_C4 :
  (exists m, GeneralMordent.init Mordent_ None = Ok m
     /\ GeneralMordent.getSize m (mkNote (Some C4) 1 [] None)
          (Some noSharpsOrFlats) = Ok interval.m_2)
  /\ (exists m, GeneralMordent.init Mordent_ (Some "flat") = Ok m
        /\ GeneralMordent.getSize m (mkNote (Some C4) 1 [] None)
             (Some noSharpsOrFlats) = Ok interval.M_2).
Proof. split; eexists; split; reflexivity. Qed.

(** C8 as it is stated fails: a [GeneralMordent()] has no direction, and
    its [getSize] raises on the C4. *)
Lemma GeneralMordent_getSize_C4_raises :
  exists m, GeneralMordent.init GeneralMordent_ None = Ok m
    /\ GeneralMordent.getSize m (mkNote (Some C4) 1 [] None)
         (Some noSharpsOrFlats)
       = Raise (ExpressionException
                  "Cannot compute mordent size if I do not know its direction").
Proof. eexists; split; reflexivity. Qed.

(* ===================================================================== *)
(** ** Events without duration *)
(* ===================================================================== *)

Lemma run_read (l : loc) (h : store Note) (o : Note) A (k : Note -> M Note A) :
  h !! l = Some o -> bind (read l) k h = k o h.
Proof. intros H. unfold bind, read. rewrite H. reflexivity. Qed.

Lemma Mordent_zero_duration m l ks inPlace h src :
  h !! l = Some src -> (quarterLength src == 0)%Q ->
  GeneralMordent.realize m l ks inPlace h
  = (h, Raise (if GeneralMordent.directionKnown m then noDuration
               else ExpressionException
                      "Cannot realize a mordent if I do not know its direction")).
Proof.
  intros Hl Hq. unfold GeneralMordent.realize. rewrite (run_read _ _ _ _ _ Hl).
  destruct (GeneralMordent.directionKnown m); simpl; [|reflexivity].
  apply Qeq_bool_iff in Hq. rewrite Hq. reflexivity.
Qed.

Lemma Trill_zero_duration t l ks inPlace h src :
  h !! l = Some src -> (quarterLength src == 0)%Q ->
  Trill.realize t l ks inPlace h
  = (h, Raise (if bool_decide (pitch src <> None) then noDuration
               else TypeError "Cannot realize trill with an unpitched srcObj")).
Proof.
  intros Hl Hq. unfold Trill.realize. rewrite (run_read _ _ _ _ _ Hl).
  destruct (pitch src) as [p|]; [|reflexivity].
  unfold Trill.effectiveQL. apply Qeq_bool_iff in Hq. rewrite Hq. reflexivity.
Qed.

Lemma Turn_zero_duration t l ks inPlace h src :
  h !! l = Some src -> (quarterLength src == 0)%Q ->
  Turn.realize t l ks inPlace h
  = (h, Raise (if bool_decide (pitch src <> None) then noDuration
               else TypeError "Cannot realize turn with Unpitched srcObj")).
Proof.
  intros Hl Hq. unfold Turn.realize. rewrite (run_read _ _ _ _ _ Hl).
  destruct (pitch src) as [p|]; [|reflexivity].
  simpl. apply Qeq_bool_iff in Hq. rewrite Hq. reflexivity.
Qed.

Lemma Appoggiatura_zero_duration a l ks inPlace h src :
  h !! l = Some src -> (quarterLength src == 0)%Q ->
  exists msg,
    GeneralAppoggiatura.realize a l ks inPlace h
    = (h, Raise (if GeneralAppoggiatura.directionKnown a
                    && bool_decide (size a <> None)
                 then noDuration else ExpressionException msg)).
Proof.
  intros Hl Hq. unfold GeneralAppoggiatura.realize.
  rewrite (run_read _ _ _ _ _ Hl).
  destruct (GeneralAppoggiatura.directionKnown a); simpl; [|eexists; reflexivity].
  destruct (size a) as [s|]; [|eexists; reflexivity].
  apply Qeq_bool_iff in Hq. rewrite Hq. exists "". reflexivity.
Qed.

(** C1, as the code has it. For a mordent, a trill, a turn and an
    appoggiatura, [realize] on an event of duration zero never returns
    normally and leaves the store as it was; it raises the domain error
    "Cannot steal time from an object with no duration" whenever the
    checks that come before the one on the duration pass. (An unpitched
    event makes a trill and a turn raise a type error first.) A tremolo
    makes no such check. *)
Theorem zero_duration_realize (e : Expression) (l : loc)
  (ks : option key.KeySignature) (inPlace : bool) (h : store Note) (src : Note) :
  h !! l = Some src -> (quarterLength src == 0)%Q -> stealsTime e = true ->
  fst (realize e l ks inPlace h) = h
  /\ isOk (snd (realize e l ks inPlace h)) = false
  /\ (reachesDurationCheck e src = true ->
      snd (realize e l ks inPlace h) = Raise noDuration).
Proof.
  intros Hl Hq He.
  destruct e as [m|t|t|a|t|c|c]; try discriminate He;
    unfold realize, reachesDurationCheck.
  - rewrite (Mordent_zero_duration m l ks inPlace h src Hl Hq).
    split; [reflexivity|]. split; [reflexivity|].
    intros Hr. rewrite Hr. reflexivity.
  - rewrite (Trill_zero_duration t l ks inPlace h src Hl Hq).
    split; [reflexivity|]. split; [reflexivity|].
    intros Hr. rewrite Hr. reflexivity.
  - rewrite (Turn_zero_duration t l ks inPlace h src Hl Hq).
    split; [reflexivity|]. split; [reflexivity|].
    intros Hr. rewrite Hr. reflexivity.
  - destruct (Appoggiatura_zero_duration a l ks inPlace h src Hl Hq) as [msg ->].
    split; [reflexivity|]. split; [reflexivity|].
    intros Hr. rewrite Hr. reflexivity.
Qed.

Lemma zero_duration_realize_witness :
  let m := mkMordent Mordent_ "" (1 # 8) true in
  let h := [mkNote (Some C4) 0 [EMordent m] None] in
  fst (realize (EMordent m) 0%nat None false h) = h
  /\ isOk (snd (realize (EMordent m) 0%nat None false h)) = false
  /\ snd (realize (EMordent m) 0%nat None false h) = Raise noDuration.
Proof.
  intros m h.
  destruct (zero_duration_realize (EMordent m) 0%nat None false h
              (mkNote (Some C4) 0 [EMordent m] None))
    as (H1 & H2 & H3); [reflexivity | reflexivity | reflexivity |].
  split; [exact H1|]. split; [exact H2|]. apply H3. reflexivity.
Defined.

(** C1 as it is stated fails for the tremolo: [Tremolo().realize] on a C4
    of duration zero returns normally, with a copy of the event, the
    tremolo removed from it, as the only sub-note. *)
Lemma Tremolo_realize_zero_duration_returns :
  let t := Tremolo.init in
  let n := mkNote (Some C4) 0 [ETremolo t] None in
  realize (ETremolo t) 0%nat None false [n]
  = ([n; mkNote (Some C4) 0 [] None], Ok ([1%nat], None, [])).
Proof. reflexivity. Qed.

(* ===================================================================== *)
(** ** The key signature that is passed *)
(* ===================================================================== *)

(** C4 at an input where the code departs from it. A turn on an E4 that
    stands in a context of one sharp is realized with a key signature
    without sharps passed. [getSize] follows the key signature passed: the
    upper note is a minor second above, an F. The first turn note however
    comes out as F sharp: its accidental is taken from the context. *)
Theorem Turn_realize_accidental_from_context :
  let t := Turn.init Turn_ (DelayEnum NO_DELAY) "" "" in
  let src := mkNote (Some E4) 1 [ETurn t] (Some oneSharp) in
  let run := Turn.realize t 0%nat (Some noSharpsOrFlats) false [src] in
  Turn.getSize t src (Some noSharpsOrFlats) "upper" = Ok interval.m2
  /\ key.accidentalByStep noSharpsOrFlats sF = None
  /\ snd run = Ok ([], None, [1; 2; 3; 4]%nat)
  /\ (pitch <$> (fst run !! 1%nat)) = Some (Some Fsharp4).
Proof. repeat split. Qed.

(** For contrast, a trill and a mordent at the same place follow the key
    signature passed. *)
Example Trill_realize_accidental_from_keySig :
  let t := mkTrill Trill_ "" false (PyFloat (1 # 2)) true in
  let src := mkNote (Some E4) 1 [ETrill t] (Some oneSharp) in
  let run := Trill.realize t 0%nat (Some noSharpsOrFlats) false [src] in
  snd run = Ok ([1; 2]%nat, None, [])
  /\ (pitch <$> (fst run !! 2%nat)) = Some (Some (mkPitch sF 4 None)).
Proof. repeat split. Qed.

(* ===================================================================== *)
(** ** Reasoning about runs in the store *)
(* ===================================================================== *)

Section Runs.
Context {A B : Type}.

Lemma bind_Ok (m : M Note A) (k : A -> M Note B) h h' b :
  bind m k h = (h', Ok b) ->
  exists h1 a, m h = (h1, Ok a) /\ k a h1 = (h', Ok b).
Proof.
  unfold bind. destruct (m h) as [h1 [a|e]]; [eauto | discriminate].
Qed.

Lemma ret_Ok (a a' : A) (h h' : store Note) :
  ret a h = (h', Ok a') -> h' = h /\ a' = a.
Proof. unfold ret. intros [= -> ->]. auto. Qed.

Lemma liftR_Ok (r : Result A) (h h' : store Note) a :
  liftR r h = (h', Ok a) -> h' = h /\ r = Ok a.
Proof. destruct r; simpl; unfold ret, raise; intros [= -> ->]; auto. Qed.

End Runs.

Lemma read_Ok (l : loc) (h h' : store Note) o :
  read l h = (h', Ok o) -> h' = h /\ h !! l = Some o.
Proof.
  unfold read. destruct (h !! l); [intros [= -> ->]; auto | discriminate].
Qed.

Lemma modify_Ok (l : loc) f (h h' : store Note) u :
  modify l f h = (h', Ok u) ->
  exists o, h !! l = Some o /\ h' = <[l := f o]> h.
Proof.
  unfold modify. destruct (h !! l) as [o|]; [intros [= <- _]; eauto | discriminate].
Qed.

Lemma deepcopy_Ok (l l' : loc) (h h' : store Note) :
  deepcopy l h = (h', Ok l') ->
  exists o, h !! l = Some o /\ h' = h ++ [o] /\ l' = length h.
Proof.
  unfold deepcopy. intros H. apply bind_Ok in H as (h1 & o & H1 & H2).
  apply read_Ok in H1 as [-> H1]. unfold alloc in H2.
  injection H2 as <- <-. eauto.
Qed.

Lemma durationAt_qls h l : durationAt h l = qls h !! l.
Proof. unfold durationAt, qls. symmetry. apply list_lookup_fmap. Qed.

Lemma length_qls h : length (qls h) = length h.
Proof. apply length_fmap. Qed.

Lemma qls_app h t : qls (h ++ t) = qls h ++ qls t.
Proof. apply fmap_app. Qed.

Lemma qls_lookup h l o : h !! l = Some o -> qls h !! l = Some (quarterLength o).
Proof. intros H. unfold qls. rewrite list_lookup_fmap, H. reflexivity. Qed.

(** An assignment that leaves the duration alone leaves [qls] alone. *)
Lemma qls_modify_same l f (h h' : store Note) u :
  (forall o, quarterLength (f o) = quarterLength o) ->
  modify l f h = (h', Ok u) -> qls h' = qls h.
Proof.
  intros Hf H. apply modify_Ok in H as (o & Ho & ->).
  unfold qls. rewrite list_fmap_insert, Hf.
  apply list_insert_id. rewrite list_lookup_fmap, Ho. reflexivity.
Qed.

Lemma qls_setQuarterLength l q (h h' : store Note) u :
  setQuarterLength l q h = (h', Ok u) ->
  l < length h /\ qls h' = <[l := Qred q]> (qls h).
Proof.
  intros H. apply modify_Ok in H as (o & Ho & ->). split.
  - eapply lookup_lt_Some, Ho.
  - unfold qls. rewrite list_fmap_insert. reflexivity.
Qed.

Lemma qls_setExpressions l es (h h' : store Note) u :
  setExpressions l es h = (h', Ok u) -> qls h' = qls h.
Proof. apply qls_modify_same. reflexivity. Qed.

Lemma qls_popExpression l i (h h' : store Note) u :
  popExpression l i h = (h', Ok u) -> qls h' = qls h.
Proof. apply qls_modify_same. reflexivity. Qed.

Lemma qls_removeExpression l x (h h' : store Note) u :
  removeExpression l x h = (h', Ok u) -> qls h' = qls h.
Proof. apply qls_modify_same. reflexivity. Qed.

Lemma qls_transpose l i (h h' : store Note) u :
  transpose l i h = (h', Ok u) -> qls h' = qls h.
Proof.
  unfold transpose. intros H. apply bind_Ok in H as (h1 & o & H1 & H2).
  apply read_Ok in H1 as [-> H1].
  destruct (pitch o); [|discriminate].
  eapply qls_modify_same, H2. reflexivity.
Qed.

Lemma qls_setAccidental l a (h h' : store Note) u :
  setAccidental l a h = (h', Ok u) -> qls h' = qls h.
Proof.
  unfold setAccidental. intros H. apply bind_Ok in H as (h1 & o & H1 & H2).
  apply read_Ok in H1 as [-> H1].
  destruct (pitch o); [|discriminate].
  eapply qls_modify_same, H2. reflexivity.
Qed.

Lemma qls_deepcopy l l' (h h' : store Note) :
  deepcopy l h = (h', Ok l') ->
  exists q, qls h !! l = Some q /\ qls h' = qls h ++ [q] /\ l' = length h.
Proof.
  intros H. apply deepcopy_Ok in H as (o & Ho & -> & ->).
  exists (quarterLength o). split; [apply qls_lookup, Ho|].
  split; [apply qls_app | reflexivity].
Qed.

Lemma qls_forEach {X} (xs : list X) (body : X -> M Note unit) h h' u :
  (forall x h1 h2 u', body x h1 = (h2, Ok u') -> qls h2 = qls h1) ->
  forEach xs body h = (h', Ok u) -> qls h' = qls h.
Proof.
  intros Hbody. revert h. induction xs as [|x xs IH]; intros h H; simpl in H.
  - apply ret_Ok in H as [-> _]. reflexivity.
  - apply bind_Ok in H as (h1 & a & H1 & H2).
    rewrite (IH _ H2). eapply Hbody, H1.
Qed.

(** Taking the binds of a successful run apart *)
Tactic Notation "inv_bind" hyp(H) :=
  let h1 := fresh "h" in
  let a := fresh "a" in
  let H1 := fresh "R" in
  apply bind_Ok in H as (h1 & a & H1 & H).

Tactic Notation "inv_bind" hyp(H) "as" ident(h1) ident(a) ident(R) :=
  apply bind_Ok in H as (h1 & a & R & H).

Ltac inv_read H :=
  let E := fresh "E" in
  apply read_Ok in H as [-> E].

Lemma snoc_insert {X} (l : list X) n x y :
  n = length l -> <[n := x]> (l ++ [y]) = l ++ [x].
Proof.
  intros ->. rewrite insert_app_r_alt by lia.
  rewrite Nat.sub_diag. reflexivity.
Qed.

(** A copy of the event at [l] whose duration is then set: the store has
    one more duration. *)
Lemma qls_copy_set (h h1 h2 h3 : store Note) l l1 q u :
  deepcopy l h = (h1, Ok l1) -> qls h2 = qls h1 ->
  setQuarterLength l1 q h2 = (h3, Ok u) ->
  l < length h /\ l1 = length h /\ qls h3 = qls h ++ [Qred q].
Proof.
  intros Hc H12 Hs.
  apply qls_deepcopy in Hc as (q0 & Hq0 & Hc & ->).
  apply qls_setQuarterLength in Hs as [_ Hs].
  split; [|split; [reflexivity|]].
  - apply lookup_lt_Some in Hq0. rewrite length_qls in Hq0. exact Hq0.
  - rewrite Hs, H12, Hc. apply snoc_insert. symmetry. apply length_qls.
Qed.

Lemma length_of_qls (h h' : store Note) t :
  qls h' = qls h ++ t -> length h' = length h + length t.
Proof.
  intros H. rewrite <- (length_qls h'), H, length_app, length_qls. reflexivity.
Qed.

Lemma fillListOfRealizedNotes_Ok ql l acc i q (h h' : store Note) acc' :
  Ornament.fillListOfRealizedNotes ql l acc i (Some q) h = (h', Ok acc') ->
  l < length h
  /\ qls h' = qls h ++ [Qred q; Qred q]
  /\ acc' = acc ++ [length h; S (length h)].
Proof.
  unfold Ornament.fillListOfRealizedNotes. intros H.
  inv_bind H. inv_read R. destruct (pitch a); [|discriminate].
  inv_bind H. inv_bind H.
  destruct (qls_copy_set _ _ _ _ _ _ _ _ R eq_refl R0) as (Hl & -> & Q1).
  inv_bind H. inv_bind H.
  destruct (qls_copy_set _ _ _ _ _ _ _ _ R1 eq_refl R2) as (_ & -> & Q2).
  inv_bind H. apply qls_transpose in R3. apply ret_Ok in H as [-> ->].
  split; [exact Hl|]. split.
  - rewrite R3, Q2, Q1, <- app_assoc. reflexivity.
  - rewrite (length_of_qls _ _ _ Q1). simpl. rewrite Nat.add_1_r. reflexivity.
Qed.

(* ===================================================================== *)
(** ** Durations of a realized mordent *)
(* ===================================================================== *)

Lemma qls_accidental_fix (cond : Pitch -> bool) (acc : Pitch -> option Accidental)
  (n : loc) (h1 h2 : store Note) u :
  (nObj <- read n ;;
   match pitch nObj with
   | None => raise (AttributeError "pitch")
   | Some p => if cond p then setAccidental n (acc p) else ret tt
   end) h1 = (h2, Ok u) ->
  qls h2 = qls h1.
Proof.
  intros H. inv_bind H. inv_read R.
  destruct (pitch a) as [p|]; [|discriminate].
  destruct (cond p).
  - eapply qls_setAccidental, H.
  - apply ret_Ok in H as [-> _]. reflexivity.
Qed.


Lemma lookup_app_plus {X} (l t : list X) n i x :
  n = length l -> t !! i = Some x -> (l ++ t) !! (n + i) = Some x.
Proof.
  intros -> H. rewrite lookup_app_r by lia. rewrite <- H. f_equal. lia.
Qed.





(* ===================================================================== *)
(** ** Durations of a realized turn *)
(* ===================================================================== *)

(** [n <- deepcopy l ;; setExpressions n [] ;; setQuarterLength n q] *)
Ltac copy_step H Qn :=
  let hA := fresh "hc" in let lA := fresh "nc" in let RA := fresh "Rc" in
  let hB := fresh "hc" in let uB := fresh "uc" in let RB := fresh "Rc" in
  let hC := fresh "hc" in let uC := fresh "uc" in let RC := fresh "Rc" in
  apply bind_Ok in H as (hA & lA & RA & H);
  apply bind_Ok in H as (hB & uB & RB & H);
  apply bind_Ok in H as (hC & uC & RC & H);
  destruct (qls_copy_set _ _ _ _ _ _ _ _ RA (qls_setExpressions _ _ _ _ _ RB) RC)
    as (_ & -> & Qn);
  clear RA RB RC.

Ltac transpose_step H Qn :=
  let hA := fresh "ht" in let uA := fresh "ut" in let RA := fresh "Rt" in
  apply bind_Ok in H as (hA & uA & RA & H);
  apply qls_transpose in RA; rewrite Qn in RA; clear Qn; rename RA into Qn.

Lemma Turn_realize_Ok t l ks inPlace (h h' : store Note) src pre main post :
  h !! l = Some src ->
  Turn.realize t l ks inPlace h = (h', Ok (pre, main, post)) ->
  let rem := Turn.remainderDuration t (quarterLength src) in
  exists lengths,
    Turn.turnLengths t (Turn.turnDuration t (quarterLength src))
      (quarterLength src - rem)%Q = Ok lengths
    /\ pre = []
    /\ post = [length h; length h + 1; length h + 2; length h + 3]
    /\ let turnQLs := [Qred (fst lengths); Qred (fst lengths);
                       Qred (fst lengths); Qred (fourthQL lengths)] in
       if Qeq_bool rem 0 then main = None /\ qls h' = qls h ++ turnQLs
       else main = Some (if inPlace then l else length h + 4)
            /\ qls h' = (if inPlace then <[l := Qred rem]> (qls h ++ turnQLs)
                         else qls h ++ turnQLs ++ [Qred rem]).
Proof.
  intros Hl H rem. unfold Turn.realize in H.
  inv_bind H as h0 src0 R. inv_read R. rewrite Hl in E. injection E as <-.
  destruct (bool_decide (pitch src = None)); [discriminate|].
  destruct (Qeq_bool (quarterLength src) 0); [discriminate|].
  inv_bind H as h0 lengths R. apply liftR_Ok in R as [-> HL].
  fold rem in HL. exists lengths. split; [exact HL|].
  destruct lengths as [useQL fourthNoteQL].
  inv_bind H as h0 i1 R. apply liftR_Ok in R as [-> _].
  inv_bind H as h0 i2 R. apply liftR_Ok in R as [-> _].
  copy_step H Q1. transpose_step H Q1.
  copy_step H Q2. rewrite Q1, <- app_assoc in Q2. simpl app in Q2.
  copy_step H Q3. transpose_step H Q3. rewrite Q2, <- app_assoc in Q3. simpl app in Q3.
  copy_step H Q4. rewrite Q3, <- app_assoc in Q4. simpl app in Q4.
  pose proof (length_of_qls _ _ _ Q1) as L1.
  pose proof (length_of_qls _ _ _ Q2) as L2.
  pose proof (length_of_qls _ _ _ Q3) as L3.
  pose proof (length_of_qls _ _ _ Q4) as L4. simpl length in *.
  rewrite L1, L2, L3 in H.
  inv_bind H as hr src1 R. apply read_Ok in R as [<- E].
  inv_bind H as hf uf R.
  assert (qls hf = qls hr) as Q5.
  { eapply qls_forEach, R. intros [noteIdx n] s1 s2 u' Hb.
    eapply (qls_accidental_fix
              (fun p => bool_decide (accidental p = None)
                        && (Nat.eqb (S noteIdx) 1 || Nat.eqb (S noteIdx) 3))), Hb. }
  clear R. rewrite Q4 in Q5.
  assert (length hf = length h + 4) as L5.
  { rewrite <- (length_qls hf), Q5, length_app, length_qls. reflexivity. }
  fold rem in H. simpl fst. unfold fourthQL. simpl snd.
  destruct (Qeq_bool rem 0).
  - apply ret_Ok in H as [-> [= -> -> ->]]. auto.
  - inv_bind H as hm remainderNote R.
    destruct inPlace; simpl negb in R; cbv iota in R.
    + apply ret_Ok in R as [-> ->].
      inv_bind H as hq uq R. apply qls_setQuarterLength in R as [_ Q6].
      inv_bind H as hp up R.
      assert (qls hp = qls hq) as Q7.
      { destruct (index_of (ETurn t) (expressions src1)).
        - eapply qls_popExpression, R.
        - apply ret_Ok in R as [-> _]. reflexivity. }
      apply ret_Ok in H as [-> [= -> -> ->]].
      repeat split. rewrite Q7, Q6, Q5. reflexivity.
    + inv_bind H as hq uq R1.
      destruct (qls_copy_set _ _ _ _ _ _ _ _ R eq_refl R1) as (_ & -> & Q6).
      inv_bind H as hp up R2.
      assert (qls hp = qls hq) as Q7.
      { destruct (index_of (ETurn t) (expressions src1)).
        - eapply qls_popExpression, R2.
        - apply ret_Ok in R2 as [-> _]. reflexivity. }
      apply ret_Ok in H as [-> [= -> -> ->]].
      repeat split.
      * rewrite L5. reflexivity.
      * rewrite Q7, Q6, Q5, <- app_assoc. reflexivity.
Qed.

Lemma Qlt_bool_iff x y : Qlt_bool x y = true <-> (x < y)%Q.
Proof.
  unfold Qlt_bool. rewrite negb_true_iff. split.
  - intros H. apply Qnot_le_lt. intros Hle. apply Qle_bool_iff in Hle. congruence.
  - intros H. destruct (Qle_bool y x) eqn:E; [|reflexivity].
    apply Qle_bool_iff in E. apply Qlt_not_le in H. contradiction.
Qed.

Lemma Qlt_bool_false x y : Qlt_bool x y = false <-> (y <= x)%Q.
Proof.
  unfold Qlt_bool. rewrite negb_false_iff. apply Qle_bool_iff.
Qed.

Lemma Qdiv4 x : (x / 4 == x * (1 # 4))%Q.
Proof. reflexivity. Qed.

Lemma Qdiv2 x : (x / 2 == x * (1 # 2))%Q.
Proof. reflexivity. Qed.


(** The subtraction [srcObj.duration.quarterLength - remainderDuration]:
    exact for the default delay, whatever the duration is held as; with
    no delay, the float nearest to the duration; exact on two fractions. *)
Lemma offsetQL_float q : heldAsFloat q -> offsetQL q = PyFloat q.
Proof.
  unfold heldAsFloat, offsetQL. intros H. apply Qeq_bool_iff in H.
  rewrite H. reflexivity.
Qed.

Lemma offsetQL_fraction q : ~ heldAsFloat q -> offsetQL q = PyFraction q.
Proof.
  unfold heldAsFloat, offsetQL. intros H.
  destruct (Qeq_bool (float64 q) q) eqn:E; [|reflexivity].
  apply Qeq_bool_iff in E. contradiction.
Qed.

Lemma heldAsFloat_dec q : heldAsFloat q \/ ~ heldAsFloat q.
Proof.
  unfold heldAsFloat. destruct (Qeq_dec (float64 q) q); [left | right]; assumption.
Qed.

Lemma heldAsFloat_half q : heldAsFloat (Qred (q / 2)) <-> heldAsFloat q.
Proof.
  unfold heldAsFloat.
  rewrite (float64_proper (Qred (q / 2)) (q / 2)) by apply Qred_correct.
  rewrite Qred_correct, float64_half. pose proof (Qdiv2 q) as E1.
  pose proof (Qdiv2 (float64 q)) as E2. split; intros H; lra.
Qed.

Lemma value_remainder t q :
  value (Turn.remainder t q) = Turn.remainderDuration t q.
Proof.
  unfold Turn.remainder, Turn.remainderDuration.
  destruct (turn_delay t) as [[|]|d]; [reflexivity | apply value_offsetQL | reflexivity].
Qed.

Lemma turnDuration_default_delay t q :
  turn_delay t = DelayEnum DEFAULT_DELAY ->
  (Turn.turnDuration t q == q - Turn.remainderDuration t q)%Q.
Proof.
  intros Hd. unfold Turn.turnDuration, Turn.remainder, Turn.remainderDuration.
  rewrite Hd. unfold opFrac.
  destruct (heldAsFloat_dec q) as [Hq|Hq].
  - rewrite (offsetQL_float q Hq).
    rewrite (offsetQL_float _ (proj2 (heldAsFloat_half q) Hq)). simpl.
    rewrite (float64_proper (q - Qred (q / 2)) (q / 2))
      by (rewrite Qred_correct; field).
    unfold heldAsFloat in Hq. rewrite float64_half, Hq, Qred_correct. field.
  - rewrite (offsetQL_fraction q Hq).
    rewrite offsetQL_fraction by (rewrite heldAsFloat_half; exact Hq).
    reflexivity.
Qed.

Lemma turnDuration_no_delay t q :
  turn_delay t = DelayEnum NO_DELAY ->
  value (Turn.turnDuration t q) = float64 q.
Proof.
  intros Hd. unfold Turn.turnDuration, Turn.remainder. rewrite Hd.
  assert (Python.sub (offsetQL q) (PyFloat 0)
          = PyFloat (float64 (Python.float (offsetQL q) - 0))) as ->
      by (destruct (offsetQL q); reflexivity).
  simpl.
  rewrite (float64_proper (Python.float (offsetQL q) - 0) (float64 q)).
  - apply float64_idempotent.
  - rewrite float_offsetQL. ring.
Qed.




(** The sum can fail. An event of one quarter and a third of [2 ^ -60]
    holds its duration as a fraction; with no delay the code subtracts the
    float [0.0] from it, and the float nearest to the difference is [1.0],
    four times the quarter length of the turn. The four turn notes get a
    quarter of a quarter each and there is no main note: together they
    last one quarter, not the duration of the event. *)
Lemma Turn_rounded_duration_falls_short :
  let t := Turn.init Turn_ (DelayEnum NO_DELAY) "" "" in
  let d := (3458764513820540929 # 3458764513820540928)%Q in
  let src := mkNote (Some B4) d [ETurn t] (Some fiveSharps) in
  let run := Turn.realize t 0%nat None false [src] in
  offsetQL d = PyFraction d
  /\ Turn.turnDuration t d = PyFloat 1
  /\ snd run = Ok ([], None, [1; 2; 3; 4]%nat)
  /\ durationAt (fst run) 1%nat = Some (1 # 4)%Q
  /\ durationAt (fst run) 2%nat = Some (1 # 4)%Q
  /\ durationAt (fst run) 3%nat = Some (1 # 4)%Q
  /\ durationAt (fst run) 4%nat = Some (1 # 4)%Q
  /\ ~ ((1 # 4) + (1 # 4) + (1 # 4) + (1 # 4) == d)%Q.
Proof.
  repeat split; try (vm_compute; reflexivity).
  intros H. vm_compute in H. discriminate H.
Qed.


(* ===================================================================== *)
(** ** Durations of a realized trill *)
(* ===================================================================== *)

Lemma fill_loop_Ok ql l i q k : forall acc (h h' : store Note) acc',
  repeatM k (fun acc => Ornament.fillListOfRealizedNotes ql l acc i (Some q))
    acc h = (h', Ok acc') ->
  qls h' = qls h ++ repeat (Qred q) (2 * k)
  /\ acc' = acc ++ seq (length h) (2 * k).
Proof.
  induction k as [|k IH]; intros acc h h' acc' H; simpl repeatM in H.
  - apply ret_Ok in H as [-> ->]. simpl. rewrite !app_nil_r. auto.
  - inv_bind H as h1 acc1 R.
    apply fillListOfRealizedNotes_Ok in R as (_ & Q1 & ->).
    apply IH in H as [Q2 ->].
    pose proof (length_of_qls _ _ _ Q1) as L1. simpl length in L1.
    replace (2 * S k) with (S (S (2 * k))) by lia.
    split.
    + rewrite Q2, Q1, <- app_assoc. reflexivity.
    + rewrite <- app_assoc. simpl. do 3 f_equal.
      rewrite L1. f_equal. lia.
Qed.

Lemma qls_trill_accidentals (l : loc) (ks : key.KeySignature)
  (notes : list loc) (h h' : store Note) u :
  forEach notes (fun n =>
    nObj <- read n ;;
    src <- read l ;;
    match pitch nObj, pitch src with
    | Some p, Some sp =>
        if negb (sameNameWithOctave p sp) then
          if bool_decide (accidental p = None)
          then setAccidental n (key.accidentalByStep ks (step p))
          else ret tt
        else ret tt
    | _, _ => raise (AttributeError "pitch")
    end) h = (h', Ok u) ->
  qls h' = qls h.
Proof.
  apply qls_forEach. intros n h1 h2 u' H.
  inv_bind H as h3 nObj R. inv_read R.
  inv_bind H as h3 src R. inv_read R.
  destruct (pitch nObj) as [p|]; [|discriminate].
  destruct (pitch src) as [sp|]; [|discriminate].
  destruct (negb (sameNameWithOctave p sp)).
  - destruct (bool_decide (accidental p = None)).
    + eapply qls_setAccidental, H.
    + apply ret_Ok in H as [-> _]. reflexivity.
  - apply ret_Ok in H as [-> _]. reflexivity.
Qed.

Lemma Trill_realize_Ok t l ks inPlace (h h' : store Note) src pre main post :
  h !! l = Some src ->
  Trill.realize t l ks inPlace h = (h', Ok (pre, main, post)) ->
  exists useQL,
    Trill.effectiveQL t (quarterLength src) = Ok useQL
    /\ ~ (useQL == 0)%Q
    /\ main = None
    /\ let k := trillPairs t (quarterLength src) useQL in
       pre = seq (length h) (2 * k)
       /\ post = seq (length h + 2 * k) (nachschlagNotes t)
       /\ qls h' = qls h ++ repeat (Qred useQL) (2 * k + nachschlagNotes t).
Proof.
  intros Hl H. unfold Trill.realize in H.
  inv_bind H as h0 src0 R. inv_read R. rewrite Hl in E. injection E as <-.
  destruct (pitch src) as [srcPitch|]; [|discriminate].
  inv_bind H as h0 useQL R. apply liftR_Ok in R as [-> HQ].
  exists useQL. split; [exact HQ|].
  inv_bind H as h0 i R. apply liftR_Ok in R as [-> _].
  destruct (Qeq_bool useQL 0) eqn:E0; [discriminate|].
  split; [intros Hz; apply Qeq_bool_iff in Hz; congruence|].
  fold (trillQuotient (quarterLength src) useQL) in H.
  fold (trillPairs t (quarterLength src) useQL) in H.
  set (k := trillPairs t (quarterLength src) useQL) in *.
  inv_bind H as h1 trillNotes R.
  apply fill_loop_Ok in R as [Q1 ->]. rewrite app_nil_l in H.
  inv_bind H as h2 u R.
  assert (qls h2 = qls h1) as Q2.
  { destruct (Trill._setAccidentalFromKeySig t).
    - eapply qls_trill_accidentals, R.
    - apply ret_Ok in R as [-> _]. reflexivity. }
  clear R.
  inv_bind H as h3 src1 R. apply read_Ok in R as [<- E].
  inv_bind H as h4 u4 R.
  assert (qls h4 = qls h3) as Q3.
  { destruct (inPlace && isIn (ETrill t) (expressions src1)).
    - eapply qls_removeExpression, R.
    - apply ret_Ok in R as [-> _]. reflexivity. }
  clear R. rewrite Q2, Q1 in Q3.
  assert (length h4 = length h + 2 * k) as L4.
  { rewrite <- (length_qls h4), Q3, length_app, length_qls, repeat_length.
    reflexivity. }
  unfold nachschlagNotes. destruct (nachschlag t).
  - copy_step H Q5. copy_step H Q6. transpose_step H Q6.
    inv_bind H as h7 u7 R. 
    assert (qls h7 = qls ht) as Q7.
    { destruct (Trill._setAccidentalFromKeySig t).
      - inv_bind R as h8 n1 R1. inv_read R1.
        destruct (pitch n1) as [p1|]; [|discriminate].
        inv_bind R as h8 u8 R1. apply qls_setAccidental in R1.
        inv_bind R as h9 n2 R2. inv_read R2.
        destruct (pitch n2) as [p2|]; [|discriminate].
        apply qls_setAccidental in R. rewrite R, R1. reflexivity.
      - apply ret_Ok in R as [-> _]. reflexivity. }
    apply ret_Ok in H as [-> [= -> -> ->]].
    split; [reflexivity|]. cbv zeta. split; [reflexivity|].
    pose proof (length_of_qls _ _ _ Q5) as L5. simpl length in L5.
    split.
    + simpl. rewrite L5, L4. do 2 f_equal. lia.
    + rewrite Q7, Q6, Q5, Q3, <- !app_assoc. f_equal.
      rewrite repeat_app. reflexivity.
  - apply ret_Ok in H as [-> [= -> -> ->]].
    split; [reflexivity|]. cbv zeta. split; [reflexivity|].
    split; [reflexivity|]. rewrite Nat.add_0_r. exact Q3.
Qed.

Lemma int_inject_Z q z : (q == inject_Z z)%Q -> int q = z.
Proof.
  destruct q as [a b]. unfold Qeq, int. simpl. rewrite Z.mul_1_r.
  intros ->. apply Z.quot_mul. discriminate.
Qed.

Lemma int_floor q : (0 <= q)%Q -> int q = Qfloor q.
Proof.
  destruct q as [a b]. unfold Qle, int. simpl. rewrite Z.mul_1_r.
  intros Ha. apply Z.quot_div_nonneg; lia.
Qed.

Lemma effectiveQL_cases t d u :
  Trill.effectiveQL t d = Ok u ->
  ~ (d == 0)%Q
  /\ (nachschlag t = true -> (d < 4 * trill_quarterLength t)%Q ->
      u = Python.truedivInt (offsetQL d) 4)
  /\ ((nachschlag t = false \/ (4 * trill_quarterLength t <= d)%Q) ->
      ((d < 2 * trill_quarterLength t)%Q -> u = Python.truedivInt (offsetQL d) 2)
      /\ ((2 * trill_quarterLength t <= d)%Q -> u = trill_quarterLength t)).
Proof.
  unfold Trill.effectiveQL. intros H.
  destruct (Qeq_bool d 0) eqn:E0; [discriminate|].
  split; [intros Hz; apply Qeq_bool_iff in Hz; congruence|].
  destruct (Qlt_bool d (2 * trill_quarterLength t)) eqn:E2.
  - apply Qlt_bool_iff in E2.
    destruct (trill_autoScale t); [|discriminate]. simpl negb in H. cbv iota in H.
    destruct (Qlt_bool d (4 * trill_quarterLength t)) eqn:E4.
    + apply Qlt_bool_iff in E4. destruct (nachschlag t); simpl in H.
      * injection H as <-. split; [auto|]. intros [Hn|Hn]; [discriminate|lra].
      * injection H as <-. split; [discriminate|]. intros _.
        split; [auto|]. intros Hc. lra.
    + apply Qlt_bool_false in E4. simpl in H. injection H as <-.
      split; [intros _ Hc; lra|]. intros _. split; [auto|]. intros Hc. lra.
  - apply Qlt_bool_false in E2.
    destruct (Qlt_bool d (4 * trill_quarterLength t)) eqn:E4.
    + apply Qlt_bool_iff in E4. destruct (nachschlag t); simpl in H.
      * destruct (trill_autoScale t); [|discriminate]. injection H as <-.
        split; [auto|]. intros [Hn|Hn]; [discriminate|lra].
      * injection H as <-. split; [discriminate|]. intros _.
        split; [intros Hc; lra | auto].
    + apply Qlt_bool_false in E4. simpl in H. injection H as <-.
      split; [intros _ Hc; lra|]. intros _. split; [intros Hc; lra | auto].
Qed.

(** The quotient of the duration by a sub-note length that was scaled
    down to a half or a quarter of it is exact, on floats as on
    fractions. *)
Lemma scaled_quotient d (k : Z) :
  ~ (d == 0)%Q -> k = 2%Z \/ k = 4%Z ->
  (trillQuotient d (Python.truedivInt (offsetQL d) k)
   == d / Python.truedivInt (offsetQL d) k)%Q.
Proof.
  intros Hd Hk. unfold trillQuotient.
  destruct (truedivInt_offsetQL d) as [E2 E4].
  assert (Ev : (value (Python.truedivInt (offsetQL d) k) == d / inject_Z k)%Q).
  { destruct Hk as [-> | ->]; assumption. }
  assert (Hk0 : ~ (inject_Z k == 0)%Q) by (destruct Hk as [-> | ->]; discriminate).
  rewrite Ev. revert Ev. unfold offsetQL.
  destruct (Qeq_bool (float64 d) d); simpl; intros Ev.
  - rewrite (float64_proper _ (inject_Z k))
      by (rewrite Ev; field; split; assumption).
    transitivity (inject_Z k); [|field; split; assumption].
    destruct Hk as [-> | ->]; vm_compute; reflexivity.
  - reflexivity.
Qed.

(** The count of notes of a trill, alternation notes and nachschlag, when
    the quotient that Python holds is the exact one *)
Lemma trill_count_even_multiple t d (u : OffsetQL) (m : Z) :
  (trillQuotient d u == d / u)%Q ->
  ~ (u == 0)%Q -> (1 <= m)%Z -> (d == inject_Z (2 * m) * u)%Q ->
  Z.of_nat (2 * trillPairs t d u + nachschlagNotes t) = (2 * m)%Z.
Proof.
  intros Hx Hu Hm Hd. unfold trillPairs, nachschlagNotes.
  assert (int (trillQuotient d u) = (2 * m)%Z) as ->.
  { apply int_inject_Z. rewrite Hx, Hd. field. exact Hu. }
  destruct (nachschlag t).
  - replace (2 * m - 2)%Z with ((m - 1) * 2)%Z by lia.
    rewrite Z.quot_mul by discriminate. lia.
  - replace (2 * m)%Z with (m * 2)%Z by lia.
    rewrite Z.quot_mul by discriminate. lia.
Qed.

Lemma trill_count_bounds t d (u : OffsetQL) :
  (trillQuotient d u == d / u)%Q ->
  (0 < u)%Q ->
  (inject_Z (if nachschlag t then 4 else 2) * u <= d)%Q ->
  let N := inject_Z (Z.of_nat (2 * trillPairs t d u + nachschlagNotes t)) in
  (N * u <= d)%Q /\ (d < (N + 2) * u)%Q.
Proof.
  intros Hq Hu Hd N.
  set (x := value (trillQuotient d u)) in *.
  assert (Hx : (x * u == d)%Q) by (rewrite Hq; field; lra).
  assert (Hlow : (inject_Z (if nachschlag t then 4 else 2) <= x)%Q).
  { apply (Qmult_le_r _ _ u Hu). rewrite Hx. exact Hd. }
  assert (Hx0 : (0 <= x)%Q).
  { eapply Qle_trans; [|exact Hlow]. destruct (nachschlag t); discriminate. }
  pose proof (Qfloor_le x) as Hf1. pose proof (Qlt_floor x) as Hf2.
  assert (Hf3 : ((if nachschlag t then 4 else 2) <= Qfloor x)%Z).
  { rewrite <- (Qfloor_Z (if nachschlag t then 4 else 2)).
    apply Qfloor_resp_le, Hlow. }
  assert (HN : exists r : Z, (0 <= r <= 1)%Z
            /\ (Z.of_nat (2 * trillPairs t d u + nachschlagNotes t)%nat + r
                = Qfloor x)%Z).
  { unfold trillPairs, nachschlagNotes. fold x. rewrite (int_floor x Hx0).
    destruct (nachschlag t).
    - rewrite Z.quot_div_nonneg by lia.
      exists ((Qfloor x - 2) mod 2)%Z.
      pose proof (Z.mod_pos_bound (Qfloor x - 2) 2 ltac:(lia)).
      pose proof (Z.div_mod (Qfloor x - 2) 2 ltac:(lia)).
      pose proof (Z.div_pos (Qfloor x - 2) 2 ltac:(lia) ltac:(lia)). lia.
    - rewrite Z.quot_div_nonneg by lia.
      exists ((Qfloor x) mod 2)%Z.
      pose proof (Z.mod_pos_bound (Qfloor x) 2 ltac:(lia)).
      pose proof (Z.div_mod (Qfloor x) 2 ltac:(lia)).
      pose proof (Z.div_pos (Qfloor x) 2 ltac:(lia) ltac:(lia)). lia. }
  destruct HN as (r & Hr & HN).
  assert (HNx : (N <= x)%Q).
  { eapply Qle_trans; [|exact Hf1]. unfold N. rewrite <- Zle_Qle. lia. }
  assert (HxN : (x < N + 2)%Q).
  { eapply Qlt_le_trans; [exact Hf2|]. unfold N.
    rewrite <- (inject_Z_plus _ 2), <- Zle_Qle. lia. }
  split.
  - rewrite <- Hx. apply Qmult_le_r; assumption.
  - rewrite <- Hx. apply Qmult_lt_r; assumption.
Qed.

Lemma lookup_repeat {X} (x : X) n i : i < n -> repeat x n !! i = Some x.
Proof.
  revert i. induction n as [|n IH]; intros i Hi; [lia|].
  destruct i as [|i]; [reflexivity|]. simpl. apply IH. lia.
Qed.

(** C2, as the code has it. When the realization of a trill returns, the
    event is used up, and every alternation note and every nachschlag note
    lasts the effective sub-note length [useQL]. The alternation notes
    come in pairs, as many as the whole part of the quotient of the
    duration by [useQL], less two with a nachschlag, holds twos; the
    quotient is the one that Python holds. The number of notes times
    [useQL] (the nachschlag adding its two notes) is the duration of the
    event when the sub-note length was scaled down to fit. When the
    quotient that Python holds is the exact one, as it is on two
    fractions and on two floats of which one is a whole multiple of the
    other, the product is the duration whenever the duration is an even
    multiple of [useQL], and otherwise, for a positive configured length,
    the notes stay within the duration of the event and fall short of it
    by less than two sub-notes. *)
Theorem Trill_notes_times_useQL (t : TrillObj) (l : loc)
  (ks : option key.KeySignature) (inPlace : bool) (h h' : store Note)
  (src : Note) (pre : list loc) (main : option loc) (post : list loc) :
  h !! l = Some src ->
  Trill.realize t l ks inPlace h = (h', Ok (pre, main, post)) ->
  exists useQL : OffsetQL,
    Trill.effectiveQL t (quarterLength src) = Ok useQL
    /\ main = None
    /\ (forall n, n ∈ pre ++ post ->
          exists q, durationAt h' n = Some q /\ (q == useQL)%Q)
    /\ length post = nachschlagNotes t
    /\ length pre = 2 * trillPairs t (quarterLength src) useQL
    /\ let N := inject_Z (Z.of_nat (length pre + length post)) in
       let quotient := trillQuotient (quarterLength src) useQL in
       ((quarterLength src
         < inject_Z (if nachschlag t then 4 else 2) * trill_quarterLength t)%Q ->
        (N * useQL == quarterLength src)%Q)
       /\ ((quotient == quarterLength src / useQL)%Q ->
           (forall m : Z, (1 <= m)%Z ->
              (quarterLength src == inject_Z (2 * m) * useQL)%Q ->
              (N * useQL == quarterLength src)%Q)
           /\ ((0 < trill_quarterLength t)%Q -> (0 < quarterLength src)%Q ->
               (N * useQL <= quarterLength src)%Q
               /\ (quarterLength src < (N + 2) * useQL)%Q))
       /\ (~ heldAsFloat (quarterLength src) ->
           forall x, useQL = PyFraction x ->
           (quotient == quarterLength src / useQL)%Q)
       /\ (heldAsFloat (quarterLength src) ->
           forall x (m : Z), useQL = PyFloat x -> (Z.abs m < 2 ^ 53)%Z ->
           (quarterLength src == inject_Z m * x)%Q ->
           (quotient == quarterLength src / useQL)%Q).
Proof.
  intros Hl H.
  destruct (Trill_realize_Ok _ _ _ _ _ _ _ _ _ _ Hl H)
    as (useQL & HQ & Hu & -> & Hpre & Hpost & Hq).
  set (k := trillPairs t (quarterLength src) useQL) in *.
  exists useQL. split; [exact HQ|]. split; [reflexivity|].
  destruct (effectiveQL_cases _ _ _ HQ) as (Hd0 & Hns & Hplain).
  destruct (truedivInt_offsetQL (quarterLength src)) as [V2 V4].
  assert (Hlen : length pre + length post = 2 * k + nachschlagNotes t).
  { rewrite Hpre, Hpost, !length_seq. reflexivity. }
  assert (Heven : (trillQuotient (quarterLength src) useQL
                   == quarterLength src / useQL)%Q ->
            forall m : Z, (1 <= m)%Z ->
            (quarterLength src == inject_Z (2 * m) * useQL)%Q ->
            (inject_Z (Z.of_nat (length pre + length post)) * useQL
             == quarterLength src)%Q).
  { intros Hx m Hm Hd. rewrite Hlen. unfold k.
    rewrite (trill_count_even_multiple t _ _ m Hx Hu Hm Hd), Hd. reflexivity. }
  split; [|split; [|split]].
  - intros n Hn. exists (Qred useQL). split; [|apply Qred_correct].
    rewrite durationAt_qls, Hq.
    assert (length h <= n < length h + (2 * k + nachschlagNotes t)) as Hr.
    { rewrite Hpre, Hpost in Hn. apply elem_of_app in Hn as [Hn|Hn];
        apply elem_of_seq in Hn; lia. }
    replace n with (length (qls h) + (n - length h))
      by (rewrite length_qls; lia).
    apply lookup_app_plus; [reflexivity|]. apply lookup_repeat. lia.
  - rewrite Hpost. apply length_seq.
  - rewrite Hpre. apply length_seq.
  - cbv zeta. split; [|split; [|split]].
    + intros Hshort. destruct (nachschlag t) eqn:En.
      * pose proof (Hns eq_refl Hshort) as Eu.
        apply (Heven ltac:(rewrite Eu; apply scaled_quotient; auto) 2%Z); [lia|].
        rewrite Eu, V4. change (inject_Z (2 * 2)) with 4%Q. field.
      * pose proof (proj1 (Hplain (or_introl eq_refl)) Hshort) as Eu.
        apply (Heven ltac:(rewrite Eu; apply scaled_quotient; auto) 1%Z); [lia|].
        rewrite Eu, V2. change (inject_Z (2 * 1)) with 2%Q. field.
    + intros Hx. split; [exact (Heven Hx)|].
      intros Hc Hd. rewrite Hlen.
      pose proof (Qdiv4 (quarterLength src)) as D4.
      pose proof (Qdiv2 (quarterLength src)) as D2.
      assert (Hval : (0 < useQL)%Q
                /\ (inject_Z (if nachschlag t then 4 else 2) * useQL
                    <= quarterLength src)%Q).
      { destruct (Qlt_le_dec (quarterLength src) (4 * trill_quarterLength t))
          as [H4|H4];
        destruct (Qlt_le_dec (quarterLength src) (2 * trill_quarterLength t))
          as [H2|H2];
        destruct (nachschlag t) eqn:En;
        try (rewrite (Hns eq_refl H4), V4; change (inject_Z 4) with 4%Q; lra);
        try (rewrite (proj1 (Hplain (or_introl eq_refl)) H2), V2;
             change (inject_Z 2) with 2%Q; lra);
        try (rewrite (proj2 (Hplain (or_introl eq_refl)) H2);
             change (inject_Z 2) with 2%Q; lra);
        try (rewrite (proj2 (Hplain (or_intror H4)) H2);
             change (inject_Z 4) with 4%Q; lra);
        lra. }
      apply trill_count_bounds; [exact Hx | apply Hval | apply Hval].
    + intros Hf x ->. unfold trillQuotient.
      rewrite (offsetQL_fraction _ Hf). reflexivity.
    + intros Hf x m -> Hm Hd. unfold trillQuotient.
      rewrite (offsetQL_float _ Hf). cbn [Python.truediv Python.float value] in *.
      assert (quarterLength src / x == inject_Z m)%Q as E
          by (rewrite Hd; field; exact Hu).
      rewrite (float64_proper _ _ E), E. apply float64_Z, Hm.
Qed.

Lemma Trill_notes_times_useQL_witness :
  let t := mkTrill Trill_ "" false (PyFloat (1 # 8)) true in
  let src := mkNote (Some C4) (1 # 2) [ETrill t] None in
  let run := Trill.realize t 0%nat None false [src] in
  snd run = Ok ([1; 2; 3; 4]%nat, None, [])
  /\ exists useQL : OffsetQL,
       Trill.effectiveQL t (1 # 2) = Ok useQL
       /\ (inject_Z 4 * useQL == 1 # 2)%Q
       /\ (1 # 2 < (inject_Z 4 + 2) * useQL)%Q.
Proof.
  intros t src run. split; [reflexivity|].
  destruct (Trill_notes_times_useQL t 0%nat None false [src] (fst run) src
              [1; 2; 3; 4]%nat None [] eq_refl eq_refl)
    as (useQL & HQ & _ & _ & _ & _ & _ & Hexact & _).
  exists useQL. split; [exact HQ|].
  assert (useQL = PyFloat (1 # 8)) as -> by (vm_compute in HQ; congruence).
  destruct (Hexact ltac:(vm_compute; reflexivity)) as [Heven Hb].
  split.
  - apply (Heven 2%Z); [lia | reflexivity].
  - apply Hb; reflexivity.
Defined.

(** The quotient that Python holds can fall short of the exact one. An
    event of nine quarters holds its duration as a float; for a sub-note
    length of the fraction 9/14 Python divides [9.0] by the float nearest
    to 9/14 and gets [13.999999999999998], of which the whole part is 13.
    The trill returns twelve notes, although the duration is fourteen
    times the sub-note length. *)
Lemma Trill_rounded_quotient_loses_a_pair :
  let t := mkTrill Trill_ "" false (PyFraction (9 # 14)) true in
  let src := mkNote (Some C4) 9 [ETrill t] None in
  let run := Trill.realize t 0%nat None false [src] in
  offsetQL 9 = PyFloat 9
  /\ Trill.effectiveQL t 9 = Ok (PyFraction (9 # 14))
  /\ (9 == inject_Z 14 * (9 # 14))%Q
  /\ trillQuotient 9 (PyFraction (9 # 14))
     = PyFloat (7881299347898367 # 562949953421312)
  /\ int (trillQuotient 9 (PyFraction (9 # 14))) = 13%Z
  /\ snd run = Ok (seq 1 12, None, []).
Proof.
  repeat split; vm_compute; reflexivity.
Qed.

(** C2 as it is stated fails when the duration is not an even multiple of
    the sub-note length. A trill of 32nd notes on a dotted 16th (three
    eighths of a quarter) returns two alternation notes of an eighth of a
    quarter each: a quarter of a quarter, not three eighths. *)
Lemma Trill_odd_multiple_falls_short :
  let t := mkTrill Trill_ "" false (PyFloat (1 # 8)) true in
  let src := mkNote (Some C4) (3 # 8) [ETrill t] None in
  let run := Trill.realize t 0%nat None false [src] in
  Trill.init Trill_ None = Ok t
  /\ Trill.effectiveQL t (quarterLength src) = Ok (PyFloat (1 # 8))
  /\ snd run = Ok ([1; 2]%nat, None, [])
  /\ durationAt (fst run) 1%nat = Some (1 # 8)%Q
  /\ durationAt (fst run) 2%nat = Some (1 # 8)%Q
  /\ ~ (inject_Z (Z.of_nat (length [1; 2]%nat)) * (1 # 8) == quarterLength src)%Q.
Proof.
  repeat split. intros H. discriminate H.
Qed.

(* ===================================================================== *)
(** ** Out of place, realize leaves the store as it was *)
(* ===================================================================== *)

Section Frame.
Variable n : nat.

Lemma fresh_ret {A} (a : A) (P : A -> Prop) :
  P a -> writesOnlyFresh n (ret a) P.
Proof. intros Ha h Hn. simpl. split; [exact Hn|]. split; [reflexivity|]. intros a' [= <-]. exact Ha. Qed.

Lemma fresh_raise {A} e (P : A -> Prop) : writesOnlyFresh n (raise e) P.
Proof. intros h Hn. simpl. split; [exact Hn|]. split; [reflexivity|]. discriminate. Qed.

Lemma fresh_bind {A B} (m : M Note A) (k : A -> M Note B) P Q :
  writesOnlyFresh n m P ->
  (forall a, P a -> writesOnlyFresh n (k a) Q) ->
  writesOnlyFresh n (bind m k) Q.
Proof.
  intros Hm Hk h Hn. destruct (Hm h Hn) as (H1 & H2 & H3).
  unfold bind. destruct (m h) as [h1 [a|e]]; simpl in *.
  - destruct (Hk a (H3 a eq_refl) h1 H1) as (K1 & K2 & K3).
    split; [exact K1|]. split; [congruence | exact K3].
  - split; [exact H1|]. split; [exact H2 | discriminate].
Qed.

Lemma fresh_weaken {A} (m : M Note A) (P Q : A -> Prop) :
  writesOnlyFresh n m P -> (forall a, P a -> Q a) -> writesOnlyFresh n m Q.
Proof.
  intros Hm HPQ h Hn. destruct (Hm h Hn) as (H1 & H2 & H3).
  split; [exact H1|]. split; [exact H2|]. intros a Ha. apply HPQ, H3, Ha.
Qed.

Lemma fresh_read l : writesOnlyFresh n (read l) (fun _ => True).
Proof.
  intros h Hn. unfold read. destruct (h !! l); simpl; auto.
Qed.

Lemma fresh_liftR {A} (r : Result A) : writesOnlyFresh n (liftR r) (fun _ => True).
Proof. destruct r; [apply fresh_ret; exact I | apply fresh_raise]. Qed.

Lemma fresh_modify l f :
  n <= l -> writesOnlyFresh n (modify l f) (fun _ => True).
Proof.
  intros Hl h Hn. unfold modify. destruct (h !! l) as [o|]; simpl; [|auto].
  rewrite length_insert. split; [exact Hn|]. split; [|auto].
  apply take_insert_ge. exact Hl.
Qed.

Lemma fresh_alloc o : writesOnlyFresh n (alloc o) (le n).
Proof.
  intros h Hn. unfold alloc. simpl. rewrite length_app. split; [lia|]. split.
  - apply take_app_le. exact Hn.
  - intros a [= <-]. exact Hn.
Qed.

Lemma fresh_deepcopy l : writesOnlyFresh n (deepcopy l) (le n).
Proof.
  unfold deepcopy. eapply fresh_bind; [apply fresh_read|].
  intros o _. apply fresh_alloc.
Qed.

Lemma fresh_setQuarterLength l q :
  n <= l -> writesOnlyFresh n (setQuarterLength l q) (fun _ => True).
Proof. apply fresh_modify. Qed.

Lemma fresh_setExpressions l es :
  n <= l -> writesOnlyFresh n (setExpressions l es) (fun _ => True).
Proof. apply fresh_modify. Qed.

Lemma fresh_popExpression l i :
  n <= l -> writesOnlyFresh n (popExpression l i) (fun _ => True).
Proof. apply fresh_modify. Qed.

Lemma fresh_removeExpression l x :
  n <= l -> writesOnlyFresh n (removeExpression l x) (fun _ => True).
Proof. apply fresh_modify. Qed.

Lemma fresh_transpose l i :
  n <= l -> writesOnlyFresh n (transpose l i) (fun _ => True).
Proof.
  intros Hl. unfold transpose. eapply fresh_bind; [apply fresh_read|].
  intros o _. destruct (pitch o); [apply fresh_modify, Hl | apply fresh_raise].
Qed.

Lemma fresh_setAccidental l a :
  n <= l -> writesOnlyFresh n (setAccidental l a) (fun _ => True).
Proof.
  intros Hl. unfold setAccidental. eapply fresh_bind; [apply fresh_read|].
  intros o _. destruct (pitch o); [apply fresh_modify, Hl | apply fresh_raise].
Qed.

Lemma fresh_forEach {X} (xs : list X) (body : X -> M Note unit) :
  (forall x, x ∈ xs -> writesOnlyFresh n (body x) (fun _ => True)) ->
  writesOnlyFresh n (forEach xs body) (fun _ => True).
Proof.
  induction xs as [|x xs IH]; intros Hb; simpl.
  - apply fresh_ret. exact I.
  - eapply fresh_bind; [apply Hb; left|].
    intros _ _. apply IH. intros y Hy. apply Hb. right. exact Hy.
Qed.

Lemma fresh_repeatM {A} k (body : A -> M Note A) (P : A -> Prop) :
  (forall acc, P acc -> writesOnlyFresh n (body acc) P) ->
  forall acc, P acc -> writesOnlyFresh n (repeatM k body acc) P.
Proof.
  intros Hb. induction k as [|k IH]; intros acc Hacc; simpl.
  - apply fresh_ret, Hacc.
  - eapply fresh_bind; [apply Hb, Hacc|]. intros acc' Hacc'. apply IH, Hacc'.
Qed.

End Frame.

(** One step of a proof that a computation writes to fresh objects only *)
Ltac fresh_step :=
  lazymatch goal with
  | |- writesOnlyFresh _ (bind (read _) _) _ =>
      eapply fresh_bind; [apply fresh_read | intros ? _]
  | |- writesOnlyFresh _ (bind (liftR _) _) _ =>
      eapply fresh_bind; [apply fresh_liftR | intros ? _]
  | |- writesOnlyFresh _ (bind (deepcopy _) _) _ =>
      eapply fresh_bind; [apply fresh_deepcopy | intros ? ?]
  | |- writesOnlyFresh _ (bind (setQuarterLength _ _) _) _ =>
      eapply fresh_bind; [apply fresh_setQuarterLength; assumption | intros _ _]
  | |- writesOnlyFresh _ (bind (setExpressions _ _) _) _ =>
      eapply fresh_bind; [apply fresh_setExpressions; assumption | intros _ _]
  | |- writesOnlyFresh _ (bind (transpose _ _) _) _ =>
      eapply fresh_bind; [apply fresh_transpose; assumption | intros _ _]
  | |- writesOnlyFresh _ (bind (setAccidental _ _) _) _ =>
      eapply fresh_bind; [apply fresh_setAccidental; assumption | intros _ _]
  | |- writesOnlyFresh _ (raise _) _ => apply fresh_raise
  | |- writesOnlyFresh _ (if ?b then _ else _) _ => destruct b
  | |- writesOnlyFresh _ (match ?x with Some _ => _ | None => _ end) _ => destruct x
  end.

Lemma fresh_fillListOfRealizedNotes n ql l acc i q :
  Forall (le n) acc ->
  writesOnlyFresh n (Ornament.fillListOfRealizedNotes ql l acc i q) (Forall (le n)).
Proof.
  intros Hacc. unfold Ornament.fillListOfRealizedNotes.
  repeat fresh_step.
  apply fresh_ret. apply Forall_app. split; [exact Hacc|].
  repeat constructor; assumption.
Qed.

Lemma fresh_bind_ret {A B} n (a : A) (k : A -> M Note B) Q :
  writesOnlyFresh n (k a) Q -> writesOnlyFresh n (bind (ret a) k) Q.
Proof. intros H. exact H. Qed.

Lemma fresh_bind_raise {A B} n e (k : A -> M Note B) Q :
  writesOnlyFresh n (bind (raise e) k) Q.
Proof. apply (fresh_raise n e Q). Qed.

Lemma enumerate_elem {X} (l : list X) i x : (i, x) ∈ enumerate l -> x ∈ l.
Proof.
  unfold enumerate. intros H. apply list_elem_of_In.
  apply list_elem_of_In in H. eapply in_combine_r, H.
Qed.

Lemma Forall_le_elem n (l : list nat) x : Forall (le n) l -> x ∈ l -> n <= x.
Proof. intros H Hx. rewrite Forall_forall in H. apply H, Hx. Qed.

Ltac fresh_steps :=
  repeat first
    [ fresh_step
    | lazymatch goal with
      | |- writesOnlyFresh _ (bind (ret _) _) _ => apply fresh_bind_ret
      | |- writesOnlyFresh _ (bind (raise _) _) _ => apply fresh_bind_raise
      | |- writesOnlyFresh _ (bind (bind _ _) _) _ =>
          eapply fresh_bind with (P := fun _ => True); [| intros _ _]
      | |- writesOnlyFresh _ (bind (if ?b then _ else _) _) _ => destruct b
      | |- writesOnlyFresh _ (bind (match ?x with Some _ => _ | None => _ end) _) _ =>
          destruct x
      | |- writesOnlyFresh _ (bind (popExpression _ _) _) _ =>
          eapply fresh_bind; [apply fresh_popExpression; assumption | intros _ _]
      | |- writesOnlyFresh _ (bind (removeExpression _ _) _) _ =>
          eapply fresh_bind; [apply fresh_removeExpression; assumption | intros _ _]
      | |- writesOnlyFresh _ (bind (Ornament.fillListOfRealizedNotes _ _ _ _ _) _) _ =>
          eapply fresh_bind;
          [apply fresh_fillListOfRealizedNotes; first [assumption | constructor]
          | intros ? ?]
      end ].

(** The loop that fills in accidentals assigns to the notes of the list
    only. *)
Lemma fresh_accidental_loop n (notes : list loc) (cond : nat -> Pitch -> bool)
  (acc : Pitch -> option Accidental) :
  Forall (le n) notes ->
  writesOnlyFresh n
    (forEach (enumerate notes) (fun '(noteIdx, x) =>
       nObj <- read x ;;
       match pitch nObj with
       | None => raise (AttributeError "pitch")
       | Some p => if cond noteIdx p then setAccidental x (acc p) else ret tt
       end))
    (fun _ => True).
Proof.
  intros Hn. apply fresh_forEach. intros [i x] Hx.
  apply enumerate_elem in Hx. pose proof (Forall_le_elem _ _ _ Hn Hx).
  fresh_steps.
  - apply fresh_setAccidental. assumption.
  - apply fresh_ret. exact I.
Qed.

Lemma Mordent_realize_fresh n m l ks :
  writesOnlyFresh n (GeneralMordent.realize m l ks false) (realizationFrom n).
Proof.
  unfold GeneralMordent.realize. cbn [negb]. fresh_steps.
  all: eapply fresh_bind;
    [ apply (fresh_accidental_loop n a1
               (fun noteIdx p => bool_decide (accidental p = None)
                                 && Nat.eqb (S noteIdx) 2)); assumption
    | intros _ _ ].
  all: fresh_steps; apply fresh_ret; simpl;
    (split; [assumption|]; split; [intros ? [= <-]; assumption | constructor]).
Qed.

Ltac fresh_all :=
  repeat first
    [ progress fresh_steps
    | lazymatch goal with
      | |- writesOnlyFresh _ (let (_, _) := ?x in _) _ => destruct x
      end ].

Lemma Turn_realize_fresh n t l ks :
  writesOnlyFresh n (Turn.realize t l ks false) (realizationFrom n).
Proof.
  unfold Turn.realize. cbn [negb]. fresh_all. 
  all: eapply fresh_bind;
    [ apply (fresh_accidental_loop n _
               (fun noteIdx p => bool_decide (accidental p = None)
                                 && (Nat.eqb (S noteIdx) 1 || Nat.eqb (S noteIdx) 3)));
      repeat constructor; assumption
    | intros _ _ ].
  all: fresh_all; apply fresh_ret; simpl;
    (split; [constructor|]; split;
     [first [discriminate | intros ? [= <-]; assumption]
     | repeat constructor; assumption]).
Qed.

Lemma Appoggiatura_realize_fresh n a l ks :
  writesOnlyFresh n (GeneralAppoggiatura.realize a l ks false) (realizationFrom n).
Proof.
  unfold GeneralAppoggiatura.realize. cbn [negb]. fresh_all.
  all: apply fresh_ret; simpl;
    (split; [repeat constructor; assumption|]; split;
     [intros ? [= <-]; assumption | constructor]).
Qed.

Lemma Ornament_realize_fresh n l ks :
  writesOnlyFresh n (Ornament.realize l ks false) (realizationFrom n).
Proof.
  unfold Ornament.realize. cbn [negb]. fresh_all.
  apply fresh_ret; simpl.
  split; [constructor|]. split; [intros ? [= <-]; assumption | constructor].
Qed.

Lemma Trill_realize_fresh n t l ks :
  writesOnlyFresh n (Trill.realize t l ks false) (realizationFrom n).
Proof.
  unfold Trill.realize. cbn [negb andb]. fresh_all.
  eapply fresh_bind.
  { apply (fresh_repeatM n _ _ (Forall (le n))); [|constructor].
    intros acc Hacc. apply fresh_fillListOfRealizedNotes, Hacc. }
  intros trillNotes Hnotes.
  eapply fresh_bind with (P := fun _ => True).
  { destruct (Trill._setAccidentalFromKeySig t); [|apply fresh_ret; exact I].
    apply fresh_forEach. intros x Hx.
    pose proof (Forall_le_elem _ _ _ Hnotes Hx).
    fresh_all; first [apply fresh_setAccidental; assumption | apply fresh_ret; exact I]. }
  intros _ _. fresh_all.
  all: try (apply fresh_setAccidental; assumption).
  all: apply fresh_ret; simpl;
    (split; [assumption|]; split;
     [discriminate | repeat constructor; assumption]).
Qed.

Lemma fresh_splitAtQuarterLength n e ql :
  writesOnlyFresh n (splitAtQuarterLength e ql)
    (fun split => n <= fst split /\ n <= snd split).
Proof.
  unfold splitAtQuarterLength. fresh_all. apply fresh_ret. simpl. auto.
Qed.

Lemma fresh_splitLoop n lengthOfEach fuel : forall eRemain objsConverted,
  n <= eRemain -> Forall (le n) objsConverted ->
  writesOnlyFresh n (Tremolo.splitLoop fuel lengthOfEach eRemain objsConverted)
    (fun looped => Forall (le n) (fst looped) /\ n <= snd looped).
Proof.
  induction fuel as [|fuel IH]; intros e acc He Hacc; simpl; fresh_all.
  - apply fresh_ret. simpl. auto.
  - eapply fresh_bind; [apply fresh_splitAtQuarterLength|].
    intros [addNote eRemain] [H1 H2]. simpl in H1, H2.
    apply IH; [exact H2|]. apply Forall_app. split; [exact Hacc|].
    repeat constructor. exact H1.
  - apply fresh_ret. simpl. auto.
Qed.

Lemma Tremolo_realize_fresh n t l ks :
  writesOnlyFresh n (Tremolo.realize t l ks false) (realizationFrom n).
Proof.
  unfold Tremolo.realize. cbn [negb]. fresh_all.
  all: eapply fresh_bind;
    [ apply fresh_splitLoop; [assumption | constructor]
    | intros [objsConverted eRemain] [H1 H2]; simpl in H1, H2;
      apply fresh_ret; simpl;
      (split; [apply Forall_app; split; [assumption | repeat constructor; assumption]|];
       split; [discriminate | constructor]) ].
Qed.

Lemma realize_fresh n e l ks :
  writesOnlyFresh n (realize e l ks false) (realizationFrom n).
Proof.
  destruct e; simpl.
  - apply Mordent_realize_fresh.
  - apply Trill_realize_fresh.
  - apply Turn_realize_fresh.
  - apply Appoggiatura_realize_fresh.
  - apply Tremolo_realize_fresh.
  - apply Ornament_realize_fresh.
  - apply fresh_raise.
Qed.

Lemma writesOnlyFresh_lookup {A} (m : M Note A) P (h : store Note) l' :
  writesOnlyFresh (length h) m P -> l' < length h ->
  fst (m h) !! l' = h !! l'.
Proof.
  intros Hm Hl. destruct (Hm h (le_n _)) as (_ & Ht & _).
  rewrite <- (lookup_take_lt (fst (m h)) (length h) l' Hl), Ht.
  apply lookup_take_lt, Hl.
Qed.

Lemma writesOnlyFresh_lookup_at {A} n (m : M Note A) P (h h' : store Note) r l' :
  writesOnlyFresh n m P -> n <= length h -> l' < n ->
  m h = (h', r) -> h' !! l' = h !! l'.
Proof.
  intros Hm Hn Hl Hrun. destruct (Hm h Hn) as (_ & Ht & _).
  rewrite Hrun in Ht. simpl in Ht.
  rewrite <- (lookup_take_lt h' n l' Hl), Ht. apply lookup_take_lt, Hl.
Qed.

Lemma writesOnlyFresh_length {A} n (m : M Note A) P (h h' : store Note) r :
  writesOnlyFresh n m P -> n <= length h -> m h = (h', r) -> n <= length h'.
Proof.
  intros Hm Hn Hrun. destruct (Hm h Hn) as (Hlen & _).
  rewrite Hrun in Hlen. exact Hlen.
Qed.

Lemma delete_index_of x l :
  match index_of x l with
  | Some i => delete i l
  | None => l
  end = remove_first x l.
Proof.
  induction l as [|y l IH]; simpl; [reflexivity|].
  destruct (decide (x = y)); [reflexivity|].
  destruct (index_of x l); simpl; rewrite <- IH; reflexivity.
Qed.

(** The end of [realize] for a mordent, a turn and an appoggiatura: the
    event is copied, the copy is given what is left of the duration, and
    the ornament is taken out of the expressions of the copy. *)
Lemma remainder_copy_run {X} (h : store Note) l src q e (K : loc -> X) :
  h !! l = Some src ->
  (remainderNote <- deepcopy l ;;
   setQuarterLength remainderNote q ;;
   match index_of e (expressions src) with
   | Some i => popExpression remainderNote i
   | None => ret tt
   end ;;
   ret (K remainderNote)) h
  = (h ++ [mkNote (pitch src) (Qred q) (remove_first e (expressions src))
             (contextKeySig src)],
     Ok (K (length h))).
Proof.
  intros Hl. unfold bind at 1, deepcopy. rewrite (run_read _ _ _ _ _ Hl).
  unfold alloc. unfold bind at 1, setQuarterLength, modify.
  rewrite (list_lookup_middle h [] src (length h) eq_refl).
  rewrite (snoc_insert h (length h) _ src eq_refl).
  rewrite <- (delete_index_of e (expressions src)).
  destruct (index_of e (expressions src)) as [i|].
  - unfold bind, popExpression, modify, ret.
    rewrite (list_lookup_middle h [] _ (length h) eq_refl).
    rewrite (snoc_insert h (length h) _ _ eq_refl). reflexivity.
  - reflexivity.
Qed.

Lemma Mordent_realize_main m l ks (h h' : store Note) src pre r post :
  h !! l = Some src ->
  GeneralMordent.realize m l ks false h = (h', Ok (pre, Some r, post)) ->
  exists nr, h' !! r = Some nr /\ remainderOf (EMordent m) src nr.
Proof.
  intros Hl H. assert (l < length h) as Hlt by (eapply lookup_lt_Some, Hl).
  unfold GeneralMordent.realize in H. cbn [negb] in H.
  inv_bind H as h0 src0 R. inv_read R. rewrite Hl in E. injection E as <-.
  destruct (negb (GeneralMordent.directionKnown m)); [discriminate|].
  destruct (Qeq_bool (quarterLength src) 0); [discriminate|].
  destruct (bool_decide (pitch src = None)); [discriminate|].
  inv_bind H as h0 use_ql R.
  assert (h0 = h) as ->.
  { destruct (Qle_bool _ _); [destruct (negb _); [discriminate|]|];
      apply ret_Ok in R as [-> _]; reflexivity. }
  clear R.
  inv_bind H as h0 i R. apply liftR_Ok in R as [-> _].
  inv_bind H as h1 mordNotes R.
  pose proof (fresh_fillListOfRealizedNotes (length h) (mordent_quarterLength m)
                l [] i (Some use_ql) ltac:(constructor)) as Ffill.
  pose proof (writesOnlyFresh_lookup_at _ _ _ _ _ _ l Ffill (le_n _) Hlt R) as F1.
  pose proof (writesOnlyFresh_length _ _ _ _ _ _ Ffill (le_n _) R) as L1.
  clear Ffill.
  apply fillListOfRealizedNotes_Ok in R as (_ & _ & ->).
  inv_bind H as h2 u R.
  assert (h2 !! l = h1 !! l) as F2.
  { refine (writesOnlyFresh_lookup_at (length h) _ _ _ _ _ l _ L1 Hlt R).
    apply (fresh_accidental_loop (length h) _
             (fun noteIdx p => bool_decide (accidental p = None)
                               && Nat.eqb (S noteIdx) 2)).
    repeat constructor; lia. }
  clear R.
  rewrite F1, Hl in F2.
  rewrite (run_read _ _ _ _ _ F2) in H.
  rewrite (remainder_copy_run h2 l src _ (EMordent m)
             (fun x => ([] ++ [length h; S (length h)], Some x, [])) F2) in H.
  injection H as <- _ <- _.
  eexists. split; [apply list_lookup_middle; reflexivity|].
  repeat split.
Qed.

Lemma fresh_run {A} n (m : M Note A) P (h h' : store Note) a :
  writesOnlyFresh n m P -> n <= length h -> m h = (h', Ok a) ->
  n <= length h' /\ take n h' = take n h /\ P a.
Proof.
  intros Hm Hn Hrun. destruct (Hm h Hn) as (H1 & H2 & H3).
  rewrite Hrun in H1, H2, H3. simpl in *. auto.
Qed.

(** One more bind of a successful run taken apart, keeping track of the
    objects that were there at the start *)
Ltac frame_run R copy :=
  lazymatch type of R with
  | ?m ?hc = (?h1, Ok ?a) =>
      lazymatch goal with
      | L : ?n <= length hc, T : take ?n hc = _ |- _ =>
          let F := fresh "F" in
          let L' := fresh "L" in let T' := fresh "T" in let P' := fresh "P" in
          lazymatch copy with
          | true =>
              assert (F : writesOnlyFresh n m (le n)) by apply fresh_deepcopy;
              destruct (fresh_run n m (le n) hc h1 a F L R) as (L' & T' & P')
          | false =>
              assert (F : writesOnlyFresh n m (fun _ => True))
                by (first [ apply fresh_setQuarterLength; assumption
                          | apply fresh_setExpressions; assumption
                          | apply fresh_popExpression; assumption
                          | apply fresh_transpose; assumption
                          | apply fresh_setAccidental; assumption ]);
              destruct (fresh_run n m (fun _ => True) hc h1 a F L R)
                as (L' & T' & _)
          end;
          apply (fun E => eq_trans E T) in T'; clear F L T R
      end
  end.

Ltac frame_copy H :=
  let h1 := fresh "hs" in let a := fresh "x" in let R := fresh "Rs" in
  apply bind_Ok in H as (h1 & a & R & H); frame_run R true.

Ltac frame_set H :=
  let h1 := fresh "hs" in let a := fresh "u" in let R := fresh "Rs" in
  apply bind_Ok in H as (h1 & a & R & H); frame_run R false.

Lemma take_all_lookup (h hk : store Note) l src :
  h !! l = Some src -> take (length h) hk = take (length h) h ->
  hk !! l = Some src.
Proof.
  intros Hl T. assert (l < length h) as Hlt by (eapply lookup_lt_Some, Hl).
  rewrite <- (lookup_take_lt hk (length h) l Hlt), T, lookup_take_lt by exact Hlt.
  exact Hl.
Qed.

Lemma Turn_realize_main t l ks (h h' : store Note) src pre r post :
  h !! l = Some src ->
  Turn.realize t l ks false h = (h', Ok (pre, Some r, post)) ->
  exists nr, h' !! r = Some nr /\ remainderOf (ETurn t) src nr.
Proof.
  intros Hl H.
  pose proof (le_n (length h)) as L0.
  pose proof (eq_refl (take (length h) h)) as T0.
  unfold Turn.realize in H. cbn [negb] in H.
  inv_bind H as h0 src0 R. inv_read R. rewrite Hl in E. injection E as <-.
  destruct (bool_decide (pitch src = None)); [discriminate|].
  destruct (Qeq_bool (quarterLength src) 0); [discriminate|].
  inv_bind H as h0 lengths R. apply liftR_Ok in R as [-> _].
  destruct lengths as [useQL fourthNoteQL].
  inv_bind H as h0 i1 R. apply liftR_Ok in R as [-> _].
  inv_bind H as h0 i2 R. apply liftR_Ok in R as [-> _].
  frame_copy H. frame_set H. frame_set H. frame_set H.
  frame_copy H. frame_set H. frame_set H.
  frame_copy H. frame_set H. frame_set H. frame_set H.
  frame_copy H. frame_set H. frame_set H.
  inv_bind H as hr src1 R. apply read_Ok in R as [<- E].
  lazymatch goal with
  | T : take _ hr = _ |- _ => rewrite (take_all_lookup _ _ _ _ Hl T) in E
  end.
  injection E as <-.
  inv_bind H as hf uf R.
  assert (take (length h) hf = take (length h) h /\ length h <= length hf)
    as [Tf Lf].
  { lazymatch type of R with
    | ?m hr = _ =>
        assert (F : writesOnlyFresh (length h) m (fun _ => True))
    end.
    { apply (fresh_accidental_loop (length h) _
               (fun noteIdx p => bool_decide (accidental p = None)
                                 && (Nat.eqb (S noteIdx) 1 || Nat.eqb (S noteIdx) 3))).
      repeat constructor; assumption. }
    lazymatch goal with
    | L : length h <= length hr, T : take _ hr = _ |- _ =>
        destruct (fresh_run _ _ _ _ _ _ F L R) as (L' & T' & _);
        rewrite T in T'; auto
    end. }
  clear R.
  destruct (Qeq_bool _ 0); [apply ret_Ok in H as [_ [=]]|].
  erewrite (remainder_copy_run hf l src _ (ETurn t) _
              (take_all_lookup _ _ _ _ Hl Tf)) in H.
  injection H as <- _ <- _.
  eexists. split; [apply list_lookup_middle; reflexivity|].
  repeat split.
Qed.

Lemma Appoggiatura_realize_main a l ks (h h' : store Note) src pre r post :
  h !! l = Some src ->
  GeneralAppoggiatura.realize a l ks false h = (h', Ok (pre, Some r, post)) ->
  exists nr, h' !! r = Some nr /\ remainderOf (EAppoggiatura a) src nr.
Proof.
  intros Hl H.
  pose proof (le_n (length h)) as L0.
  pose proof (eq_refl (take (length h) h)) as T0.
  unfold GeneralAppoggiatura.realize in H. cbn [negb] in H.
  inv_bind H as h0 src0 R. inv_read R. rewrite Hl in E. injection E as <-.
  destruct (negb (GeneralAppoggiatura.directionKnown a)); [discriminate|].
  destruct (size a) as [theSize|]; [|discriminate].
  destruct (Qeq_bool (quarterLength src) 0); [discriminate|].
  frame_copy H. frame_set H. frame_set H.
  inv_bind H as hr src1 R. apply read_Ok in R as [<- E].
  lazymatch goal with
  | T : take _ hr = _ |- _ =>
      pose proof (take_all_lookup _ _ _ _ Hl T) as Hr
  end.
  rewrite Hr in E. injection E as <-.
  erewrite (remainder_copy_run hr l src _ (EAppoggiatura a) _ Hr) in H.
  injection H as <- _ <- _.
  eexists. split; [apply list_lookup_middle; reflexivity|].
  repeat split.
Qed.

Lemma Ornament_realize_main c l ks (h h' : store Note) src pre r post :
  h !! l = Some src ->
  Ornament.realize l ks false h = (h', Ok (pre, Some r, post)) ->
  exists nr, h' !! r = Some nr /\ remainderOf (EOrnament c) src nr.
Proof.
  intros Hl H. unfold Ornament.realize in H. cbn [negb] in H.
  inv_bind H as h1 x R. apply deepcopy_Ok in R as (o & Ho & -> & ->).
  rewrite Hl in Ho. injection Ho as <-.
  apply ret_Ok in H as [-> [= _ -> _]].
  exists src. split; [apply list_lookup_middle; reflexivity|].
  repeat split.
Qed.

Lemma Tremolo_realize_main t l ks inPlace (h h' : store Note) pre main post :
  Tremolo.realize t l ks inPlace h = (h', Ok (pre, main, post)) -> main = None.
Proof.
  unfold Tremolo.realize. intros H.
  inv_bind H as h1 eRemain R1. inv_bind H as h2 e R2.
  inv_bind H as h3 u R3. inv_bind H as h4 looped R4.
  destruct looped as [objsConverted eRemain'].
  apply ret_Ok in H as [_ [= _ -> _]]. reflexivity.
Qed.

(** The main note that comes back from an out-of-place [realize] is the
    event without the ornament. *)
Lemma realize_main e l ks (h h' : store Note) src pre r post :
  h !! l = Some src ->
  realize e l ks false h = (h', Ok (pre, Some r, post)) ->
  exists nr, h' !! r = Some nr /\ remainderOf e src nr.
Proof.
  intros Hl H. destruct e as [m|t|t|a|t|c|c]; simpl in H.
  - eapply Mordent_realize_main; eassumption.
  - destruct (Trill_realize_Ok _ _ _ _ _ _ _ _ _ _ Hl H) as (_ & _ & _ & [=] & _).
  - eapply Turn_realize_main; eassumption.
  - eapply Appoggiatura_realize_main; eassumption.
  - apply Tremolo_realize_main in H. discriminate.
  - eapply Ornament_realize_main; eassumption.
  - discriminate.
Qed.

(** C7. For every ornament and every event, [realize] with
    [inPlace=False] leaves the event it is given as it was, with its
    duration and its list of expressions, and so every other object of
    the store. All the notes it returns are objects made during the call.
    The main note, when there is one, is such a copy of the event: it is
    from the expressions of the copy that the ornament is taken out. *)
Theorem realize_out_of_place_leaves_input (e : Expression) (l : loc)
  (ks : option key.KeySignature) (h : store Note) (src : Note) :
  h !! l = Some src ->
  let run := realize e l ks false h in
  fst run !! l = Some src
  /\ (forall l', l' < length h -> fst run !! l' = h !! l')
  /\ (forall pre main post, snd run = Ok (pre, main, post) ->
        (forall x, x ∈ pre ++ post -> length h <= x /\ x <> l)
        /\ (forall r, main = Some r ->
              length h <= r /\ r <> l
              /\ exists nr, fst run !! r = Some nr /\ remainderOf e src nr)).
Proof.
  intros Hl run. pose proof (realize_fresh (length h) e l ks) as Hf.
  assert (l < length h) as Hlt by (eapply lookup_lt_Some, Hl).
  split; [|split].
  - unfold run. rewrite (writesOnlyFresh_lookup _ _ _ _ Hf Hlt). exact Hl.
  - intros l' Hl'. apply (writesOnlyFresh_lookup _ _ _ _ Hf Hl').
  - intros pre main post Hr.
    destruct (Hf h (le_n _)) as (_ & _ & HP).
    destruct (HP _ Hr) as (Hpre & Hmain & Hpost). split.
    + intros x Hx. apply elem_of_app in Hx as [Hx|Hx];
        [pose proof (Forall_le_elem _ _ _ Hpre Hx)
        |pose proof (Forall_le_elem _ _ _ Hpost Hx)]; lia.
    + intros r ->. pose proof (Hmain r eq_refl).
      split; [lia|]. split; [lia|].
      apply (realize_main e l ks h (fst run) src pre r post Hl).
      unfold run in *. destruct (realize e l ks false h) as [h1 res].
      simpl in *. rewrite Hr. reflexivity.
Qed.

Lemma realize_out_of_place_leaves_input_witness :
  let m := mkMordent Mordent_ "" (1 # 8) true in
  let src := mkNote (Some C4) (1 # 2) [EMordent m] None in
  let run := realize (EMordent m) 0%nat None false [src] in
  fst run !! 0%nat = Some src
  /\ snd run = Ok ([1; 2]%nat, Some 3%nat, [])
  /\ exists nr, fst run !! 3%nat = Some nr /\ expressions nr = [].
Proof.
  intros m src run.
  destruct (realize_out_of_place_leaves_input (EMordent m) 0%nat None [src] src
              eq_refl) as (H & _ & Hres).
  split; [exact H|]. split; [reflexivity|].
  destruct (Hres [1; 2]%nat (Some 3%nat) [] eq_refl) as (_ & Hmain).
  destruct (Hmain 3%nat eq_refl) as (_ & _ & nr & Hnr & _ & _ & Hex).
  exists nr. split; [exact Hnr | exact Hex].
Defined.

(* ===================================================================== *)
(** ** The loops of the model are given steps enough *)
(* ===================================================================== *)



























Lemma lengthOfEach_positive t : (0 < Tremolo.lengthOfEach t)%Q.
Proof. unfold Tremolo.lengthOfEach. apply Qpower_0_lt. reflexivity. Qed.

Lemma roundsFor_step len q :
  (0 < len)%Q -> (len < q)%Q ->
  S (Tremolo.roundsFor len (Qred (q - len))) <= Tremolo.roundsFor len q.
Proof.
  intros Hlen Hq. unfold Tremolo.roundsFor.
  set (x := (q / len)%Q).
  assert (Hx : (x * len == q)%Q) by (unfold x; field; lra).
  assert (H1 : (1 < x)%Q).
  { apply (Qmult_lt_r _ _ len Hlen). rewrite Hx. lra. }
  pose proof (Qle_ceiling x) as Hc.
  assert (H2 : (2 <= Qceiling x)%Z).
  { assert (inject_Z 1 < inject_Z (Qceiling x))%Q as Hlt
      by (eapply Qlt_le_trans; [exact H1 | exact Hc]).
    rewrite <- Zlt_Qlt in Hlt. lia. }
  assert (H3 : (Qceiling (Qred (q - len) / len) <= Qceiling x - 1)%Z).
  { rewrite <- (Qceiling_Z (Qceiling x - 1)). apply Qceiling_resp_le.
    assert (Qred (q - len) / len == x - 1)%Q as ->.
    { rewrite Qred_correct. unfold x. field. lra. }
    assert (inject_Z (Qceiling x - 1) == inject_Z (Qceiling x) - 1)%Q as ->.
    { unfold Z.sub. rewrite inject_Z_plus. reflexivity. }
    lra. }
  lia.
Qed.

Lemma splitAtQuarterLength_run (h : store Note) e ql n :
  h !! e = Some n ->
  splitAtQuarterLength e ql h
  = (h ++ [set_quarterLength ql n;
           set_quarterLength (quarterLength n - ql) n],
     Ok (length h, S (length h))).
Proof.
  intros He. unfold splitAtQuarterLength.
  rewrite (run_read _ _ _ _ _ He).
  unfold bind, deepcopy, bind, read, alloc, setQuarterLength, modify, ret.
  rewrite He.
  rewrite (list_lookup_middle h [] n (length h) eq_refl).
  rewrite (snoc_insert h (length h) _ n eq_refl).
  rewrite (lookup_app_l_Some _ _ _ _ He).
  rewrite (list_lookup_middle (h ++ [set_quarterLength ql n]) [] n
             (length (h ++ [set_quarterLength ql n])) eq_refl).
  rewrite (snoc_insert (h ++ [set_quarterLength ql n]) _ _ n eq_refl).
  rewrite <- app_assoc, length_app. simpl.
  rewrite Nat.add_1_r. reflexivity.
Qed.



(* ===================================================================== *)
(** ** realizeOrnaments *)
(* ===================================================================== *)

Lemma appendAll_app {X} (xs acc : list X) : appendAll acc xs = acc ++ xs.
Proof.
  unfold appendAll. revert acc.
  induction xs as [|x xs IH]; intros acc; simpl.
  - symmetry. apply app_nil_r.
  - rewrite IH, <- app_assoc. reflexivity.
Qed.

Lemma retList_app st :
  retList st
  = preExpandList st ++ remainingEvent (srcObject st) ++ postExpandList st.
Proof.
  unfold retList. rewrite !appendAll_app.
  destruct (srcObject st); simpl; rewrite <- ?app_assoc; reflexivity.
Qed.








(** The example of the docstring of [realizeOrnaments]: a whole-step
    mordent on a D5 of one quarter gives D5 and C5, an eighth of a quarter
    each, and then the D5 for the remaining three quarters of a quarter. *)
Example realizeOrnaments_WholeStepMordent_D5 :
  let m := mkMordent WholeStepMordent_ "" (1 # 8) true in
  let src := mkNote (Some D5) 1 [EMordent m] None in
  let run := realizeOrnaments 0%nat None [src] in
  snd run = Ok [1; 2; 3]%nat
  /\ fst run !! 1%nat = Some (mkNote (Some D5) (1 # 8) [EMordent m] None)
  /\ fst run !! 2%nat = Some (mkNote (Some C5) (1 # 8) [EMordent m] None)
  /\ fst run !! 3%nat = Some (mkNote (Some D5) (3 # 4) [] None).
Proof. repeat split. Qed.
(* ===================================================================== *)
(** ** realizeOrnaments and the event it is given *)
(* ===================================================================== *)

Lemma run_modify (l : loc) f (h : store Note) (o : Note) A (k : unit -> M Note A) :
  h !! l = Some o -> bind (modify l f) k h = k tt (<[l := f o]> h).
Proof. intros H. unfold bind, modify. rewrite H. reflexivity. Qed.

Lemma run_setExpressions (l : loc) es (h : store Note) (o : Note) A
  (k : unit -> M Note A) :
  h !! l = Some o ->
  bind (setExpressions l es) k h = k tt (<[l := set_expressions es o]> h).
Proof. apply run_modify. Qed.

Lemma realizeLoop_S lb ks s pre post :
  realizeLoop (S lb) ks s pre post
  = (src <- read s ;;
     match expressions src with
     | [] => raise (IndexError "list index out of range")
     | thisExpression :: _ =>
         if hasRealize thisExpression then
           realized <- realize thisExpression s ks false ;;
           let '(preExpand, newSrcObject, postExpand) := realized in
           match newSrcObject with
           | None =>
               ret (mkLoopState (appendAll pre preExpand) None
                      (appendAll post postExpand) lb)
           | Some newSrcObject =>
               src <- read s ;;
               setExpressions newSrcObject (drop 1 (expressions src)) ;;
               src <- read newSrcObject ;;
               match expressions src with
               | [] => ret (mkLoopState (appendAll pre preExpand)
                              (Some newSrcObject) (appendAll post postExpand) lb)
               | _ :: _ => realizeLoop lb ks newSrcObject
                             (appendAll pre preExpand) (appendAll post postExpand)
               end
           end
         else
           setExpressions s (drop 1 (expressions src)) ;;
           src <- read s ;;
           match expressions src with
           | [] => ret (mkLoopState pre (Some s) post lb)
           | _ :: _ => realizeLoop lb ks s pre post
           end
     end).
Proof. reflexivity. Qed.

(** Once the loop works on an event allocated at or after [n], it leaves
    the first [n] objects alone. *)
Lemma realizeLoop_fresh n ks lb : forall s pre post,
  n <= s -> writesOnlyFresh n (realizeLoop lb ks s pre post) (fun _ => True).
Proof.
  induction lb as [|lb IH]; intros s pre post Hs.
  - apply fresh_ret. exact I.
  - rewrite realizeLoop_S.
    eapply fresh_bind; [apply fresh_read | intros src _].
    destruct (expressions src) as [|thisExpression rest]; [apply fresh_raise|].
    destruct (hasRealize thisExpression).
    + eapply fresh_bind; [apply realize_fresh|].
      intros [[preExpand newSrcObject] postExpand] (_ & Hmain & _).
      destruct newSrcObject as [new|]; [|apply fresh_ret; exact I].
      specialize (Hmain new eq_refl).
      eapply fresh_bind; [apply fresh_read | intros src1 _].
      eapply fresh_bind; [apply fresh_setExpressions, Hmain | intros _ _].
      eapply fresh_bind; [apply fresh_read | intros src2 _].
      destruct (expressions src2); [apply fresh_ret; exact I | apply IH, Hmain].
    + eapply fresh_bind; [apply fresh_setExpressions, Hs | intros _ _].
      eapply fresh_bind; [apply fresh_read | intros src2 _].
      destruct (expressions src2); [apply fresh_ret; exact I | apply IH, Hs].
Qed.

Lemma set_expressions_same src : set_expressions (expressions src) src = src.
Proof. destruct src. reflexivity. Qed.

(** What the loop does to the objects that exist when it starts: the
    event loses the expressions at its head that cannot be realized, and
    nothing else changes. *)
Lemma realizeLoop_strips ks lb : forall s pre post (h : store Note) src,
  h !! s = Some src ->
  let h' := fst (realizeLoop lb ks s pre post h) in
  h' !! s
  = Some (set_expressions
            (drop (Nat.min (leadingUnrealizable (expressions src)) lb)
               (expressions src)) src)
  /\ forall l', l' < length h -> l' <> s -> h' !! l' = h !! l'.
Proof.
  induction lb as [|lb IH]; intros s pre post h src Hs h'.
  - subst h'. cbn [realizeLoop ret fst]. rewrite Nat.min_0_r, drop_0.
    rewrite set_expressions_same. auto.
  - subst h'. rewrite realizeLoop_S, (run_read _ _ _ _ _ Hs).
    assert (s < length h) as Hlt by (eapply lookup_lt_Some, Hs).
    destruct (expressions src) as [|thisExpression rest] eqn:Ex.
    { cbn [raise fst leadingUnrealizable Nat.min]. rewrite drop_0.
      rewrite <- Ex, set_expressions_same. auto. }
    cbn [leadingUnrealizable].
    destruct (hasRealize thisExpression) eqn:Hr.
    + cbn [Nat.min]. rewrite drop_0, <- Ex, set_expressions_same.
      match goal with |- context [fst (?m h)] =>
        assert (writesOnlyFresh (length h) m (fun _ => True)) as Hfresh end.
      { eapply fresh_bind; [apply realize_fresh|].
        intros [[preExpand newSrcObject] postExpand] (_ & Hmain & _).
        destruct newSrcObject as [new|]; [|apply fresh_ret; exact I].
        specialize (Hmain new eq_refl).
        eapply fresh_bind; [apply fresh_read | intros src1 _].
        eapply fresh_bind; [apply fresh_setExpressions, Hmain | intros _ _].
        eapply fresh_bind; [apply fresh_read | intros src2 _].
        destruct (expressions src2);
          [apply fresh_ret; exact I | apply realizeLoop_fresh, Hmain]. }
      split.
      * rewrite (writesOnlyFresh_lookup _ _ h s Hfresh Hlt). exact Hs.
      * intros l' Hl' _. apply (writesOnlyFresh_lookup _ _ h l' Hfresh Hl').
    + cbn [skipn]. rewrite (run_setExpressions _ _ _ _ _ _ Hs).
      set (src1 := set_expressions rest src).
      assert (<[s := src1]> h !! s = Some src1) as Hs1
        by (apply list_lookup_insert_eq, Hlt).
      rewrite (run_read _ _ _ _ _ Hs1).
      change (Nat.min (S (leadingUnrealizable rest)) (S lb))
        with (S (Nat.min (leadingUnrealizable rest) lb)).
      cbn [skipn].
      destruct rest as [|e2 rest'] eqn:Er.
      * cbn [expressions src1 set_expressions ret fst]. rewrite drop_nil.
        split; [exact Hs1|].
        intros l' _ Hne. apply list_lookup_insert_ne. congruence.
      * cbn [expressions src1 set_expressions].
        destruct (IH s pre post _ _ Hs1) as [H1 H2].
        split.
        -- rewrite H1. reflexivity.
        -- intros l' Hl' Hne. rewrite H2;
             [apply list_lookup_insert_ne; congruence
             | rewrite length_insert; exact Hl' | exact Hne].
Qed.

Lemma realizeOrnaments_strips_at ks ceiling s (h : store Note) src :
  h !! s = Some src ->
  let h' := fst ((st <- realizeLoop ceiling ks s [] [] ;; ret (retList st)) h) in
  h' !! s
  = Some (set_expressions
            (drop (Nat.min (leadingUnrealizable (expressions src)) ceiling)
               (expressions src)) src)
  /\ forall l', l' < length h -> l' <> s -> h' !! l' = h !! l'.
Proof.
  intros Hs h'.
  assert (h' = fst (realizeLoop ceiling ks s [] [] h)) as ->.
  { subst h'. unfold bind. destruct (realizeLoop ceiling ks s [] [] h) as [h1 [st|e]];
      reflexivity. }
  apply realizeLoop_strips, Hs.
Qed.

(** X1. Whatever [realizeOrnaments] returns or raises, of the objects that
    exist before the call it changes the event itself only, and that by
    taking from its list of expressions those at the head that have no
    [realize] method (at most a hundred of them). An event whose first
    expression can be realized is left as it is. *)
Theorem realizeOrnaments_strips_unrealizable (s : loc)
  (ks : option key.KeySignature) (h : store Note) (src : Note) :
  h !! s = Some src ->
  let h' := fst (realizeOrnaments s ks h) in
  h' !! s
  = Some (set_expressions
            (drop (Nat.min (leadingUnrealizable (expressions src)) 100)
               (expressions src)) src)
  /\ (forall l', l' < length h -> l' <> s -> h' !! l' = h !! l')
  /\ (forall e rest, expressions src = e :: rest -> hasRealize e = true ->
        h' !! s = Some src).
Proof.
  intros Hs h'.
  assert (h' !! s
          = Some (set_expressions
                    (drop (Nat.min (leadingUnrealizable (expressions src)) 100)
                       (expressions src)) src)
          /\ forall l', l' < length h -> l' <> s -> h' !! l' = h !! l') as [H1 H2].
  { subst h'. unfold realizeOrnaments. rewrite (run_read _ _ _ _ _ Hs).
    destruct (expressions src) as [|e rest] eqn:Ex.
    - cbn [ret fst leadingUnrealizable]. rewrite drop_nil, <- Ex, set_expressions_same.
      auto.
    - rewrite <- Ex. apply (realizeOrnaments_strips_at ks 100 s h src Hs). }
  split; [exact H1|]. split; [exact H2|].
  intros e rest Ex Hr. rewrite H1, Ex. cbn [leadingUnrealizable]. rewrite Hr.
  cbn [Nat.min]. rewrite drop_0, <- Ex, set_expressions_same. reflexivity.
Qed.

Lemma realizeOrnaments_strips_unrealizable_witness :
  let fermata := EOther "Fermata" in
  let m := mkMordent Mordent_ "" (1 # 8) true in
  let src := mkNote (Some C4) 1 [fermata; EMordent m] None in
  fst (realizeOrnaments 0%nat None [src]) !! 0%nat
  = Some (mkNote (Some C4) 1 [EMordent m] None).
Proof.
  intros fermata m src.
  exact (proj1 (realizeOrnaments_strips_unrealizable 0%nat None [src] src eq_refl)).
Defined.

Lemma run_Ok {A B} (m : M Note A) (k : A -> M Note B) (h h1 : store Note) a :
  m h = (h1, Ok a) -> bind m k h = k a h1.
Proof. intros H. unfold bind. rewrite H. reflexivity. Qed.

Lemma bind_ret_r_run {A} (m : M Note A) (h : store Note) :
  bind m (fun a => ret a) h = m h.
Proof. unfold bind, ret. destruct (m h) as [h1 [a|e]]; reflexivity. Qed.

Lemma bind_assoc_run {A B C} (m : M Note A) (f : A -> M Note B)
  (g : B -> M Note C) (h : store Note) :
  bind (bind m f) g h = bind m (fun a => bind (f a) g) h.
Proof. unfold bind. destruct (m h) as [h1 [a|e]]; reflexivity. Qed.

Lemma run_Raise {A B} (m : M Note A) (k : A -> M Note B) (h h1 : store Note) e :
  m h = (h1, Raise e) -> bind m k h = (h1, Raise e).
Proof. intros H. unfold bind. rewrite H. reflexivity. Qed.

Lemma realizeLoop_single ks lb e s (h h1 : store Note) src r :
  h !! s = Some src -> expressions src = [e] -> hasRealize e = true ->
  realize e s ks false h = (h1, r) ->
  realizeLoop (S lb) ks s [] [] h
  = match r with
    | Raise x => (h1, Raise x)
    | Ok (pre, None, post) => (h1, Ok (mkLoopState pre None post lb))
    | Ok (pre, Some new, post) =>
        match h1 !! new with
        | Some nr => (<[new := set_expressions [] nr]> h1,
                      Ok (mkLoopState pre (Some new) post lb))
        | None => (h1, Raise InvalidReference)
        end
    end.
Proof.
  intros Hs Ex Hr Hrun.
  rewrite realizeLoop_S, (run_read _ _ _ _ _ Hs), Ex, Hr.
  destruct r as [[[pre main] post]|x];
    [rewrite (run_Ok _ _ _ _ _ Hrun) | apply (run_Raise _ _ _ _ _ Hrun)].
  rewrite !appendAll_app. cbn [app].
  destruct main as [new|]; [|reflexivity].
  assert (s < length h) as Hlt by (eapply lookup_lt_Some, Hs).
  pose proof (writesOnlyFresh_lookup _ _ h s
                (realize_fresh (length h) e s ks) Hlt) as Hsame.
  rewrite Hrun, Hs in Hsame. cbn [fst] in Hsame.
  rewrite (run_read _ _ _ _ _ Hsame), Ex. cbn [skipn].
  destruct (h1 !! new) as [nr|] eqn:Hnew.
  - rewrite (run_setExpressions _ _ _ _ _ _ Hnew).
    assert (<[new := set_expressions [] nr]> h1 !! new
            = Some (set_expressions [] nr)) as Hnew'
      by (apply list_lookup_insert_eq; eapply lookup_lt_Some, Hnew).
    rewrite (run_read _ _ _ _ _ Hnew'). reflexivity.
  - unfold setExpressions, modify, bind. rewrite Hnew. reflexivity.
Qed.

(** X2. On an event with one expression that can be realized,
    [realizeOrnaments] is [realize] out of place, followed by taking the
    expression from the main note that [realize] returned: an exception of
    [realize] is passed on as it is; otherwise the result is the notes
    before, the main note unless it is [None], and the notes after, and
    the main note in the result has no expression left. *)
Theorem realizeOrnaments_single_ornament (e : Expression) (s : loc)
  (ks : option key.KeySignature) (h h1 : store Note) (src : Note)
  (r : Result Realization) :
  h !! s = Some src -> expressions src = [e] -> hasRealize e = true ->
  realize e s ks false h = (h1, r) ->
  match r with
  | Raise x => realizeOrnaments s ks h = (h1, Raise x)
  | Ok (pre, None, post) => realizeOrnaments s ks h = (h1, Ok (pre ++ post))
  | Ok (pre, Some new, post) =>
      exists nr, h1 !! new = Some nr
        /\ realizeOrnaments s ks h
           = (<[new := set_expressions [] nr]> h1, Ok (pre ++ [new] ++ post))
  end.
Proof.
  intros Hs Ex Hr Hrun.
  assert (realizeOrnaments s ks h
          = (st <- realizeLoop 100 ks s [] [] ;; ret (retList st)) h) as ->.
  { unfold realizeOrnaments. rewrite (run_read _ _ _ _ _ Hs), Ex. reflexivity. }
  pose proof (realizeLoop_single ks 99 e s h h1 src r Hs Ex Hr Hrun) as HL.
  change (S 99) with 100 in HL.
  destruct r as [[[pre main] post]|x].
  - destruct main as [new|].
    + destruct (realize_main e s ks h h1 src pre new post Hs Hrun) as (nr & Hnr & _).
      exists nr. split; [exact Hnr|]. rewrite Hnr in HL.
      rewrite (run_Ok _ _ _ _ _ HL). unfold ret. rewrite retList_app. reflexivity.
    + rewrite (run_Ok _ _ _ _ _ HL). unfold ret. rewrite retList_app. reflexivity.
  - apply (run_Raise _ _ _ _ _ HL).
Qed.

Lemma realizeOrnaments_single_ornament_witness :
  let t := Turn.init Turn_ (DelayEnum DEFAULT_DELAY) "" "" in
  let src := mkNote (Some C4) 1 [ETurn t] None in
  exists h1 nr,
    h1 !! 5%nat = Some nr
    /\ realizeOrnaments 0%nat None [src]
       = (<[5%nat := set_expressions [] nr]> h1, Ok ([] ++ [5%nat] ++ [1; 2; 3; 4]%nat)).
Proof.
  intros t src.
  pose proof (realizeOrnaments_single_ornament (ETurn t) 0%nat None [src]
                (fst (realize (ETurn t) 0%nat None false [src])) src
                (Ok ([], Some 5%nat, [1; 2; 3; 4]%nat))
                eq_refl eq_refl eq_refl eq_refl) as (nr & H1 & H2).
  eexists _, nr. split; [exact H1 | exact H2].
Defined.

(* ===================================================================== *)
(** ** Runs of the operations on the store *)
(* ===================================================================== *)

Lemma run_deepcopy (l : loc) (h : store Note) (o : Note) A (k : loc -> M Note A) :
  h !! l = Some o -> bind (deepcopy l) k h = k (length h) (h ++ [o]).
Proof. intros H. unfold deepcopy, bind, read, alloc. rewrite H. reflexivity. Qed.

Lemma run_setQuarterLength (l : loc) q (h : store Note) (o : Note) A
  (k : unit -> M Note A) :
  h !! l = Some o ->
  bind (setQuarterLength l q) k h = k tt (<[l := set_quarterLength q o]> h).
Proof. apply run_modify. Qed.

Lemma run_popExpression (l : loc) i (h : store Note) (o : Note) A
  (k : unit -> M Note A) :
  h !! l = Some o ->
  bind (popExpression l i) k h
  = k tt (<[l := set_expressions (delete i (expressions o)) o]> h).
Proof. apply (run_modify l (fun n => set_expressions (delete i (expressions n)) n)). Qed.

Lemma run_removeExpression (l : loc) x (h : store Note) (o : Note) A
  (k : unit -> M Note A) :
  h !! l = Some o ->
  bind (removeExpression l x) k h
  = k tt (<[l := set_expressions (remove_first x (expressions o)) o]> h).
Proof.
  apply (run_modify l (fun n => set_expressions (remove_first x (expressions n)) n)).
Qed.

Lemma run_transpose (l : loc) i (h : store Note) (o : Note) p A
  (k : unit -> M Note A) :
  h !! l = Some o -> pitch o = Some p ->
  bind (transpose l i) k h
  = k tt (<[l := set_pitch (Some (interval.transposePitch i p)) o]> h).
Proof.
  intros H Hp. unfold transpose, bind, read, modify. rewrite H, Hp, H.
  reflexivity.
Qed.


Lemma lookup_snoc {X} (h : list X) (x : X) : (h ++ [x]) !! length h = Some x.
Proof. apply list_lookup_middle. reflexivity. Qed.

Lemma lookup_old {X} (h t : list X) l x : h !! l = Some x -> (h ++ t) !! l = Some x.
Proof. intros H. rewrite lookup_app_l; [exact H | eapply lookup_lt_Some, H]. Qed.

Lemma insert_snoc {X} (h : list X) (x y : X) :
  <[length h := y]> (h ++ [x]) = h ++ [y].
Proof. apply snoc_insert. reflexivity. Qed.

(* ===================================================================== *)
(** ** The appoggiatura *)
(* ===================================================================== *)

Lemma Qred_half_sum d : (Qred (d / 2) + Qred (d / 2) == d)%Q.
Proof. rewrite !Qred_correct. pose proof (Qdiv2 d). lra. Qed.

(** X3. An appoggiatura of known direction on a pitched event of a
    duration other than zero always returns: one note before the main
    note and none after it. Both notes last half of the event. The note
    before has the pitch of the event moved by the size of the
    appoggiatura, upwards when the direction is down (it then resolves
    downwards) and downwards when the direction is up, and keeps all the
    expressions of the event; the main note keeps the pitch and loses the
    appoggiatura. In place the main note is the event itself. The key
    signature passed plays no part. *)
Theorem Appoggiatura_realize_result (a : AppoggiaturaObj) (l : loc)
  (ks : option key.KeySignature) (inPlace : bool) (h : store Note) (src : Note)
  (p : Pitch) (theSize : interval.Interval) :
  h !! l = Some src -> pitch src = Some p ->
  GeneralAppoggiatura.directionKnown a = true -> size a = Some theSize ->
  ~ (quarterLength src == 0)%Q ->
  let half := Qred (quarterLength src / 2) in
  let transposeInterval :=
    if String.eqb (GeneralAppoggiatura.direction (appoggiaturaClass a)) "down"
    then theSize else interval.reverse theSize in
  let grace := mkNote (Some (interval.transposePitch transposeInterval p)) half
                 (expressions src) (contextKeySig src) in
  let main := mkNote (Some p) half
                (remove_first (EAppoggiatura a) (expressions src))
                (contextKeySig src) in
  GeneralAppoggiatura.realize a l ks inPlace h
  = (if inPlace then (<[l := main]> (h ++ [grace]), Ok ([length h], Some l, []))
     else (h ++ [grace; main], Ok ([length h], Some (S (length h)), [])))
  /\ (half + half == quarterLength src)%Q.
Proof.
  intros Hl Hp Hdir Hsize Hq half transposeInterval grace main.
  split; [|apply Qred_half_sum].
  unfold GeneralAppoggiatura.realize.
  rewrite (run_read _ _ _ _ _ Hl), Hdir, Hsize. cbn [negb].
  destruct (Qeq_bool (quarterLength src) 0) eqn:Hz;
    [apply Qeq_bool_iff in Hz; contradiction|].
  rewrite (run_deepcopy _ _ _ _ _ Hl).
  rewrite (run_setQuarterLength _ _ _ _ _ _ (lookup_snoc h src)), insert_snoc.
  rewrite (run_transpose _ _ _ (set_quarterLength (quarterLength src / 2) src) p
             _ _ (lookup_snoc h _) Hp), insert_snoc.
  fold transposeInterval.
  change (set_pitch _ (set_quarterLength _ src)) with grace.
  rewrite (run_read _ _ _ _ _ (lookup_old h [grace] l src Hl)).
  destruct inPlace; cbn [negb].
  - change (bind (ret l) ?k) with (k l). cbv beta.
    rewrite (run_setQuarterLength _ _ _ _ _ _ (lookup_old h [grace] l src Hl)).
    assert (l < length (h ++ [grace])) as Hlt.
    { rewrite length_app. apply lookup_lt_Some in Hl. lia. }
    unfold main. rewrite <- (delete_index_of (EAppoggiatura a) (expressions src)).
    destruct (index_of (EAppoggiatura a) (expressions src)) as [i|].
    + rewrite (run_popExpression _ _ _ _ _ _ (list_lookup_insert_eq _ _ _ Hlt)).
      rewrite list_insert_insert_eq.
      unfold ret, set_expressions, set_quarterLength.
      cbn [pitch quarterLength expressions contextKeySig]. rewrite Hp. reflexivity.
    + unfold bind, ret, set_quarterLength. rewrite Hp. reflexivity.
  - rewrite (remainder_copy_run (h ++ [grace]) l src _ (EAppoggiatura a)
               (fun x => ([length h], Some x, [])) (lookup_old h [grace] l src Hl)).
    rewrite <- app_assoc, length_app, Hp. cbn [app length].
    rewrite Nat.add_1_r. reflexivity.
Qed.

Lemma Appoggiatura_realize_result_witness :
  let a := GeneralAppoggiatura.init Appoggiatura_ in
  let src := mkNote (Some C4) (1 # 2) [EAppoggiatura a] None in
  GeneralAppoggiatura.realize a 0%nat None false [src]
  = ([src; mkNote (Some (mkPitch sD 4 None)) (1 # 4) [EAppoggiatura a] None;
      mkNote (Some C4) (1 # 4) [] None],
     Ok ([1%nat], Some 2%nat, [])).
Proof.
  intros a src.
  refine (eq_trans
            (proj1 (Appoggiatura_realize_result a 0%nat None false [src] src C4
                      interval.M2 eq_refl eq_refl eq_refl eq_refl _)) _).
  - intros H. discriminate H.
  - reflexivity.
Defined.

(* ===================================================================== *)
(** ** The tremolo *)
(* ===================================================================== *)

Lemma splitLoop_eq fuel len e acc :
  Tremolo.splitLoop fuel len e acc
  = (n <- read e ;;
     if Qlt_bool len (quarterLength n) then
       match fuel with
       | O => raise OutOfFuel
       | S fuel' =>
           split <- splitAtQuarterLength e len ;;
           let '(addNote, eRemain) := split in
           Tremolo.splitLoop fuel' len eRemain (acc ++ [addNote])
       end
     else ret (acc, e)).
Proof. destruct fuel; reflexivity. Qed.

Lemma note_eta n :
  mkNote (pitch n) (quarterLength n) (expressions n) (contextKeySig n) = n.
Proof. destruct n. reflexivity. Qed.

(** The loop of [Tremolo.realize], given the rounds it needs: it cuts
    notes of [len] off the event as long as what is left is longer than
    [len]. *)
Lemma splitLoop_run len : (0 < len)%Q ->
  forall fuel e acc (h : store Note) n,
  h !! e = Some n -> Tremolo.roundsFor len (quarterLength n) <= fuel ->
  exists t firsts last q',
    Tremolo.splitLoop fuel len e acc h = (h ++ t, Ok (acc ++ firsts, last))
    /\ (h ++ t) !! last
       = Some (mkNote (pitch n) q' (expressions n) (contextKeySig n))
    /\ Forall (fun x => (h ++ t) !! x = Some (set_quarterLength len n)) firsts
    /\ (q' <= len)%Q
    /\ (inject_Z (Z.of_nat (length firsts)) * len + q' == quarterLength n)%Q
    /\ ((0 < quarterLength n)%Q -> (0 < q')%Q)
    /\ ((quarterLength n <= len)%Q -> firsts = [] /\ last = e /\ t = []).
Proof.
  intros Hlen. induction fuel as [|fuel IH]; intros e acc h n He Hfuel;
    rewrite splitLoop_eq, (run_read _ _ _ _ _ He);
    (destruct (Qlt_bool len (quarterLength n)) eqn:E;
     [apply Qlt_bool_iff in E | apply Qlt_bool_false in E]).
  - pose proof (roundsFor_step len _ Hlen E). lia.
  - exists [], [], e, (quarterLength n). rewrite !app_nil_r, note_eta.
    repeat split;
      try (exact He || constructor || lra || reflexivity
           || (change (inject_Z (Z.of_nat (length (@nil nat)))) with 0%Q; lra)).
  - unfold bind at 1. rewrite (splitAtQuarterLength_run _ _ _ _ He).
    set (a := set_quarterLength len n).
    set (b := set_quarterLength (quarterLength n - len) n).
    assert ((h ++ [a; b]) !! S (length h) = Some b) as Hb.
    { replace (S (length h)) with (length h + 1) by lia.
      apply lookup_app_plus; reflexivity. }
    destruct (IH (S (length h)) (acc ++ [length h]) (h ++ [a; b]) b Hb)
      as (t & firsts & last & q' & Hrun & Hlast & Hfirsts & Hq1 & Hq2 & Hq3 & _).
    { pose proof (roundsFor_step len _ Hlen E). cbn [b quarterLength set_quarterLength].
      lia. }
    exists ([a; b] ++ t), (length h :: firsts), last, q'.
    assert (h ++ [a; b] ++ t = (h ++ [a; b]) ++ t) as -> by apply app_assoc.
    assert (acc ++ length h :: firsts = (acc ++ [length h]) ++ firsts) as ->
      by (rewrite <- app_assoc; reflexivity).
    split; [exact Hrun|].
    split; [exact Hlast|].
    split.
    { constructor; [|exact Hfirsts].
      rewrite <- !app_assoc. apply list_lookup_middle. reflexivity. }
    split; [exact Hq1|].
    cbn [b quarterLength set_quarterLength] in Hq2, Hq3.
    pose proof (Qred_correct (quarterLength n - len)) as Hr.
    split.
    { cbn [length]. rewrite Nat2Z.inj_succ. unfold Z.succ.
      rewrite inject_Z_plus. change (inject_Z 1) with 1%Q.
      rewrite Hr in Hq2. lra. }
    split.
    { intros _. apply Hq3. rewrite Hr. lra. }
    intros Hle. exfalso. lra.
  - exists [], [], e, (quarterLength n). rewrite !app_nil_r, note_eta.
    repeat split;
      try (exact He || constructor || lra || reflexivity
           || (change (inject_Z (Z.of_nat (length (@nil nat)))) with 0%Q; lra)).
Qed.

Lemma remove_first_notin x l : isIn x l = false -> remove_first x l = l.
Proof.
  unfold isIn. induction l as [|y l IH]; simpl; [reflexivity|].
  destruct (decide (x = y)); [discriminate|].
  destruct (index_of x l); [discriminate|]. intros _. rewrite IH; reflexivity.
Qed.

Lemma ceiling_count (k : Z) (len q' d : Q) :
  (0 < len)%Q -> (0 < q')%Q -> (q' <= len)%Q ->
  (inject_Z k * len + q' == d)%Q ->
  Qceiling (d / len) = (k + 1)%Z.
Proof.
  intros Hlen Hq1 Hq2 Hd. set (x := (d / len)%Q).
  assert (Hx : (x * len == d)%Q) by (unfold x; field; lra).
  assert (H1 : (inject_Z k < x)%Q).
  { apply (Qmult_lt_r _ _ len Hlen). rewrite Hx. lra. }
  assert (H2 : (x <= inject_Z (k + 1))%Q).
  { apply (Qmult_le_r _ _ len Hlen). rewrite Hx, inject_Z_plus.
    change (inject_Z 1) with 1%Q. lra. }
  pose proof (Qle_ceiling x) as Hc.
  apply Qceiling_resp_le in H2. rewrite Qceiling_Z in H2.
  assert (inject_Z k < inject_Z (Qceiling x))%Q as Hlt
    by (eapply Qlt_le_trans; [exact H1 | exact Hc]).
  rewrite <- Zlt_Qlt in Hlt. lia.
Qed.

(** The event as [Tremolo.realize] hands it to its loop *)
Lemma Tremolo_realize_start t l ks (inPlace : bool) (h : store Note) src :
  h !! l = Some src ->
  let src' := set_expressions (remove_first (ETremolo t) (expressions src)) src in
  let h0 : list Note := if inPlace then <[l := src']> h else h ++ [src'] in
  let e := if inPlace then l else length h in
  h0 !! e = Some src'
  /\ Tremolo.realize t l ks inPlace h
     = (looped <- Tremolo.splitLoop
                    (Tremolo.roundsFor (Tremolo.lengthOfEach t) (quarterLength src))
                    (Tremolo.lengthOfEach t) e [] ;;
        let '(objsConverted, eRemain) := looped in
        ret (objsConverted ++ [eRemain], None, [])) h0.
Proof.
  intros Hl src' h0 e. unfold Tremolo.realize.
  assert (l < length h) as Hlt by (eapply lookup_lt_Some, Hl).
  destruct inPlace; cbn [negb]; subst h0 e.
  - split; [apply list_lookup_insert_eq, Hlt|].
    change (bind (ret l) ?k) with (k l). cbv beta.
    rewrite (run_read _ _ _ _ _ Hl).
    destruct (isIn (ETremolo t) (expressions src)) eqn:Hin.
    + rewrite (run_removeExpression _ _ _ _ _ _ Hl). reflexivity.
    + change (bind (ret tt) ?k) with (k tt). cbv beta.
      unfold src'. rewrite (remove_first_notin _ _ Hin), set_expressions_same.
      rewrite list_insert_id by exact Hl. reflexivity.
  - split; [apply lookup_snoc|].
    rewrite (run_deepcopy _ _ _ _ _ Hl), (run_read _ _ _ _ _ (lookup_snoc h src)).
    destruct (isIn (ETremolo t) (expressions src)) eqn:Hin.
    + rewrite (run_removeExpression _ _ _ _ _ _ (lookup_snoc h src)), insert_snoc.
      reflexivity.
    + change (bind (ret tt) ?k) with (k tt). cbv beta.
      unfold src'. rewrite (remove_first_notin _ _ Hin), set_expressions_same.
      reflexivity.
Qed.

(** X4. [Tremolo.realize] returns for every event, whatever its duration
    and whether it has a pitch or not, and raises nothing: the notes come
    in the first list, the main note is [None], the last list is empty.
    All notes but the last are as long as
    [lengthOfEach], the last is no longer than that, and when the event
    has a positive duration so has the last note. The durations add up to
    the duration of the event, and for a positive duration the number of
    notes is that duration over [lengthOfEach], rounded up. An event no
    longer than [lengthOfEach] comes back as one note. *)
Theorem Tremolo_realize_result (t : TremoloObj) (l : loc)
  (ks : option key.KeySignature) (inPlace : bool) (h : store Note) (src : Note) :
  h !! l = Some src ->
  let len := Tremolo.lengthOfEach t in
  exists h' firsts last q',
    Tremolo.realize t l ks inPlace h = (h', Ok (firsts ++ [last], None, []))
    /\ (forall x, x ∈ firsts -> durationAt h' x = Some (Qred len))
    /\ durationAt h' last = Some q'
    /\ (q' <= len)%Q
    /\ ((0 < quarterLength src)%Q -> (0 < q')%Q)
    /\ (inject_Z (Z.of_nat (length firsts)) * len + q' == quarterLength src)%Q
    /\ ((0 < quarterLength src)%Q ->
        Z.of_nat (length (firsts ++ [last])) = Qceiling (quarterLength src / len))
    /\ ((quarterLength src <= len)%Q -> firsts = []).
Proof.
  intros Hl len.
  destruct (Tremolo_realize_start t l ks inPlace h src Hl) as [He Hrun].
  pose proof (lengthOfEach_positive t) as Hlen. fold len in Hlen, Hrun.
  destruct (splitLoop_run len Hlen
              (Tremolo.roundsFor len (quarterLength src))
              _ [] _ _ He (le_n _))
    as (tl & firsts & last & q' & Hloop & Hlast & Hfirsts & Hq1 & Hq2 & Hq3 & Hq4).
  cbn [quarterLength set_expressions] in Hq2, Hq3, Hq4.
  rewrite (run_Ok _ _ _ _ _ Hloop) in Hrun. cbn [app] in Hrun.
  eexists _, firsts, last, q'. split; [exact Hrun|].
  split.
  { intros x Hx. rewrite Forall_forall in Hfirsts.
    unfold durationAt. rewrite (Hfirsts x Hx). reflexivity. }
  split; [unfold durationAt; rewrite Hlast; reflexivity|].
  split; [exact Hq1|]. split; [exact Hq3|]. split; [exact Hq2|].
  split.
  - intros Hpos. rewrite length_app. cbn [length].
    rewrite (ceiling_count (Z.of_nat (length firsts)) len q' _ Hlen (Hq3 Hpos) Hq1 Hq2).
    lia.
  - intros Hle. apply Hq4, Hle.
Qed.

Lemma Tremolo_realize_result_witness :
  let src := mkNote (Some C4) 1 [ETremolo Tremolo.init] None in
  exists h' firsts last q',
    Tremolo.realize Tremolo.init 0%nat None false [src]
    = (h', Ok (firsts ++ [last], None, []))
    /\ (inject_Z (Z.of_nat (length firsts)) * (1 # 8) + q' == 1)%Q
    /\ Z.of_nat (length (firsts ++ [last])) = 8%Z.
Proof.
  intros src.
  destruct (Tremolo_realize_result Tremolo.init 0%nat None false [src] src eq_refl)
    as (h' & firsts & last & q' & H1 & _ & _ & _ & _ & H2 & H3 & _).
  exists h', firsts, last, q'. split; [exact H1|]. split; [exact H2|].
  apply H3. reflexivity.
Defined.

(* ===================================================================== *)
(** ** The mordent *)
(* ===================================================================== *)

Lemma run_setAccidental (l : loc) a (h : store Note) (o : Note) p A
  (k : unit -> M Note A) :
  h !! l = Some o -> pitch o = Some p ->
  bind (setAccidental l a) k h
  = k tt (<[l := set_pitch (Some (withAccidental p a)) o]> h).
Proof.
  intros H Hp. unfold setAccidental, bind, read, modify. rewrite H, Hp, H.
  reflexivity.
Qed.


Lemma lookup_snoc2 {X} (h : list X) (x y : X) :
  (h ++ [x; y]) !! S (length h) = Some y.
Proof.
  replace (S (length h)) with (length h + 1) by lia.
  apply lookup_app_plus; reflexivity.
Qed.

Lemma insert_snoc2 {X} (h : list X) (x y z : X) :
  <[S (length h) := z]> (h ++ [x; y]) = h ++ [x; z].
Proof.
  replace (h ++ [x; y]) with ((h ++ [x]) ++ [y]) by (rewrite <- app_assoc; reflexivity).
  replace (S (length h)) with (length (h ++ [x])) by (rewrite length_app; simpl; lia).
  rewrite insert_snoc, <- app_assoc. reflexivity.
Qed.

Lemma fillListOfRealizedNotes_run ql l acc i q (h : store Note) src p :
  h !! l = Some src -> pitch src = Some p ->
  Ornament.fillListOfRealizedNotes ql l acc i (Some q) h
  = (h ++ [set_quarterLength q src;
           set_pitch (Some (interval.transposePitch i p)) (set_quarterLength q src)],
     Ok (acc ++ [length h; S (length h)])).
Proof.
  intros Hl Hp. unfold Ornament.fillListOfRealizedNotes.
  rewrite (run_read _ _ _ _ _ Hl), Hp.
  rewrite (run_deepcopy _ _ _ _ _ Hl).
  rewrite (run_setQuarterLength _ _ _ _ _ _ (lookup_snoc h src)), insert_snoc.
  rewrite (run_deepcopy _ _ _ _ _ (lookup_old h [_] l src Hl)).
  rewrite length_app. cbn [length]. rewrite Nat.add_1_r, <- app_assoc. cbn [app].
  rewrite (run_setQuarterLength _ _ _ _ _ _ (lookup_snoc2 h _ src)), insert_snoc2.
  rewrite (run_transpose _ _ _ (set_quarterLength q src) p _ _ (lookup_snoc2 h _ _) Hp),
    insert_snoc2.
  reflexivity.
Qed.




(* ===================================================================== *)
(** ** Events too short, and events without pitch *)
(* ===================================================================== *)

Lemma Qle_bool_true x y : (x <= y)%Q -> Qle_bool x y = true.
Proof. apply Qle_bool_iff. Qed.

Lemma Qeq_bool_false x y : ~ (x == y)%Q -> Qeq_bool x y = false.
Proof.
  intros H. destruct (Qeq_bool x y) eqn:E; [|reflexivity].
  apply Qeq_bool_iff in E. contradiction.
Qed.

Lemma Qlt_bool_true x y : (x < y)%Q -> Qlt_bool x y = true.
Proof. apply Qlt_bool_iff. Qed.

Lemma Qlt_bool_false_of x y : (y <= x)%Q -> Qlt_bool x y = false.
Proof. apply Qlt_bool_false. Qed.

(** X6. With [autoScale] off, [realize] refuses a pitched event of a
    duration other than zero that is too short, and leaves the store as it
    is: a mordent (of known direction) when the event is no longer than
    two of its notes, a trill when the event is shorter than two of its
    notes, a trill with nachschlag when the event is shorter than four of
    them, a turn when [turnDuration], as Python holds it, is shorter than
    four of its notes. That number is what is left of the event after the
    delay when the delay is the default one, and when there is no delay
    and the duration is held as a float. *)
Theorem too_short_without_autoScale (l : loc) (ks : option key.KeySignature)
  (inPlace : bool) (h : store Note) (src : Note) :
  h !! l = Some src -> pitch src <> None -> ~ (quarterLength src == 0)%Q ->
  (forall m, GeneralMordent.directionKnown m = true ->
     mordent_autoScale m = false ->
     (quarterLength src <= mordent_quarterLength m * 2)%Q ->
     GeneralMordent.realize m l ks inPlace h
     = (h, Raise (ExpressionException
                    "The note is not long enough to realize a mordent")))
  /\ (forall t, trill_autoScale t = false ->
        (quarterLength src < 2 * trill_quarterLength t)%Q ->
        Trill.realize t l ks inPlace h
        = (h, Raise (ExpressionException
                       "The note is not long enough to realize a trill")))
  /\ (forall t, trill_autoScale t = false -> nachschlag t = true ->
        (2 * trill_quarterLength t <= quarterLength src)%Q ->
        (quarterLength src < 4 * trill_quarterLength t)%Q ->
        Trill.realize t l ks inPlace h
        = (h, Raise (ExpressionException
                       "The note is not long enough for a nachschlag")))
  /\ (forall t, turn_autoScale t = false ->
        (Turn.turnDuration t (quarterLength src) < 4 * turn_quarterLength t)%Q ->
        Turn.realize t l ks inPlace h
        = (h, Raise (ExpressionException
                       "The note is not long enough to realize a turn")))
  /\ (forall t, turn_autoScale t = false ->
        turn_delay t = DelayEnum DEFAULT_DELAY
        \/ (turn_delay t = DelayEnum NO_DELAY /\ heldAsFloat (quarterLength src)) ->
        (quarterLength src - Turn.remainderDuration t (quarterLength src)
         < 4 * turn_quarterLength t)%Q ->
        Turn.realize t l ks inPlace h
        = (h, Raise (ExpressionException
                       "The note is not long enough to realize a turn"))).
Proof.
  intros Hl Hp Hq.
  destruct (pitch src) as [p|] eqn:Ep; [clear Hp | contradiction].
  assert (Hturn : forall t, turn_autoScale t = false ->
            (Turn.turnDuration t (quarterLength src)
             < 4 * turn_quarterLength t)%Q ->
            Turn.realize t l ks inPlace h
            = (h, Raise (ExpressionException
                           "The note is not long enough to realize a turn"))).
  { intros t Hscale Hshort. unfold Turn.realize.
    rewrite (run_read _ _ _ _ _ Hl), Ep.
    rewrite bool_decide_eq_false_2 by discriminate.
    rewrite (Qeq_bool_false _ _ Hq). unfold Turn.turnLengths.
    rewrite (Qlt_bool_true _ _ Hshort), Hscale. reflexivity. }
  split; [|split; [|split; [|split]]].
  - intros m Hdir Hscale Hshort. unfold GeneralMordent.realize.
    rewrite (run_read _ _ _ _ _ Hl), Hdir, (Qeq_bool_false _ _ Hq), Ep.
    rewrite bool_decide_eq_false_2 by discriminate.
    rewrite (Qle_bool_true _ _ Hshort), Hscale. reflexivity.
  - intros t Hscale Hshort. unfold Trill.realize.
    rewrite (run_read _ _ _ _ _ Hl), Ep. unfold Trill.effectiveQL.
    rewrite (Qeq_bool_false _ _ Hq), (Qlt_bool_true _ _ Hshort), Hscale.
    reflexivity.
  - intros t Hscale Hn Hge Hshort. unfold Trill.realize.
    rewrite (run_read _ _ _ _ _ Hl), Ep. unfold Trill.effectiveQL.
    rewrite (Qeq_bool_false _ _ Hq), (Qlt_bool_false_of _ _ Hge),
      (Qlt_bool_true _ _ Hshort), Hn, Hscale.
    reflexivity.
  - exact Hturn.
  - intros t Hscale Hexact Hshort. apply Hturn; [exact Hscale|].
    destruct Hexact as [Hd | [Hd Hf]].
    + rewrite (turnDuration_default_delay t _ Hd). exact Hshort.
    + rewrite (turnDuration_no_delay t _ Hd).
      unfold Turn.remainderDuration in Hshort. rewrite Hd in Hshort.
      unfold heldAsFloat in Hf. rewrite Hf. lra.
Qed.

Lemma too_short_without_autoScale_witness :
  let t := mkTrill HalfStepTrill_ "" false (PyFloat (1 # 8)) false in
  let src := mkNote (Some C4) (1 # 32) [ETrill t] None in
  let turn := Turn.set_autoScale
                (Turn.set_quarterLength
                   (Turn.init Turn_ (DelayEnum NO_DELAY) "" "") (1 # 12))
                false in
  let third := mkNote (Some C4) (1 # 3) [ETurn turn] None in
  Trill.realize t 0%nat None false [src]
  = ([src], Raise (ExpressionException
                     "The note is not long enough to realize a trill"))
  /\ (Turn.turnDuration turn (1 # 3) < 1 # 3)%Q
  /\ Turn.realize turn 0%nat None false [third]
     = ([third], Raise (ExpressionException
                          "The note is not long enough to realize a turn")).
Proof.
  intros t src turn third. split; [|split].
  - refine (proj1 (proj2 (too_short_without_autoScale 0%nat None false [src] src
                            eq_refl _ _)) t eq_refl eq_refl).
    + discriminate.
    + intros H. discriminate H.
  - vm_compute. reflexivity.
  - refine (proj1 (proj2 (proj2 (proj2
              (too_short_without_autoScale 0%nat None false [third] third
                 eq_refl _ _)))) turn eq_refl _).
    + discriminate.
    + intros H. discriminate H.
    + vm_compute. reflexivity.
Defined.

(** X7. Events without pitch. A trill and a turn refuse such an event
    before they look at anything else; a mordent of known direction
    refuses it once the duration is seen not to be zero. The size of a
    mordent of known direction, of a trill and of a turn cannot be
    computed for it, unless the class fixes the size. Each time the
    exception is a [TypeError], and [realize] leaves the store as it
    is. *)
Theorem unpitched_event_TypeError (l : loc) (ks : option key.KeySignature)
  (inPlace : bool) (h : store Note) (src : Note) :
  h !! l = Some src -> pitch src = None ->
  (forall t, Trill.realize t l ks inPlace h
             = (h, Raise (TypeError "Cannot realize trill with an unpitched srcObj")))
  /\ (forall t, Turn.realize t l ks inPlace h
                = (h, Raise (TypeError "Cannot realize turn with Unpitched srcObj")))
  /\ (forall m, GeneralMordent.directionKnown m = true ->
        ~ (quarterLength src == 0)%Q ->
        GeneralMordent.realize m l ks inPlace h
        = (h, Raise (TypeError "Cannot realize a mordent with an unpitched srcObj")))
  /\ (forall m, GeneralMordent.directionKnown m = true ->
        GeneralMordent.isFixedStep (mordentClass m) = false ->
        GeneralMordent.getSize m src ks
        = Raise (TypeError "Cannot compute mordent size with an unpitched srcObj"))
  /\ (forall t, Trill.isFixedStep (trillClass t) = false ->
        Trill.getSize t src ks
        = Raise (TypeError "Cannot compute trill's size with an unpitched srcObj"))
  /\ (forall t which,
        String.eqb which "upper" || String.eqb which "lower" = true ->
        Turn.getSize t src ks which
        = Raise (TypeError "Cannot compute Turn size with an unpitched srcObj")).
Proof.
  intros Hl Hp. repeat apply conj.
  - intros t. unfold Trill.realize. rewrite (run_read _ _ _ _ _ Hl), Hp. reflexivity.
  - intros t. unfold Turn.realize. rewrite (run_read _ _ _ _ _ Hl), Hp. reflexivity.
  - intros m Hdir Hq. unfold GeneralMordent.realize.
    rewrite (run_read _ _ _ _ _ Hl), Hdir, (Qeq_bool_false _ _ Hq), Hp. reflexivity.
  - intros m Hdir Hfix. unfold GeneralMordent.getSize. rewrite Hdir, Hp.
    destruct (mordentClass m); try discriminate Hfix; reflexivity.
  - intros t Hfix. unfold Trill.getSize. rewrite Hp.
    destruct (trillClass t); try discriminate Hfix; reflexivity.
  - intros t which Hw. unfold Turn.getSize. rewrite Hw, Hp. reflexivity.
Qed.

Lemma unpitched_event_TypeError_witness :
  let t := Turn.init Turn_ (DelayEnum NO_DELAY) "" "" in
  let rest := mkNote None 1 [ETurn t] None in
  Turn.realize t 0%nat None false [rest]
  = ([rest], Raise (TypeError "Cannot realize turn with Unpitched srcObj")).
Proof.
  intros t rest.
  exact (proj1 (proj2 (unpitched_event_TypeError 0%nat None false [rest] rest
                         eq_refl eq_refl)) t).
Defined.

(* ===================================================================== *)
(** ** The exceptions that a computation can raise *)
(* ===================================================================== *)

Section RaisesOnly.
Variable P : Exception -> Prop.
Hypothesis P_InvalidReference : P InvalidReference.
Hypothesis P_AttributeError : forall s, P (AttributeError s).

Lemma only_ret {A} (a : A) : raisesOnly P (ret a).
Proof. intros h e. discriminate. Qed.

Lemma only_raise {A} e : P e -> raisesOnly P (@raise Note A e).
Proof. intros He h e' [= <-]. exact He. Qed.

Lemma only_bind {A B} (m : M Note A) (k : A -> M Note B) :
  raisesOnly P m -> (forall a, raisesOnly P (k a)) -> raisesOnly P (bind m k).
Proof.
  intros Hm Hk h e. unfold bind. specialize (Hm h).
  destruct (m h) as [h1 [a|e1]]; simpl in *; [apply Hk|].
  intros [= <-]. apply Hm. reflexivity.
Qed.

Lemma only_read l : raisesOnly P (read l).
Proof.
  intros h e. unfold read. destruct (h !! l); [discriminate|].
  intros [= <-]. exact P_InvalidReference.
Qed.

Lemma only_modify l f : raisesOnly P (modify l f).
Proof.
  intros h e. unfold modify. destruct (h !! l); [discriminate|].
  intros [= <-]. exact P_InvalidReference.
Qed.

Lemma only_alloc o : raisesOnly P (alloc o).
Proof. intros h e. discriminate. Qed.

Lemma only_deepcopy l : raisesOnly P (deepcopy l).
Proof.
  unfold deepcopy. apply only_bind; [apply only_read | intros o; apply only_alloc].
Qed.

Lemma only_liftR {A} (r : Result A) : resultRaisesOnly P r -> raisesOnly P (liftR r).
Proof.
  destruct r as [a|e]; intros H; [apply only_ret | apply only_raise, H; reflexivity].
Qed.

Lemma only_transpose l i : raisesOnly P (transpose l i).
Proof.
  unfold transpose. apply only_bind; [apply only_read|]. intros o.
  destruct (pitch o); [apply only_modify | apply only_raise, P_AttributeError].
Qed.

Lemma only_setAccidental l a : raisesOnly P (setAccidental l a).
Proof.
  unfold setAccidental. apply only_bind; [apply only_read|]. intros o.
  destruct (pitch o); [apply only_modify | apply only_raise, P_AttributeError].
Qed.

Lemma only_forEach {X} (xs : list X) (body : X -> M Note unit) :
  (forall x, raisesOnly P (body x)) -> raisesOnly P (forEach xs body).
Proof.
  intros Hb. induction xs as [|x xs IH]; simpl.
  - apply only_ret.
  - apply only_bind; [apply Hb | intros _; exact IH].
Qed.

Lemma only_repeatM {A} k (body : A -> M Note A) :
  (forall acc, raisesOnly P (body acc)) ->
  forall acc, raisesOnly P (repeatM k body acc).
Proof.
  intros Hb. induction k as [|k IH]; intros acc; simpl.
  - apply only_ret.
  - apply only_bind; [apply Hb | exact IH].
Qed.

End RaisesOnly.

(** One step of a proof about the exceptions of a computation; [leaf]
    shows that the exception of a [raise] is of the kind at hand, [result]
    the same for what a pure method raises. *)
Ltac only_step leaf result :=
  lazymatch goal with
  | |- raisesOnly _ (bind _ _) => apply only_bind; [| intros ?]
  | |- raisesOnly _ (ret _) => apply only_ret
  | |- raisesOnly _ (raise _) => apply only_raise; leaf
  | |- raisesOnly _ (read _) => apply only_read; leaf
  | |- raisesOnly _ (deepcopy _) => apply only_deepcopy; leaf
  | |- raisesOnly _ (setQuarterLength _ _) => apply only_modify; leaf
  | |- raisesOnly _ (setExpressions _ _) => apply only_modify; leaf
  | |- raisesOnly _ (popExpression _ _) => apply only_modify; leaf
  | |- raisesOnly _ (removeExpression _ _) => apply only_modify; leaf
  | |- raisesOnly _ (transpose _ _) => apply only_transpose; leaf
  | |- raisesOnly _ (setAccidental _ _) => apply only_setAccidental; leaf
  | |- raisesOnly _ (forEach _ _) => apply only_forEach; intros ?
  | |- raisesOnly _ (repeatM _ _ _) => apply only_repeatM; intros ?
  | |- raisesOnly _ (liftR _) => apply only_liftR; result
  | |- raisesOnly _ (if ?b then _ else _) => destruct b
  | |- raisesOnly _ (match ?x with Some _ => _ | None => _ end) => destruct x
  | |- raisesOnly _ (let (_, _) := ?x in _) => destruct x
  end.

(** A pure method: every branch that raises is looked at. *)
Ltac result_cases leaf :=
  let e := fresh "e" in
  intros e;
  repeat match goal with
         | |- context [if ?b then _ else _] => destruct b
         | |- context [match ?x with Some _ => _ | None => _ end] => destruct x
         | |- context [match ?c with Trill_ => _ | _ => _ end] => destruct c
         | |- context [match ?c with GeneralMordent_ => _ | _ => _ end] => destruct c
         end;
  first [discriminate | intros [= <-]; leaf].

Ltac not_too_short := first [reflexivity | intros; reflexivity].

Lemma splitLoop_only (P : Exception -> Prop) len fuel :
  P InvalidReference -> P OutOfFuel ->
  forall e acc, raisesOnly P (Tremolo.splitLoop fuel len e acc).
Proof.
  intros H1 H2.
  induction fuel as [|fuel IH]; intros e acc; rewrite splitLoop_eq.
  - repeat only_step ltac:(assumption) idtac.
  - apply only_bind; [apply only_read, H1 | intros n].
    destruct (Qlt_bool len (quarterLength n)); [|apply only_ret].
    apply only_bind.
    + unfold splitAtQuarterLength. repeat only_step ltac:(assumption) idtac.
    + intros [addNote eRemain]. apply IH.
Qed.

(** With [autoScale] on, none of the pure methods refuses an event as too
    short. *)
Lemma effectiveQL_scales t d :
  trill_autoScale t = true ->
  resultRaisesOnly (fun x => tooShort x = false) (Trill.effectiveQL t d).
Proof.
  intros H. unfold Trill.effectiveQL. rewrite H. cbn [negb].
  result_cases not_too_short.
Qed.

Lemma turnLengths_scales t d x :
  turn_autoScale t = true ->
  resultRaisesOnly (fun x => tooShort x = false) (Turn.turnLengths t d x).
Proof.
  intros H. unfold Turn.turnLengths. rewrite H. cbn [negb].
  result_cases not_too_short.
Qed.

Lemma getSize_not_too_short :
  (forall m src ks,
     resultRaisesOnly (fun x => tooShort x = false) (GeneralMordent.getSize m src ks))
  /\ (forall t src ks,
        resultRaisesOnly (fun x => tooShort x = false) (Trill.getSize t src ks))
  /\ (forall t src ks which,
        resultRaisesOnly (fun x => tooShort x = false) (Turn.getSize t src ks which)).
Proof.
  repeat apply conj.
  - intros m src ks. unfold GeneralMordent.getSize. result_cases not_too_short.
  - intros t src ks. unfold Trill.getSize. result_cases not_too_short.
  - intros t src ks which. unfold Turn.getSize. result_cases not_too_short.
Qed.

Ltac scales_result :=
  first [ apply effectiveQL_scales; assumption
        | apply turnLengths_scales; assumption
        | apply (proj1 getSize_not_too_short)
        | apply (proj1 (proj2 getSize_not_too_short))
        | apply (proj2 (proj2 getSize_not_too_short)) ].

Ltac scales_steps :=
  repeat first
    [ only_step not_too_short scales_result
    | lazymatch goal with
      | |- raisesOnly _ (Ornament.fillListOfRealizedNotes _ _ _ _ _) =>
          unfold Ornament.fillListOfRealizedNotes
      end ].

(** X8. With [autoScale] on, [realize] never refuses an event as too
    short, whatever the event and the key signature, in place or not: no
    exception that it raises is one of "The note is not long enough ...".
    This holds for every ornament; an appoggiatura and a tremolo have no
    such check at all. *)
Theorem autoScale_never_too_short (e : Expression) (l : loc)
  (ks : option key.KeySignature) (inPlace : bool) (h : store Note) (x : Exception) :
  scales e = true ->
  snd (realize e l ks inPlace h) = Raise x -> tooShort x = false.
Proof.
  intros Hs. revert h x.
  change (raisesOnly (fun x => tooShort x = false) (realize e l ks inPlace)).
  destruct e as [m|t|t|a|t|c|c]; cbn [scales] in Hs; cbn [realize].
  - unfold GeneralMordent.realize. rewrite Hs. cbn [negb]. scales_steps.
  - unfold Trill.realize. scales_steps.
  - unfold Turn.realize. scales_steps.
  - unfold GeneralAppoggiatura.realize. scales_steps.
  - unfold Tremolo.realize. scales_steps.
    all: try (apply splitLoop_only; reflexivity).
  - unfold Ornament.realize. scales_steps.
  - apply only_raise. reflexivity.
Qed.

Lemma autoScale_never_too_short_witness :
  let t := mkTrill HalfStepTrill_ "" false (PyFloat (1 # 8)) true in
  let src := mkNote (Some C4) 0 [ETrill t] None in
  snd (realize (ETrill t) 0%nat None false [src]) = Raise noDuration
  /\ tooShort noDuration = false.
Proof.
  intros t src. split; [reflexivity|].
  exact (autoScale_never_too_short (ETrill t) 0%nat None false [src] noDuration
           eq_refl eq_refl).
Defined.

(* ===================================================================== *)
(** ** The first expression of the event is always there *)
(* ===================================================================== *)

Ltac not_index := first [assumption | intros ?; discriminate | intros ? ?; discriminate].

Ltac not_index_result :=
  unfold Trill.effectiveQL, Turn.turnLengths, GeneralMordent.getSize,
    Trill.getSize, Turn.getSize;
  result_cases not_index.

Lemma realize_notIndexError e l ks inPlace :
  raisesOnly notIndexError (realize e l ks inPlace).
Proof.
  assert (notIndexError InvalidReference) as H1 by (intros ?; discriminate).
  assert (notIndexError OutOfFuel) as H2 by (intros ?; discriminate).
  destruct e as [m|t|t|a|t|c|c]; cbn [realize].
  - unfold GeneralMordent.realize, Ornament.fillListOfRealizedNotes.
    repeat only_step not_index not_index_result.
  - unfold Trill.realize, Ornament.fillListOfRealizedNotes.
    repeat only_step not_index not_index_result.
  - unfold Turn.realize. repeat only_step not_index not_index_result.
  - unfold GeneralAppoggiatura.realize. repeat only_step not_index not_index_result.
  - unfold Tremolo.realize. repeat only_step not_index not_index_result.
    all: try (apply splitLoop_only; assumption).
  - unfold Ornament.realize. repeat only_step not_index not_index_result.
  - apply only_raise. intros ?; discriminate.
Qed.

Lemma realizeLoop_notIndexError ks lb : forall s pre post (h : store Note) src,
  h !! s = Some src -> expressions src <> [] ->
  forall msg, snd (realizeLoop lb ks s pre post h) <> Raise (IndexError msg).
Proof.
  induction lb as [|lb IH]; intros s pre post h src Hs Hne msg; [discriminate|].
  rewrite realizeLoop_S, (run_read _ _ _ _ _ Hs).
  destruct (expressions src) as [|thisExpression rest] eqn:Ex; [contradiction|].
  assert (s < length h) as Hlt by (eapply lookup_lt_Some, Hs).
  destruct (hasRealize thisExpression).
  - destruct (realize thisExpression s ks false h) as [h1 [[[preE main] postE]|x]] eqn:R.
    + rewrite (run_Ok _ _ _ _ _ R). destruct main as [new|]; [|discriminate].
      pose proof (writesOnlyFresh_lookup _ _ h s
                    (realize_fresh (length h) thisExpression s ks) Hlt) as Hsame.
      rewrite R, Hs in Hsame. cbn [fst] in Hsame.
      rewrite (run_read _ _ _ _ _ Hsame), Ex. cbn [skipn].
      destruct (h1 !! new) as [nr|] eqn:Hnew.
      * rewrite (run_setExpressions _ _ _ _ _ _ Hnew).
        assert (<[new := set_expressions rest nr]> h1 !! new
                = Some (set_expressions rest nr)) as Hnew'
          by (apply list_lookup_insert_eq; eapply lookup_lt_Some, Hnew).
        rewrite (run_read _ _ _ _ _ Hnew'). cbn [expressions set_expressions].
        destruct rest as [|e2 rest']; [discriminate|].
        apply (IH _ _ _ _ _ Hnew'). discriminate.
      * unfold setExpressions, modify, bind. rewrite Hnew. discriminate.
    + rewrite (run_Raise _ _ _ _ _ R). cbn [snd]. intros [= ->].
      apply (realize_notIndexError thisExpression s ks false h (IndexError msg)
               ltac:(rewrite R; reflexivity) msg eq_refl).
  - cbn [skipn]. rewrite (run_setExpressions _ _ _ _ _ _ Hs).
    assert (<[s := set_expressions rest src]> h !! s
            = Some (set_expressions rest src)) as Hs'
      by (apply list_lookup_insert_eq, Hlt).
    rewrite (run_read _ _ _ _ _ Hs'). cbn [expressions set_expressions].
    destruct rest as [|e2 rest']; [discriminate|].
    apply (IH _ _ _ _ _ Hs'). discriminate.
Qed.

Lemma realizeOrnaments_loop_notIndexError ks ceiling s (h : store Note) src :
  h !! s = Some src -> expressions src <> [] ->
  forall msg,
    snd ((st <- realizeLoop ceiling ks s [] [] ;; ret (retList st)) h)
    <> Raise (IndexError msg).
Proof.
  intros Hs Hne msg. unfold bind.
  pose proof (realizeLoop_notIndexError ks ceiling s [] [] h src Hs Hne msg) as H.
  destruct (realizeLoop ceiling ks s [] [] h) as [h1 [st|x]]; [discriminate|].
  cbn [snd] in *. intros [= ->]. apply H. reflexivity.
Qed.

(** X9. [realizeOrnaments] never fails on [srcObject.expressions[0]]:
    whenever the loop looks for the first expression of the event it works
    on, that event has one. No call raises [IndexError], whatever the
    store, the event and the key signature. *)
Theorem realizeOrnaments_never_IndexError (s : loc)
  (ks : option key.KeySignature) (h : store Note) (msg : string) :
  snd (realizeOrnaments s ks h) <> Raise (IndexError msg).
Proof.
  unfold realizeOrnaments.
  destruct (h !! s) as [src|] eqn:Hs.
  - rewrite (run_read _ _ _ _ _ Hs).
    destruct (expressions src) as [|e rest] eqn:Ex; [discriminate|].
    apply (realizeOrnaments_loop_notIndexError ks 100 s h src Hs).
    rewrite Ex. discriminate.
  - unfold bind, read. rewrite Hs. discriminate.
Qed.

(* ===================================================================== *)
(** ** The turn *)
(* ===================================================================== *)

(** [n = copy.deepcopy(srcObj); n.expressions = []; n.duration.quarterLength = q] *)
Lemma run_blank_copy (l : loc) q (h : store Note) src A (k : loc -> M Note A) :
  h !! l = Some src ->
  (n <- deepcopy l ;; setExpressions n [] ;; setQuarterLength n q ;; k n) h
  = k (length h) (h ++ [mkNote (pitch src) (Qred q) [] (contextKeySig src)]).
Proof.
  intros Hl. rewrite (run_deepcopy _ _ _ _ _ Hl).
  rewrite (run_setExpressions _ _ _ _ _ _ (lookup_snoc h src)), insert_snoc.
  rewrite (run_setQuarterLength _ _ _ _ _ _ (lookup_snoc h _)), insert_snoc.
  reflexivity.
Qed.

Lemma lookup_at {X} (h t : list X) i : (h ++ t) !! (length h + i) = t !! i.
Proof. rewrite lookup_app_r by lia. f_equal. lia. Qed.

Lemma lookup_at0 {X} (h t : list X) : (h ++ t) !! length h = t !! 0.
Proof. rewrite <- (lookup_at h t 0). f_equal. lia. Qed.

Lemma insert_at0 {X} (h t : list X) y : <[length h := y]> (h ++ t) = h ++ <[0 := y]> t.
Proof. rewrite <- (insert_app_r h t 0 y). f_equal. lia. Qed.

Lemma set_pitch_same o q : pitch o = Some q -> set_pitch (Some q) o = o.
Proof. intros H. destruct o. simpl in *. subst. reflexivity. Qed.







(* ===================================================================== *)
(** ** The trill *)
(* ===================================================================== *)

Lemma length_alternation k n1 n2 : length (alternation k n1 n2) = 2 * k.
Proof. induction k as [|k IH]; simpl; [reflexivity | rewrite IH; lia]. Qed.

Lemma alternation_snoc k n1 n2 :
  alternation k n1 n2 ++ [n1; n2] = alternation (S k) n1 n2.
Proof. induction k as [|k IH]; simpl; [reflexivity|]. rewrite IH. reflexivity. Qed.

Lemma seq_snoc2 a k : seq a (2 * k) ++ [a + 2 * k; S (a + 2 * k)] = seq a (2 * S k).
Proof.
  replace (2 * S k) with (2 * k + 2) by lia.
  rewrite seq_app. reflexivity.
Qed.

(** The loop [for unused_counter in range(k): self.fillListOfRealizedNotes(...)] *)
Lemma fill_loop_run ql l i q (src : Note) p k : forall (h : store Note) acc,
  h !! l = Some src -> pitch src = Some p ->
  repeatM k (fun acc => Ornament.fillListOfRealizedNotes ql l acc i (Some q)) acc h
  = (h ++ alternation k (set_quarterLength q src)
            (set_pitch (Some (interval.transposePitch i p))
               (set_quarterLength q src)),
     Ok (acc ++ seq (length h) (2 * k))).
Proof.
  induction k as [|k IH]; intros h acc Hl Hp.
  - cbn [repeatM alternation Nat.mul seq ret]. rewrite !app_nil_r. reflexivity.
  - cbn [repeatM].
    rewrite (run_Ok _ _ _ _ _ (fillListOfRealizedNotes_run ql l acc i q h src p Hl Hp)).
    rewrite (IH _ _ (lookup_old h _ l src Hl) Hp).
    rewrite <- !app_assoc, length_app. cbn [length app alternation].
    do 3 f_equal. replace (2 * S k) with (S (S (2 * k))) by lia.
    cbn [seq]. do 2 f_equal. f_equal. lia.
Qed.

Lemma sameNameWithOctave_refl p : sameNameWithOctave p p = true.
Proof.
  unfold sameNameWithOctave.
  rewrite Z.eqb_refl, (proj2 (Qeq_bool_iff _ _) (Qeq_refl _)).
  destruct (step p); reflexivity.
Qed.

(** The loop [for n in trillNotes: ...] that corrects accidentals *)
Lemma trill_accidentals_run (l : loc) (ks : key.KeySignature) (src : Note) p
  (n1 n2 : Note) p2 k : forall (pre : store Note),
  pre !! l = Some src -> pitch src = Some p ->
  pitch n1 = Some p -> pitch n2 = Some p2 ->
  forEach (seq (length pre) (2 * k)) (fun n =>
    nObj <- read n ;;
    src <- read l ;;
    match pitch nObj, pitch src with
    | Some p, Some sp =>
        if negb (sameNameWithOctave p sp) then
          if bool_decide (accidental p = None)
          then setAccidental n (key.accidentalByStep ks (step p))
          else ret tt
        else ret tt
    | _, _ => raise (AttributeError "pitch")
    end) (pre ++ alternation k n1 n2)
  = (pre ++ alternation k n1
              (set_pitch (Some (if sameNameWithOctave p2 p then p2
                                else fillAccidental ks p2)) n2),
     Ok tt).
Proof.
  intros pre. revert pre.
  induction k as [|k IH]; intros pre Hl Hp H1 H2; [reflexivity|].
  replace (2 * S k) with (S (S (2 * k))) by lia.
  cbn [seq forEach alternation].
  (* the note of the event *)
  rewrite bind_assoc_run.
  rewrite (run_read _ _ _ _ _ (list_lookup_middle pre _ n1 (length pre) eq_refl)).
  cbv beta. rewrite bind_assoc_run.
  rewrite (run_read _ _ _ _ _ (lookup_old pre _ l src Hl)).
  rewrite H1, Hp, sameNameWithOctave_refl. cbn [negb].
  change (bind (ret tt) ?k) with (k tt). cbv beta.
  (* the note above *)
  rewrite bind_assoc_run.
  assert ((pre ++ n1 :: n2 :: alternation k n1 n2) !! S (length pre) = Some n2) as Hat.
  { replace (S (length pre)) with (length pre + 1) by lia.
    rewrite lookup_at. reflexivity. }
  rewrite (run_read _ _ _ _ _ Hat).
  cbv beta. rewrite bind_assoc_run.
  rewrite (run_read _ _ _ _ _ (lookup_old pre _ l src Hl)).
  rewrite H2, Hp.
  set (n2' := set_pitch (Some (if sameNameWithOctave p2 p then p2
                               else fillAccidental ks p2)) n2).
  assert (forall A (K : unit -> M Note A),
            bind (if negb (sameNameWithOctave p2 p)
                  then if bool_decide (accidental p2 = None)
                       then setAccidental (S (length pre))
                              (key.accidentalByStep ks (step p2))
                       else ret tt
                  else ret tt) K (pre ++ n1 :: n2 :: alternation k n1 n2)
            = K tt (pre ++ n1 :: n2' :: alternation k n1 n2)) as Hstep.
  { intros A K. unfold n2', fillAccidental.
    destruct (sameNameWithOctave p2 p); cbn [negb].
    - rewrite (set_pitch_same _ _ H2). reflexivity.
    - destruct (bool_decide (accidental p2 = None)).
      + rewrite (run_setAccidental _ _ _ _ _ _ _ Hat H2).
        replace (S (length pre)) with (length pre + 1) by lia.
        rewrite insert_app_r. reflexivity.
      + rewrite (set_pitch_same _ _ H2). reflexivity. }
  rewrite Hstep.
  replace (pre ++ n1 :: n2' :: alternation k n1 n2)
    with ((pre ++ [n1; n2']) ++ alternation k n1 n2)
    by (rewrite <- app_assoc; reflexivity).
  replace (S (S (length pre))) with (length (pre ++ [n1; n2']))
    by (rewrite length_app; simpl; lia).
  rewrite (IH _ (lookup_old pre _ l src Hl) Hp H1 H2).
  rewrite <- app_assoc. reflexivity.
Qed.

Lemma Trill_getSize_returns t src p ks :
  pitch src = Some p -> exists i, Trill.getSize t src ks = Ok i.
Proof.
  intros Hp. unfold Trill.getSize. rewrite Hp. destruct (trillClass t); eauto.
Qed.

(** X11. A trill on a pitched event for which [effectiveQL] settles on a
    sub-note length other than zero always returns, without a main note.
    The notes before are [trillPairs] pairs, counted on the quotient of
    the duration by the sub-note length as Python holds it (a float,
    rounded, unless both numbers are fractions): the note of the event,
    then the note above it, each of the sub-note length and with all the
    expressions of the event, the trill included. The note above has the
    pitch of the event moved by [getSize]; for a trill that is not of a
    fixed step, a note above without accidental takes the accidental of
    the key signature for its step. With a nachschlag two notes without
    expressions follow: the note of the event and the note below it (the
    pitch moved by the reversed size); for a trill that is not of a fixed
    step their accidentals are replaced by those of the key signature for
    their steps, whatever accidental the event has. In place the trill is
    taken from the expressions of the event and nothing else changes. *)
Theorem Trill_realize_result (t : TrillObj) (l : loc)
  (ks : option key.KeySignature) (inPlace : bool) (h : store Note) (src : Note)
  (p : Pitch) (useQL : OffsetQL) :
  h !! l = Some src -> pitch src = Some p ->
  Trill.effectiveQL t (quarterLength src) = Ok useQL -> ~ (useQL == 0)%Q ->
  let currentKeySig := keySigOrContext ks src in
  exists transposeInterval,
    Trill.getSize t src (Some currentKeySig) = Ok transposeInterval
    /\ let k := trillPairs t (quarterLength src) useQL in
       let lower := mkNote (Some p) (Qred useQL) (expressions src)
                      (contextKeySig src) in
       let upper :=
         mkNote (Some (trillUpperPitch t currentKeySig p
                         (interval.transposePitch transposeInterval p)))
           (Qred useQL) (expressions src) (contextKeySig src) in
       let blank q := mkNote (Some (nachschlagPitch t currentKeySig q))
                        (Qred useQL) [] (contextKeySig src) in
       let nach :=
         if nachschlag t
         then [blank p;
               blank (interval.transposePitch
                        (interval.reverse transposeInterval) p)]
         else [] in
       let h0 : store Note :=
         if inPlace
         then <[l := set_expressions (remove_first (ETrill t) (expressions src))
                       src]> h
         else h in
       Trill.realize t l ks inPlace h
       = (h0 ++ alternation k lower upper ++ nach,
          Ok (seq (length h) (2 * k), None,
              if nachschlag t
              then [length h + 2 * k; S (length h + 2 * k)] else [])).
Proof.
  intros Hl Hp Heff HuseQL currentKeySig.
  destruct (Trill_getSize_returns t src p (Some currentKeySig) Hp)
    as [transposeInterval Hsize].
  exists transposeInterval. split; [exact Hsize|].
  intros k lower upper blank nach h0.
  assert (l < length h) as Hlt by (eapply lookup_lt_Some, Hl).
  unfold Trill.realize.
  rewrite (run_read _ _ _ _ _ Hl), Hp, Heff. cbn [liftR].
  change (bind (ret useQL) ?k) with (k useQL). cbv beta.
  fold currentKeySig. rewrite Hsize. cbn [liftR].
  change (bind (ret transposeInterval) ?k) with (k transposeInterval). cbv beta.
  rewrite (Qeq_bool_false _ _ HuseQL).
  change (Z.to_nat (Z.quot (if nachschlag t
                            then (int (quarterLength src / useQL) - 2)%Z
                            else int (quarterLength src / useQL)) 2))
    with k.
  rewrite (run_Ok _ _ _ _ _
             (fill_loop_run (trill_quarterLength t) l transposeInterval useQL
                src p k h [] Hl Hp)).
  cbn [app].
  set (n1 := set_quarterLength useQL src).
  set (n2 := set_pitch (Some (interval.transposePitch transposeInterval p)) n1).
  (* the accidentals of the notes above *)
  assert (forall A (K : unit -> M Note A),
            bind (if Trill._setAccidentalFromKeySig t
                  then forEach (seq (length h) (2 * k)) (fun n =>
                         nObj <- read n ;;
                         src <- read l ;;
                         match pitch nObj, pitch src with
                         | Some p, Some sp =>
                             if negb (sameNameWithOctave p sp) then
                               if bool_decide (accidental p = None)
                               then setAccidental n
                                      (key.accidentalByStep currentKeySig (step p))
                               else ret tt
                             else ret tt
                         | _, _ => raise (AttributeError "pitch")
                         end)
                  else ret tt) K (h ++ alternation k n1 n2)
            = K tt (h ++ alternation k lower upper)) as Hacc.
  { intros A K. unfold upper, trillUpperPitch.
    destruct (Trill._setAccidentalFromKeySig t).
    - rewrite (run_Ok _ _ _ _ _
                 (trill_accidentals_run l currentKeySig src p n1 n2 _ k h Hl Hp Hp
                    eq_refl)).
      unfold lower, n2, n1, set_pitch, set_quarterLength.
      cbn [pitch quarterLength expressions contextKeySig]. rewrite Hp. reflexivity.
    - unfold lower, n2, n1, set_pitch, set_quarterLength.
      cbn [pitch quarterLength expressions contextKeySig]. rewrite Hp. reflexivity. }
  rewrite Hacc. clear Hacc.
  rewrite (run_read _ _ _ _ _ (lookup_old h _ l src Hl)).
  (* the trill is taken from the event *)
  set (src0 := if inPlace
               then set_expressions (remove_first (ETrill t) (expressions src)) src
               else src).
  assert (forall A (K : unit -> M Note A),
            bind (if inPlace && isIn (ETrill t) (expressions src)
                  then removeExpression l (ETrill t)
                  else ret tt) K (h ++ alternation k lower upper)
            = K tt (h0 ++ alternation k lower upper)) as Hrem.
  { intros A K. unfold h0. destruct inPlace; cbn [andb]; [|reflexivity].
    destruct (isIn (ETrill t) (expressions src)) eqn:Hin.
    - rewrite (run_removeExpression _ _ _ _ _ _ (lookup_old h _ l src Hl)).
      rewrite insert_app_l by exact Hlt. reflexivity.
    - rewrite (remove_first_notin _ _ Hin), set_expressions_same.
      rewrite list_insert_id by exact Hl. reflexivity. }
  rewrite Hrem. clear Hrem.
  assert (h0 !! l = Some src0) as Hl0.
  { unfold h0, src0. destruct inPlace;
      [apply list_lookup_insert_eq, Hlt | exact Hl]. }
  assert (length h0 = length h) as Hlen0.
  { unfold h0. destruct inPlace; [apply length_insert | reflexivity]. }
  assert (pitch src0 = Some p) as Hp0 by (unfold src0; destruct inPlace; exact Hp).
  assert (contextKeySig src0 = contextKeySig src) as Hc0
    by (unfold src0; destruct inPlace; reflexivity).
  unfold nach. destruct (nachschlag t); [|rewrite app_nil_r; reflexivity].
  set (alt := alternation k lower upper).
  rewrite (run_blank_copy l useQL (h0 ++ alt) src0 _ _ (lookup_old _ _ _ _ Hl0)).
  set (b := mkNote (pitch src0) (Qred useQL) [] (contextKeySig src0)).
  rewrite (run_blank_copy l useQL ((h0 ++ alt) ++ [b]) src0 _ _
             (lookup_old _ _ _ _ (lookup_old _ _ _ _ Hl0))).
  fold b.
  rewrite (run_transpose _ _ _ b p _ _ (lookup_snoc ((h0 ++ alt) ++ [b]) _) Hp0),
    insert_snoc.
  set (c := set_pitch _ b).
  assert (length (h0 ++ alt) = length h + 2 * k) as Hlen
    by (rewrite length_app, Hlen0; unfold alt; rewrite length_alternation; reflexivity).
  rewrite (length_app (h0 ++ alt) [b]), Hlen. cbn [length].
  rewrite Nat.add_1_r.
  rewrite <- (app_assoc (h0 ++ alt) [b] [c]). cbn [app].
  assert ([blank p;
           blank (interval.transposePitch (interval.reverse transposeInterval) p)]
          = (if Trill._setAccidentalFromKeySig t
             then [set_pitch (Some (withAccidental p
                                      (key.accidentalByStep currentKeySig (step p)))) b;
                   set_pitch
                     (Some (withAccidental
                              (interval.transposePitch
                                 (interval.reverse transposeInterval) p)
                              (key.accidentalByStep currentKeySig
                                 (step (interval.transposePitch
                                          (interval.reverse transposeInterval) p))))) c]
             else [b; c])) as ->.
  { unfold blank, nachschlagPitch, c, b, set_pitch.
    cbn [pitch quarterLength expressions contextKeySig]. rewrite Hp0, Hc0.
    destruct (Trill._setAccidentalFromKeySig t); reflexivity. }
  rewrite (app_assoc h0 alt).
  destruct (Trill._setAccidentalFromKeySig t); [|reflexivity].
  rewrite <- Hlen.
  rewrite bind_assoc_run.
  assert (((h0 ++ alt) ++ [b; c]) !! length (h0 ++ alt) = Some b) as Hb
    by (rewrite lookup_at0; reflexivity).
  rewrite (run_read _ _ _ _ _ Hb). cbv beta.
  change (pitch b) with (pitch src0). rewrite Hp0.
  rewrite bind_assoc_run.
  rewrite (run_setAccidental _ _ _ b p _ _ Hb Hp0).
  rewrite insert_at0. cbn [insert list_insert].
  rewrite bind_assoc_run.
  set (b' := set_pitch _ b).
  assert (((h0 ++ alt) ++ [b'; c]) !! S (length (h0 ++ alt)) = Some c) as Hc
    by apply lookup_snoc2.
  rewrite (run_read _ _ _ _ _ Hc). cbv beta.
  change (pitch c)
    with (Some (interval.transposePitch (interval.reverse transposeInterval) p)).
  cbv iota.
  rewrite (run_setAccidental _ _ _ c _ _ _ Hc eq_refl).
  rewrite insert_snoc2. reflexivity.
Qed.

Lemma Trill_realize_result_witness :
  let t := mkTrill Trill_ "" true (PyFloat (1 # 4)) true in
  let src := mkNote (Some (mkPitch sC 4 (Some (AccidentalOfName "sharp")))) 2
               [ETrill t] None in
  let t' := mkTrill Trill_ "" false (PyFraction (9 # 14)) true in
  let src' := mkNote (Some C4) 9 [ETrill t'] None in
  Trill.realize t 0%nat None false [src]
  = ([src;
      mkNote (Some (mkPitch sC 4 (Some (AccidentalOfName "sharp")))) (1 # 4)
        [ETrill t] None;
      mkNote (Some (mkPitch sD 4 None)) (1 # 4) [ETrill t] None;
      mkNote (Some (mkPitch sC 4 (Some (AccidentalOfName "sharp")))) (1 # 4)
        [ETrill t] None;
      mkNote (Some (mkPitch sD 4 None)) (1 # 4) [ETrill t] None;
      mkNote (Some (mkPitch sC 4 (Some (AccidentalOfName "sharp")))) (1 # 4)
        [ETrill t] None;
      mkNote (Some (mkPitch sD 4 None)) (1 # 4) [ETrill t] None;
      mkNote (Some (mkPitch sC 4 None)) (1 # 4) [] None;
      mkNote (Some (mkPitch sB 3 None)) (1 # 4) [] None],
     Ok ([1; 2; 3; 4; 5; 6]%nat, None, [7; 8]%nat))
  /\ snd (Trill.realize t' 0%nat None false [src']) = Ok (seq 1 12, None, []).
Proof.
  intros t src t' src'. split.
  - destruct (Trill_realize_result t 0%nat None false [src] src
                (mkPitch sC 4 (Some (AccidentalOfName "sharp"))) (PyFloat (1 # 4))
                eq_refl eq_refl eq_refl)
      as (transposeInterval & Hsize & Hrun).
    + intros H. discriminate H.
    + vm_compute in Hsize. injection Hsize as <-. exact Hrun.
  - destruct (Trill_realize_result t' 0%nat None false [src'] src' C4
                (PyFraction (9 # 14)) eq_refl eq_refl eq_refl)
      as (transposeInterval & Hsize & Hrun).
    + intros H. discriminate H.
    + rewrite Hrun. vm_compute. reflexivity.
Defined.

(* ===================================================================== *)
(** ** Ornamental pitches *)
(* ===================================================================== *)

Lemma stepIndex_stepOfIndex x : stepIndex (stepOfIndex x) = (x mod 7)%Z.
Proof.
  unfold stepOfIndex. pose proof (Z.mod_pos_bound x 7 ltac:(lia)) as H.
  assert (x mod 7 = 0 \/ x mod 7 = 1 \/ x mod 7 = 2 \/ x mod 7 = 3
          \/ x mod 7 = 4 \/ x mod 7 = 5 \/ x mod 7 = 6)%Z as Hc by lia.
  destruct Hc as [-> | [-> | [-> | [-> | [-> | [-> | ->]]]]]]; reflexivity.
Qed.

Lemma stepIndex_bounds s : (0 <= stepIndex s < 7)%Z.
Proof. destruct s; simpl; lia. Qed.

Lemma stepIndex_inj s1 s2 : stepIndex s1 = stepIndex s2 -> s1 = s2.
Proof. destruct s1, s2; simpl; intros H; try reflexivity; lia. Qed.

(** Transposition moves a pitch by the staff steps of the interval. *)
Lemma diatonicNoteNum_transposePitch i p :
  diatonicNoteNum (interval.transposePitch i p)
  = (diatonicNoteNum p + interval.staffDistance i)%Z.
Proof.
  unfold interval.transposePitch.
  set (x := (diatonicNoteNum p + interval.staffDistance i - 1)%Z).
  assert (stepIndex (stepOfIndex x) + 1 + 7 * (x / 7)
          = diatonicNoteNum p + interval.staffDistance i)%Z as H.
  { rewrite stepIndex_stepOfIndex. pose proof (Z.div_mod x 7 ltac:(lia)).
    unfold x in *. lia. }
  destruct (interval.semitones i) as [s|]; [|exact H].
  destruct (Qeq_bool _ 0); exact H.
Qed.

(** Transposition by a specific interval moves a pitch by its semitones. *)
Lemma ps_transposePitch i p s :
  interval.semitones i = Some s ->
  (ps (interval.transposePitch i p) == ps p + s)%Q.
Proof.
  intros Hs. unfold interval.transposePitch. rewrite Hs.
  set (x := (diatonicNoteNum p + interval.staffDistance i - 1)%Z).
  set (natural := mkPitch (stepOfIndex x) (x / 7) None).
  pose proof (Qred_correct (s - (ps natural - ps p))) as Hr.
  set (fx := Qred (s - (ps natural - ps p))) in *.
  destruct (Qeq_bool fx 0) eqn:E.
  - apply Qeq_bool_iff in E. lra.
  - assert (ps (withAccidental natural (Some (mkAccidental fx None)))
            == ps natural + fx)%Q as Hn.
    { unfold ps, alterOf. cbn [step octave accidental withAccidental alter natural].
      lra. }
    lra.
Qed.

Lemma same_staff_position p q :
  diatonicNoteNum p = diatonicNoteNum q -> step p = step q /\ octave p = octave q.
Proof.
  unfold diatonicNoteNum. intros H.
  pose proof (stepIndex_bounds (step p)). pose proof (stepIndex_bounds (step q)).
  assert (octave p = octave q) as Ho by lia.
  split; [apply stepIndex_inj; lia | exact Ho].
Qed.

(** What [getSize] and [resolveOrnamentalPitches] do between them: the
    pitch a staff step away is given its accidental, the interval from
    the pitch of the event to it is taken, and the pitch of the event is
    moved by that interval. This leads back to the pitch a staff step
    away, with the alteration of that accidental. *)
Lemma transpose_between p q :
  let r := interval.transposePitch (interval.between p q) p in
  step r = step q /\ octave r = octave q /\ (alterOf r == alterOf q)%Q.
Proof.
  intros r.
  assert (diatonicNoteNum r = diatonicNoteNum q) as Hd.
  { unfold r. rewrite diatonicNoteNum_transposePitch. cbn [interval.between
      interval.staffDistance]. lia. }
  destruct (same_staff_position r q Hd) as [Hs Ho].
  split; [exact Hs|]. split; [exact Ho|].
  pose proof (ps_transposePitch (interval.between p q) p _ eq_refl) as Hps.
  fold r in Hps. rewrite Qred_correct in Hps.
  unfold ps in Hps. rewrite Hs, Ho in Hps. lra.
Qed.

Lemma generic_second_step (up : bool) p acc :
  let n := interval.transposePitch
             (interval.GenericInterval (if up then 2 else -2)) p in
  diatonicNoteNum (withAccidental n acc)
  = (diatonicNoteNum p + (if up then 1 else -1))%Z.
Proof.
  intros n. unfold n.
  change (diatonicNoteNum (withAccidental ?x acc)) with (diatonicNoteNum x).
  rewrite diatonicNoteNum_transposePitch. destruct up; reflexivity.
Qed.

(** The ornamental pitch that comes of a neighbour [n] of the pitch [p]
    of the event, given the accidental [acc] *)
Lemma ornamental_of_neighbour (up : bool) p acc :
  let n := interval.transposePitch
             (interval.GenericInterval (if up then 2 else -2))
             (withAccidental p None) in
  let r := interval.transposePitch
             (interval.between p (withAccidental n acc)) p in
  diatonicNoteNum r = (diatonicNoteNum p + (if up then 1 else -1))%Z
  /\ step r = step n
  /\ (alterOf r == alterOfAccidental acc)%Q.
Proof.
  intros n r.
  destruct (transpose_between p (withAccidental n acc)) as (Hs & Ho & Ha).
  fold r in Hs, Ho, Ha.
  split; [|split; [exact Hs | exact Ha]].
  pose proof (generic_second_step up (withAccidental p None) acc) as Hg.
  fold n in Hg. unfold diatonicNoteNum in Hg |- *.
  rewrite Hs, Ho. exact Hg.
Qed.

Lemma alterOf_forceAccidentalDisplay p :
  alterOf (forceAccidentalDisplay p) = alterOf p
  /\ step (forceAccidentalDisplay p) = step p
  /\ octave (forceAccidentalDisplay p) = octave p
  /\ displayForced (forceAccidentalDisplay p).
Proof.
  unfold forceAccidentalDisplay, alterOf, displayForced.
  cbn [accidental withAccidental step octave].
  destruct (accidental p); repeat split; eauto.
Qed.

Lemma forceAccidentalDisplay_idempotent p :
  forceAccidentalDisplay (forceAccidentalDisplay p) = forceAccidentalDisplay p.
Proof. reflexivity. Qed.

(** The ornamental pitch that [getSize] and [resolveOrnamentalPitches]
    arrive at between them *)
Lemma ornamental_core (up : bool) (name : string) (k : key.KeySignature) p :
  let n := if up
           then interval.transposePitch (interval.GenericInterval 2)
                  (withAccidental p None)
           else interval.transposePitch (interval.GenericInterval (-2))
                  (withAccidental p None) in
  let q := if nonEmpty name
           then withAccidental n (Some (AccidentalOfName name))
           else withAccidental n (key.accidentalByStep k (step n)) in
  let r0 := interval.transposePitch (interval.between p q) p in
  let r := if nonEmpty name then forceAccidentalDisplay r0 else r0 in
  diatonicNoteNum r = (diatonicNoteNum p + (if up then 1 else -1))%Z
  /\ (alterOf r == ornamentalAlter name k (step r))%Q
  /\ (nonEmpty name = true -> displayForced r).
Proof.
  intros n q r0 r.
  set (acc := if nonEmpty name then Some (AccidentalOfName name)
              else key.accidentalByStep k (step n)).
  assert (q = withAccidental n acc) as Hq
    by (unfold q, acc; destruct (nonEmpty name); reflexivity).
  assert (n = interval.transposePitch
                (interval.GenericInterval (if up then 2 else -2))
                (withAccidental p None)) as Hn
    by (unfold n; destruct up; reflexivity).
  destruct (ornamental_of_neighbour up p acc) as (Hd & Hs & Ha).
  rewrite <- Hn, <- Hq in Hd, Hs, Ha. fold r0 in Hd, Hs, Ha.
  destruct (alterOf_forceAccidentalDisplay r0) as (F1 & F2 & F3 & F4).
  assert (step r = step r0 /\ octave r = octave r0 /\ alterOf r = alterOf r0)
    as (G1 & G2 & G3).
  { unfold r. destruct (nonEmpty name); auto. }
  split.
  { unfold diatonicNoteNum in *. rewrite G1, G2. exact Hd. }
  split.
  { rewrite G3, Ha, G1, Hs. unfold acc, ornamentalAlter.
    destruct (nonEmpty name); reflexivity. }
  intros Hname. unfold r. rewrite Hname. exact F4.
Qed.

Lemma Mordent_resolve_neighbour m src ks p :
  pitch src = Some p -> GeneralMordent.directionKnown m = true ->
  GeneralMordent.isFixedStep (mordentClass m) = false ->
  exists r,
    GeneralMordentDisplay.resolveOrnamentalPitches m src ks = Ok [r]
    /\ diatonicNoteNum r
       = (diatonicNoteNum p
          + (if String.eqb (GeneralMordent._direction (mordentClass m)) "up"
             then 1 else -1))%Z
    /\ (alterOf r == ornamentalAlter (GeneralMordent.accidentalName m)
                       (keySigOrContext ks src) (step r))%Q
    /\ (nonEmpty (GeneralMordent.accidentalName m) = true -> displayForced r).
Proof.
  intros Hp Hdir Hfix.
  pose proof (ornamental_core
                (String.eqb (GeneralMordent._direction (mordentClass m)) "up")
                (GeneralMordent.accidentalName m) (keySigOrContext ks src) p)
    as Hcore.
  unfold GeneralMordentDisplay.resolveOrnamentalPitches, GeneralMordent.getSize.
  rewrite Hp, Hdir. cbn [negb].
  unfold GeneralMordent.directionKnown in Hdir.
  revert Hcore Hdir.
  destruct (mordentClass m); try discriminate Hfix; intros Hcore Hdir;
    try discriminate Hdir;
    (eexists; split; [reflexivity | exact Hcore]).
Qed.

Lemma Trill_resolve_neighbour t src ks p :
  pitch src = Some p -> Trill.isFixedStep (trillClass t) = false ->
  exists r,
    TrillDisplay.resolveOrnamentalPitches t src ks = Ok [r]
    /\ diatonicNoteNum r = (diatonicNoteNum p + 1)%Z
    /\ (alterOf r == ornamentalAlter (Trill.accidentalName t)
                       (keySigOrContext ks src) (step r))%Q
    /\ (nonEmpty (Trill.accidentalName t) = true -> displayForced r).
Proof.
  intros Hp Hfix.
  pose proof (ornamental_core true (Trill.accidentalName t)
                (keySigOrContext ks src) p) as Hcore.
  unfold TrillDisplay.resolveOrnamentalPitches, Trill.getSize.
  rewrite Hp. revert Hcore.
  destruct (trillClass t); try discriminate Hfix; intros Hcore;
    (eexists; split; [reflexivity | exact Hcore]).
Qed.

Lemma Turn_resolve_neighbours t src ks p :
  pitch src = Some p ->
  exists upper lower,
    TurnDisplay.resolveOrnamentalPitches t src ks = Ok [upper; lower]
    /\ (diatonicNoteNum upper = (diatonicNoteNum p + 1)%Z
        /\ (alterOf upper == ornamentalAlter (turn_upperAccidentalName t)
                               (keySigOrContext ks src) (step upper))%Q
        /\ (nonEmpty (turn_upperAccidentalName t) = true -> displayForced upper))
    /\ (diatonicNoteNum lower = (diatonicNoteNum p - 1)%Z
        /\ (alterOf lower == ornamentalAlter (turn_lowerAccidentalName t)
                               (keySigOrContext ks src) (step lower))%Q
        /\ (nonEmpty (turn_lowerAccidentalName t) = true -> displayForced lower)).
Proof.
  intros Hp.
  pose proof (ornamental_core true (turn_upperAccidentalName t)
                (keySigOrContext ks src) p) as Hup.
  pose proof (ornamental_core false (turn_lowerAccidentalName t)
                (keySigOrContext ks src) p) as Hlow.
  unfold TurnDisplay.resolveOrnamentalPitches, Turn.getSize.
  rewrite Hp. cbn [String.eqb Ascii.eqb Bool.eqb orb negb].
  eexists _, _. split; [reflexivity|]. split; [exact Hup | exact Hlow].
Qed.

(** X12. [resolveOrnamentalPitches] on a pitched event returns, for a
    mordent of known direction and a trill whose step is not fixed by the
    class and for every turn. The ornamental pitch lies one staff step
    from the pitch of the event: above it for a trill and an inverted
    mordent, below it for a mordent; a turn has both, the upper one first.
    Its alteration is that of the accidental named for it or, where none
    is named, that of the key signature (the one passed, else the one of
    the context, else none) for its step. Where an accidental is named the
    pitch has an accidental marked to be displayed. *)
Theorem ornamental_pitch_is_neighbour (src : Note) (ks : option key.KeySignature)
  (p : Pitch) :
  pitch src = Some p ->
  (forall m, GeneralMordent.directionKnown m = true ->
     GeneralMordent.isFixedStep (mordentClass m) = false ->
     exists r,
       GeneralMordentDisplay.resolveOrnamentalPitches m src ks = Ok [r]
       /\ diatonicNoteNum r
          = (diatonicNoteNum p
             + (if String.eqb (GeneralMordent._direction (mordentClass m)) "up"
                then 1 else -1))%Z
       /\ (alterOf r == ornamentalAlter (GeneralMordent.accidentalName m)
                          (keySigOrContext ks src) (step r))%Q
       /\ (nonEmpty (GeneralMordent.accidentalName m) = true -> displayForced r))
  /\ (forall t, Trill.isFixedStep (trillClass t) = false ->
        exists r,
          TrillDisplay.resolveOrnamentalPitches t src ks = Ok [r]
          /\ diatonicNoteNum r = (diatonicNoteNum p + 1)%Z
          /\ (alterOf r == ornamentalAlter (Trill.accidentalName t)
                             (keySigOrContext ks src) (step r))%Q
          /\ (nonEmpty (Trill.accidentalName t) = true -> displayForced r))
  /\ (forall t,
        exists upper lower,
          TurnDisplay.resolveOrnamentalPitches t src ks = Ok [upper; lower]
          /\ (diatonicNoteNum upper = (diatonicNoteNum p + 1)%Z
              /\ (alterOf upper == ornamentalAlter (turn_upperAccidentalName t)
                                     (keySigOrContext ks src) (step upper))%Q
              /\ (nonEmpty (turn_upperAccidentalName t) = true ->
                  displayForced upper))
          /\ (diatonicNoteNum lower = (diatonicNoteNum p - 1)%Z
              /\ (alterOf lower == ornamentalAlter (turn_lowerAccidentalName t)
                                     (keySigOrContext ks src) (step lower))%Q
              /\ (nonEmpty (turn_lowerAccidentalName t) = true ->
                  displayForced lower))).
Proof.
  intros Hp. split; [|split].
  - intros m Hdir Hfix. apply Mordent_resolve_neighbour; assumption.
  - intros t Hfix. apply Trill_resolve_neighbour; assumption.
  - intros t. apply Turn_resolve_neighbours; assumption.
Qed.

Lemma ornamental_pitch_is_neighbour_witness :
  let t := Turn.init Turn_ (DelayEnum NO_DELAY) "" "flat" in
  let src := mkNote (Some E4) 1 [ETurn t] (Some oneSharp) in
  exists upper lower,
    TurnDisplay.resolveOrnamentalPitches t src None = Ok [upper; lower]
    /\ diatonicNoteNum upper = (diatonicNoteNum E4 + 1)%Z
    /\ (alterOf upper == 1)%Q
    /\ diatonicNoteNum lower = (diatonicNoteNum E4 - 1)%Z
    /\ (alterOf lower == -1)%Q
    /\ displayForced lower.
Proof.
  intros t src.
  destruct (proj2 (proj2 (ornamental_pitch_is_neighbour src None E4 eq_refl)) t)
    as (upper & lower & H & (U1 & U2 & _) & (L1 & L2 & L3)).
  exists upper, lower. split; [exact H|]. split; [exact U1|].
  assert (step upper = sF) as Hu.
  { vm_compute in H. injection H as <- _. reflexivity. }
  assert (step lower = sD) as Hl.
  { vm_compute in H. injection H as _ <-. reflexivity. }
  rewrite Hu in U2. rewrite Hl in L2.
  split; [exact U2|]. split; [exact L1|]. split; [exact L2|].
  apply L3. reflexivity.
Defined.

Lemma update_forced (U : PitchDisplayArguments -> Pitch -> Pitch)
  (i : nat) (ps : list Pitch) p :
  ps !! i = Some p ->
  exists p', <[i := forceAccidentalDisplay p]> ps !! i = Some p'
    /\ displayForced p' /\ step p' = step p /\ octave p' = octave p
    /\ alterOf p' = alterOf p.
Proof.
  intros H. exists (forceAccidentalDisplay p).
  destruct (alterOf_forceAccidentalDisplay p) as (F1 & F2 & F3 & F4).
  split; [apply list_lookup_insert_eq; eapply lookup_lt_Some, H|]. auto.
Qed.

(** X13. Once an accidental is named for an ornamental pitch,
    [updateAccidentalDisplay] does not ask the pitch how it should be
    displayed: whatever [Pitch.updateAccidentalDisplay] would do and
    whatever pitches came before, the ornamental pitch comes out with an
    accidental marked to be displayed, on the same step, in the same
    octave and with the same alteration. This holds for the pitch of a
    mordent and of a trill and for either pitch of a turn. For a mordent
    and a trill, calling the method again changes nothing. *)
Theorem named_accidental_stays_displayed
  (U : PitchDisplayArguments -> Pitch -> Pitch) (args : DisplayArguments)
  (ps : list Pitch) (p : Pitch) :
  (forall m, nonEmpty (GeneralMordent.accidentalName m) = true ->
     GeneralMordentDisplay.ornamentalPitch ps = Some p ->
     let ps' := GeneralMordentDisplay.updateAccidentalDisplay U m ps args in
     (exists p', GeneralMordentDisplay.ornamentalPitch ps' = Some p'
        /\ displayForced p' /\ step p' = step p /\ octave p' = octave p
        /\ alterOf p' = alterOf p)
     /\ GeneralMordentDisplay.updateAccidentalDisplay U m ps' args = ps')
  /\ (forall t, nonEmpty (Trill.accidentalName t) = true ->
        TrillDisplay.ornamentalPitch ps = Some p ->
        let ps' := TrillDisplay.updateAccidentalDisplay U t ps args in
        (exists p', TrillDisplay.ornamentalPitch ps' = Some p'
           /\ displayForced p' /\ step p' = step p /\ octave p' = octave p
           /\ alterOf p' = alterOf p)
        /\ TrillDisplay.updateAccidentalDisplay U t ps' args = ps')
  /\ (forall t, nonEmpty (turn_upperAccidentalName t) = true ->
        TurnDisplay.upperOrnamentalPitch ps = Some p ->
        exists p',
          TurnDisplay.upperOrnamentalPitch
            (TurnDisplay.updateAccidentalDisplay U t ps args) = Some p'
          /\ displayForced p' /\ step p' = step p /\ octave p' = octave p
          /\ alterOf p' = alterOf p)
  /\ (forall t, nonEmpty (turn_lowerAccidentalName t) = true ->
        TurnDisplay.lowerOrnamentalPitch ps = Some p ->
        exists p',
          TurnDisplay.lowerOrnamentalPitch
            (TurnDisplay.updateAccidentalDisplay U t ps args) = Some p'
          /\ displayForced p' /\ step p' = step p /\ octave p' = octave p
          /\ alterOf p' = alterOf p).
Proof.
  destruct (alterOf_forceAccidentalDisplay p) as (F1 & F2 & F3 & F4).
  split; [|split; [|split]].
  - intros m Hname Hps ps'. subst ps'.
    unfold GeneralMordentDisplay.updateAccidentalDisplay.
    rewrite Hps, Hname.
    destruct ps as [|p0 rest]; [discriminate|]. injection Hps as ->.
    cbn [insert list_insert GeneralMordentDisplay.ornamentalPitch].
    split; [eauto 10 | reflexivity].
  - intros t Hname Hps ps'. subst ps'.
    unfold TrillDisplay.updateAccidentalDisplay.
    rewrite Hps, Hname.
    destruct ps as [|p0 rest]; [discriminate|]. injection Hps as ->.
    cbn [insert list_insert TrillDisplay.ornamentalPitch].
    split; [eauto 10 | reflexivity].
  - intros t Hname Hps.
    unfold TurnDisplay.updateAccidentalDisplay.
    destruct ps as [|p0 rest]; [discriminate|].
    injection Hps as ->.
    cbn [TurnDisplay.upperOrnamentalPitch length Nat.leb lookup list_lookup].
    rewrite Hname. cbn [insert list_insert].
    exists (forceAccidentalDisplay p).
    split; [|auto].
    destruct (TurnDisplay.lowerOrnamentalPitch (forceAccidentalDisplay p :: rest));
      [destruct (nonEmpty (turn_lowerAccidentalName t))|];
      destruct rest; reflexivity.
  - intros t Hname Hps.
    unfold TurnDisplay.updateAccidentalDisplay.
    destruct ps as [|p0 [|p1 rest]]; try discriminate.
    injection Hps as ->.
    exists (forceAccidentalDisplay p). split; [|auto].
    cbn [TurnDisplay.upperOrnamentalPitch length Nat.leb lookup list_lookup].
    destruct (nonEmpty (turn_upperAccidentalName t));
      cbn [insert list_insert TurnDisplay.lowerOrnamentalPitch length Nat.leb
             lookup list_lookup];
      rewrite Hname; reflexivity.
Qed.

Lemma named_accidental_stays_displayed_witness :
  let t := mkTrill Trill_ "sharp" false (PyFloat (1 # 8)) true in
  let p := mkPitch sD 4 (Some (mkAccidental 1 None)) in
  let args := mkDisplayArguments (Some [p]) None None None true false false true in
  let hide := fun (_ : PitchDisplayArguments) (q : Pitch) => withAccidental q None in
  let shown := [mkPitch sD 4 (Some (mkAccidental 1 (Some true)))] in
  TrillDisplay.updateAccidentalDisplay hide t [p] args = shown
  /\ TrillDisplay.updateAccidentalDisplay hide t shown args = shown.
Proof.
  intros t p args hide shown. split; [reflexivity|].
  destruct (proj1 (proj2 (named_accidental_stays_displayed hide args [p] p)) t
              eq_refl eq_refl) as [_ H].
  exact H.
Defined.

(* ===================================================================== *)
(** ** What the setters keep true *)
(* ===================================================================== *)

Lemma set_numberOfMarks_range t num t' :
  Tremolo.set_numberOfMarks t num = Ok t' ->
  (0 <= tremolo_numberOfMarks t' <= 8)%Z.
Proof.
  unfold Tremolo.set_numberOfMarks.
  destruct ((num <? 0)%Z || (8 <? num)%Z) eqn:E; [discriminate|].
  intros [= <-]. cbn [tremolo_numberOfMarks].
  apply orb_false_iff in E as [E1 E2]. apply Z.ltb_ge in E1, E2. lia.
Qed.

Lemma lengthOfEach_range t :
  (0 <= tremolo_numberOfMarks t <= 8)%Z ->
  (1 # 256 <= Tremolo.lengthOfEach t)%Q /\ (Tremolo.lengthOfEach t <= 1)%Q.
Proof.
  intros H. unfold Tremolo.lengthOfEach.
  assert (tremolo_numberOfMarks t = 0 \/ tremolo_numberOfMarks t = 1
          \/ tremolo_numberOfMarks t = 2 \/ tremolo_numberOfMarks t = 3
          \/ tremolo_numberOfMarks t = 4 \/ tremolo_numberOfMarks t = 5
          \/ tremolo_numberOfMarks t = 6 \/ tremolo_numberOfMarks t = 7
          \/ tremolo_numberOfMarks t = 8)%Z as Hc by lia.
  destruct Hc as [-> | [-> | [-> | [-> | [-> | [-> | [-> | [-> | ->]]]]]]]];
    split; discriminate.
Qed.

(** X14. The number of marks of a tremolo and of a tremolo spanner is
    always one of 0 to 8: [__init__] sets 3, and the setter stores a
    number only after it has found it in that range; an assignment that
    raises leaves the object as it was. So [lengthOfEach], the length of
    all the notes of a realized tremolo but the last, is never less than
    1/256 of a quarter note and never more than a quarter note. *)
Theorem numberOfMarks_invariant :
  (forall t, TremoloReachable t ->
     (0 <= tremolo_numberOfMarks t <= 8)%Z
     /\ (1 # 256 <= Tremolo.lengthOfEach t)%Q /\ (Tremolo.lengthOfEach t <= 1)%Q)
  /\ (forall t, TremoloSpannerReachable t ->
        (0 <= tremoloSpanner_numberOfMarks t <= 8)%Z).
Proof.
  split.
  - intros t Ht.
    assert (0 <= tremolo_numberOfMarks t <= 8)%Z as H.
    { induction Ht as [|t num t' _ _ Hset|t b _ IH|t b _ IH];
        [cbn; lia | eapply set_numberOfMarks_range, Hset | exact IH | exact IH]. }
    split; [exact H | apply lengthOfEach_range, H].
  - intros t Ht.
    induction Ht as [|t num t' _ _ Hset|t pl me _ IH]; [cbn; lia | | exact IH].
    unfold TremoloSpanner.set_numberOfMarks in Hset.
    destruct ((num <? 0)%Z || (8 <? num)%Z) eqn:E; [discriminate|].
    injection Hset as <-. cbn [tremoloSpanner_numberOfMarks].
    apply orb_false_iff in E as [E1 E2]. apply Z.ltb_ge in E1, E2. lia.
Qed.

Lemma numberOfMarks_invariant_witness :
  let t := mkTremolo true 8 true in
  (0 <= tremolo_numberOfMarks t <= 8)%Z
  /\ (1 # 256 <= Tremolo.lengthOfEach t)%Q /\ (Tremolo.lengthOfEach t <= 1)%Q.
Proof.
  intros t.
  apply (proj1 numberOfMarks_invariant t).
  apply (tremolo_marks Tremolo.init 8 t tremolo_init). reflexivity.
Defined.

(** X15. The placement of a trill extension is always [None], ['above']
    or ['below']: [__init__] sets [None], and the setter stores the value
    in lower case, and only when that is one of the two words; any other
    string raises and leaves the object as it was. Assigning [None] is
    accepted and changes nothing, so a placement once set cannot be taken
    back. *)
Theorem TrillExtension_placement_invariant :
  (forall t, TrillExtensionReachable t ->
     _placement t = None \/ _placement t = Some "above"
     \/ _placement t = Some "below")
  /\ (forall t, TrillExtension._setPlacement t None = PlacementSet t)
  /\ (forall t v, TrillExtension.lower v <> "above" ->
        TrillExtension.lower v <> "below" ->
        TrillExtension._setPlacement t (Some v)
        = TrillExtensionException ("incorrect placement value: " ++ v)).
Proof.
  split; [|split].
  - intros t Ht. induction Ht as [|t value t' _ IH Hset]; [left; reflexivity|].
    unfold TrillExtension._setPlacement in Hset.
    destruct value as [v|]; [|injection Hset as <-; exact IH].
    destruct (String.eqb (TrillExtension.lower v) "above") eqn:E1.
    + apply String.eqb_eq in E1. cbn [orb negb] in Hset. injection Hset as <-.
      right; left. cbn. rewrite E1. reflexivity.
    + destruct (String.eqb (TrillExtension.lower v) "below") eqn:E2;
        cbn [orb negb] in Hset; [|discriminate].
      apply String.eqb_eq in E2. injection Hset as <-.
      right; right. cbn. rewrite E2. reflexivity.
  - reflexivity.
  - intros t v H1 H2. unfold TrillExtension._setPlacement.
    apply String.eqb_neq in H1, H2. rewrite H1, H2. reflexivity.
Qed.

Lemma TrillExtension_placement_invariant_witness :
  let t := mkTrillExtension (Some "above") in
  _placement t = None \/ _placement t = Some "above" \/ _placement t = Some "below".
Proof.
  intros t.
  apply (proj1 TrillExtension_placement_invariant t).
  apply (trillExtension_placement TrillExtension.init (Some "Above") t
           trillExtension_init).
  reflexivity.
Defined.

(* ===================================================================== *)
(** ** realizeOrnaments keeps the duration of the event *)
(* ===================================================================== *)



















(* ===================================================================== *)
(** ** In place, realize assigns to the event only *)
(* ===================================================================== *)

Section InPlace.
Variable R : Note -> Note -> Prop.
Hypothesis R_refl : forall o, R o o.
Hypothesis R_trans : forall o1 o2 o3, R o1 o2 -> R o2 o3 -> R o1 o3.
Variables s n : nat.
Hypothesis s_old : s < n.

Lemma event_of_fresh {A} (m : M Note A) P :
  writesOnlyFresh n m P -> writesEvent R s n m P.
Proof.
  intros Hm h Hn. destruct (Hm h Hn) as (H1 & H2 & H3).
  assert (forall x, x < n -> fst (m h) !! x = h !! x) as Hsame.
  { intros x Hx. rewrite <- (lookup_take_lt (fst (m h)) n x Hx), H2.
    apply lookup_take_lt, Hx. }
  split; [exact H1|]. split; [intros x Hx _; apply Hsame, Hx|].
  split; [|exact H3].
  intros o Ho. exists o. rewrite (Hsame s s_old). auto.
Qed.

Lemma event_bind {A B} (m : M Note A) (k : A -> M Note B) P Q :
  writesEvent R s n m P ->
  (forall a, P a -> writesEvent R s n (k a) Q) ->
  writesEvent R s n (bind m k) Q.
Proof.
  intros Hm Hk h Hn. destruct (Hm h Hn) as (H1 & H2 & H3 & H4).
  unfold bind. destruct (m h) as [h1 [a|e]]; cbn [fst snd] in *.
  - destruct (Hk a (H4 a eq_refl) h1 H1) as (K1 & K2 & K3 & K4).
    split; [exact K1|].
    split; [intros x Hx Hne; rewrite (K2 x Hx Hne); apply H2; assumption|].
    split; [|exact K4].
    intros o Ho. destruct (H3 o Ho) as (o1 & Ho1 & R1).
    destruct (K3 o1 Ho1) as (o2 & Ho2 & R2). exists o2.
    split; [exact Ho2 | eapply R_trans; eassumption].
  - split; [exact H1|]. split; [exact H2|]. split; [exact H3 | discriminate].
Qed.

Lemma event_ret {A} (a : A) (P : A -> Prop) : P a -> writesEvent R s n (ret a) P.
Proof. intros Ha. apply event_of_fresh, fresh_ret, Ha. Qed.

Lemma event_modify f :
  (forall o, R o (f o)) -> writesEvent R s n (modify s f) (fun _ => True).
Proof.
  intros Hf h Hn. unfold modify.
  destruct (h !! s) as [o|] eqn:Hs; cbn [fst snd].
  - split; [rewrite length_insert; exact Hn|].
    split; [intros x _ Hne; apply list_lookup_insert_ne; congruence|].
    split; [|auto].
    intros o0 [= <-]. exists (f o).
    split; [apply list_lookup_insert_eq; eapply lookup_lt_Some, Hs | apply Hf].
  - split; [exact Hn|]. split; [reflexivity|]. split; [|discriminate].
    intros o [=].
Qed.

Lemma event_forEach {X} (xs : list X) (body : X -> M Note unit) :
  (forall x, x ∈ xs -> writesEvent R s n (body x) (fun _ => True)) ->
  writesEvent R s n (forEach xs body) (fun _ => True).
Proof.
  induction xs as [|x xs IH]; intros Hb; cbn [forEach].
  - apply event_ret. exact I.
  - eapply event_bind; [apply Hb; left|].
    intros _ _. apply IH. intros y Hy. apply Hb. right. exact Hy.
Qed.

End InPlace.

Lemma samePitchAndContext_refl o : samePitchAndContext o o.
Proof. split; reflexivity. Qed.

Lemma samePitchAndContext_trans o1 o2 o3 :
  samePitchAndContext o1 o2 -> samePitchAndContext o2 o3 ->
  samePitchAndContext o1 o3.
Proof. intros [H1 H2] [H3 H4]. split; congruence. Qed.

Lemma ev_fresh s n {A} (m : M Note A) P :
  s < n -> writesOnlyFresh n m P -> keepsPitch s n m P.
Proof. intros Hs. apply event_of_fresh; [exact samePitchAndContext_refl | exact Hs]. Qed.

Lemma ev_bind s n {A B} (m : M Note A) (k : A -> M Note B) P Q :
  keepsPitch s n m P -> (forall a, P a -> keepsPitch s n (k a) Q) ->
  keepsPitch s n (bind m k) Q.
Proof. apply event_bind. exact samePitchAndContext_trans. Qed.

Lemma ev_ret s n {A} (a : A) (P : A -> Prop) :
  s < n -> P a -> keepsPitch s n (ret a) P.
Proof. intros Hs. apply event_ret; [exact samePitchAndContext_refl | exact Hs]. Qed.

Lemma ev_modify s n f :
  (forall o, samePitchAndContext o (f o)) ->
  keepsPitch s n (modify s f) (fun _ => True).
Proof. apply event_modify. Qed.

Lemma ev_weaken s n {A} (m : M Note A) (P Q : A -> Prop) :
  keepsPitch s n m P -> (forall a, P a -> Q a) -> keepsPitch s n m Q.
Proof.
  intros Hm HPQ h Hn. destruct (Hm h Hn) as (H1 & H2 & H3 & H4).
  split; [exact H1|]. split; [exact H2|]. split; [exact H3|].
  intros a Ha. apply HPQ, H4, Ha.
Qed.

(** One step of a proof that a computation in place assigns to the event
    only *)
Ltac event_step :=
  lazymatch goal with
  | |- writesEvent _ _ _ (bind (read _) _) _ =>
      eapply ev_bind; [apply ev_fresh; [assumption | apply fresh_read] | intros ? _]
  | |- writesEvent _ _ _ (bind (liftR _) _) _ =>
      eapply ev_bind; [apply ev_fresh; [assumption | apply fresh_liftR] | intros ? _]
  | |- writesEvent _ _ _ (bind (deepcopy _) _) _ =>
      eapply ev_bind; [apply ev_fresh; [assumption | apply fresh_deepcopy] | intros ? ?]
  | |- writesEvent _ ?s _ (bind (setQuarterLength ?s _) _) _ =>
      eapply ev_bind; [apply ev_modify; intros ?; split; reflexivity | intros _ _]
  | |- writesEvent _ ?s _ (bind (popExpression ?s _) _) _ =>
      eapply ev_bind; [apply ev_modify; intros ?; split; reflexivity | intros _ _]
  | |- writesEvent _ ?s _ (bind (removeExpression ?s _) _) _ =>
      eapply ev_bind; [apply ev_modify; intros ?; split; reflexivity | intros _ _]
  | |- writesEvent _ _ _ (bind (setQuarterLength _ _) _) _ =>
      eapply ev_bind;
      [apply ev_fresh; [assumption | apply fresh_setQuarterLength; assumption]
      | intros _ _]
  | |- writesEvent _ _ _ (bind (setExpressions _ _) _) _ =>
      eapply ev_bind;
      [apply ev_fresh; [assumption | apply fresh_setExpressions; assumption]
      | intros _ _]
  | |- writesEvent _ _ _ (bind (transpose _ _) _) _ =>
      eapply ev_bind;
      [apply ev_fresh; [assumption | apply fresh_transpose; assumption]
      | intros _ _]
  | |- writesEvent _ _ _ (bind (setAccidental _ _) _) _ =>
      eapply ev_bind;
      [apply ev_fresh; [assumption | apply fresh_setAccidental; assumption]
      | intros _ _]
  | |- writesEvent _ _ _ (bind (Ornament.fillListOfRealizedNotes _ _ _ _ _) _) _ =>
      eapply ev_bind;
      [apply ev_fresh;
       [assumption
       | apply fresh_fillListOfRealizedNotes; first [assumption | constructor]]
      | intros ? ?]
  | |- writesEvent _ _ _ (bind (ret ?a) ?k) _ =>
      change (bind (ret a) k) with (k a); cbv beta
  | |- writesEvent _ _ _ (bind (raise _) _) _ =>
      apply ev_fresh; [assumption | apply fresh_bind_raise]
  | |- writesEvent _ _ _ (raise _) _ =>
      apply ev_fresh; [assumption | apply fresh_raise]
  | |- writesEvent _ _ _ (bind (bind _ _) _) _ =>
      eapply ev_bind with (P := fun _ => True); [| intros _ _]
  | |- writesEvent _ _ _ (bind (if ?b then _ else _) _) _ => destruct b
  | |- writesEvent _ _ _ (bind (match ?x with Some _ => _ | None => _ end) _) _ =>
      destruct x
  | |- writesEvent _ _ _ (if ?b then _ else _) _ => destruct b
  | |- writesEvent _ _ _ (match ?x with Some _ => _ | None => _ end) _ => destruct x
  | |- writesEvent _ _ _ (let (_, _) := ?x in _) _ => destruct x
  end.

Ltac event_steps := repeat event_step.

Lemma ev_accidental_loop s n (notes : list loc) (cond : nat -> Pitch -> bool)
  (acc : Pitch -> option Accidental) :
  s < n -> Forall (le n) notes ->
  keepsPitch s n
    (forEach (enumerate notes) (fun '(noteIdx, x) =>
       nObj <- read x ;;
       match pitch nObj with
       | None => raise (AttributeError "pitch")
       | Some p => if cond noteIdx p then setAccidental x (acc p) else ret tt
       end))
    (fun _ => True).
Proof.
  intros Hs Hn. apply ev_fresh; [exact Hs|]. apply fresh_accidental_loop, Hn.
Qed.

Lemma Mordent_realize_in_place s n m ks :
  s < n -> keepsPitch s n (GeneralMordent.realize m s ks true) (realizationInPlace s n).
Proof.
  intros Hs. unfold GeneralMordent.realize. cbn [negb]. event_steps.
  all: lazymatch goal with
       | |- _ =>
           eapply ev_bind;
           [ apply (ev_accidental_loop s n _
                      (fun noteIdx p => bool_decide (accidental p = None)
                                        && Nat.eqb (S noteIdx) 2)); assumption
           | intros _ _ ]
       end.
  all: event_steps; apply ev_ret; try assumption; simpl;
    (split; [assumption|]; split; [intros ? [= <-]; reflexivity | constructor]).
Qed.

Lemma Turn_realize_in_place s n t ks :
  s < n -> keepsPitch s n (Turn.realize t s ks true) (realizationInPlace s n).
Proof.
  intros Hs. unfold Turn.realize. cbn [negb]. event_steps.
  all: lazymatch goal with
       | |- _ =>
           eapply ev_bind;
           [ apply (ev_accidental_loop s n _
                      (fun noteIdx p => bool_decide (accidental p = None)
                                        && (Nat.eqb (S noteIdx) 1
                                            || Nat.eqb (S noteIdx) 3)));
             [assumption | repeat constructor; assumption]
           | intros _ _ ]
       end.
  all: event_steps; apply ev_ret; try assumption; simpl;
    (split; [constructor|]; split;
     [first [discriminate | intros ? [= <-]; reflexivity]
     | repeat constructor; assumption]).
Qed.

Lemma Appoggiatura_realize_in_place s n a ks :
  s < n ->
  keepsPitch s n (GeneralAppoggiatura.realize a s ks true) (realizationInPlace s n).
Proof.
  intros Hs. unfold GeneralAppoggiatura.realize. cbn [negb]. event_steps.
  all: apply ev_ret; try assumption; simpl;
    (split; [repeat constructor; assumption|]; split;
     [intros ? [= <-]; reflexivity | constructor]).
Qed.

Lemma Ornament_realize_in_place s n ks :
  s < n -> keepsPitch s n (Ornament.realize s ks true) (realizationInPlace s n).
Proof.
  intros Hs. unfold Ornament.realize. cbn [negb]. event_steps.
  apply ev_ret; [assumption|]. simpl.
  split; [constructor|]. split; [intros ? [= <-]; reflexivity | constructor].
Qed.

Lemma Trill_realize_in_place s n t ks :
  s < n -> keepsPitch s n (Trill.realize t s ks true) (realizationInPlace s n).
Proof.
  intros Hs. unfold Trill.realize. cbn [negb andb]. event_steps.
  eapply ev_bind.
  { apply ev_fresh; [assumption|].
    apply (fresh_repeatM n _ _ (Forall (le n))); [|constructor].
    intros acc Hacc. apply fresh_fillListOfRealizedNotes, Hacc. }
  intros trillNotes Hnotes.
  eapply ev_bind with (P := fun _ => True).
  { apply ev_fresh; [assumption|].
    destruct (Trill._setAccidentalFromKeySig t); [|apply fresh_ret; exact I].
    apply fresh_forEach. intros x Hx.
    pose proof (Forall_le_elem _ _ _ Hnotes Hx).
    fresh_all; first [apply fresh_setAccidental; assumption | apply fresh_ret; exact I]. }
  intros _ _. event_steps.
  all: try (apply ev_fresh; [assumption | apply fresh_setAccidental; assumption]).
  all: apply ev_ret; try assumption; simpl;
    (split; [assumption|]; split;
     [discriminate | repeat constructor; assumption]).
Qed.

Lemma ev_splitLoop s n len fuel acc :
  s < n -> Forall (le n) acc ->
  keepsPitch s n (Tremolo.splitLoop fuel len s acc)
    (fun looped => Forall (le n) (fst looped) /\ (snd looped = s \/ n <= snd looped)).
Proof.
  intros Hs Hacc. rewrite splitLoop_eq.
  eapply ev_bind; [apply ev_fresh; [assumption | apply fresh_read] | intros e _].
  destruct (Qlt_bool len (quarterLength e)).
  - destruct fuel as [|fuel]; [apply ev_fresh; [assumption | apply fresh_raise]|].
    apply ev_fresh; [assumption|].
    eapply fresh_bind; [apply fresh_splitAtQuarterLength|].
    intros [addNote eRemain] [H1 H2]. cbn [fst snd] in H1, H2.
    eapply fresh_weaken.
    + apply fresh_splitLoop; [exact H2|].
      apply Forall_app. split; [exact Hacc | repeat constructor; exact H1].
    + intros [objs r] [G1 G2]. cbn [fst snd] in *. auto.
  - apply ev_ret; [assumption|]. cbn [fst snd]. auto.
Qed.

Lemma Tremolo_realize_in_place s n t ks :
  s < n -> keepsPitch s n (Tremolo.realize t s ks true) (realizationOfEvent s n).
Proof.
  intros Hs. unfold Tremolo.realize. cbn [negb]. event_steps.
  all: lazymatch goal with
       | |- _ =>
           eapply ev_bind; [apply ev_splitLoop; [assumption | constructor]|];
           intros [objsConverted eRemain] [H1 H2]; cbn [fst snd] in H1, H2;
           apply ev_ret; [assumption|]; cbn [realizationOfEvent];
           (split; [|discriminate]); rewrite app_nil_r; apply Forall_app;
           (split; [eapply Forall_impl; [exact H1 | intros; right; assumption]
                   | constructor; [exact H2 | constructor]])
       end.
Qed.

Lemma realizationInPlace_event s n r :
  realizationInPlace s n r -> realizationOfEvent s n r.
Proof.
  destruct r as [[pre main] post]. intros (H1 & H2 & H3).
  split; [|exact H2]. apply Forall_app. split.
  - eapply Forall_impl; [exact H1 | intros; right; assumption].
  - eapply Forall_impl; [exact H3 | intros; right; assumption].
Qed.

Lemma realize_in_place s n e ks :
  s < n -> keepsPitch s n (realize e s ks true) (realizationOfEvent s n).
Proof.
  intros Hs. destruct e as [m|t|t|a|t|c|c]; cbn [realize].
  - eapply ev_weaken; [apply Mordent_realize_in_place, Hs
                      | apply realizationInPlace_event].
  - eapply ev_weaken; [apply Trill_realize_in_place, Hs
                      | apply realizationInPlace_event].
  - eapply ev_weaken; [apply Turn_realize_in_place, Hs
                      | apply realizationInPlace_event].
  - eapply ev_weaken; [apply Appoggiatura_realize_in_place, Hs
                      | apply realizationInPlace_event].
  - apply Tremolo_realize_in_place, Hs.
  - eapply ev_weaken; [apply Ornament_realize_in_place, Hs
                      | apply realizationInPlace_event].
  - apply ev_fresh; [exact Hs | apply fresh_raise].
Qed.

Lemma classic_tremolo e : (exists t, e = ETremolo t) \/ (forall t, e <> ETremolo t).
Proof. destruct e; try (right; discriminate). left. eauto. Qed.

Lemma realize_in_place_new s n e ks :
  s < n -> (forall t, e <> ETremolo t) ->
  keepsPitch s n (realize e s ks true) (realizationInPlace s n).
Proof.
  intros Hs He. destruct e as [m|t|t|a|t|c|c]; cbn [realize].
  - apply Mordent_realize_in_place, Hs.
  - apply Trill_realize_in_place, Hs.
  - apply Turn_realize_in_place, Hs.
  - apply Appoggiatura_realize_in_place, Hs.
  - exfalso. apply (He t). reflexivity.
  - apply Ornament_realize_in_place, Hs.
  - apply ev_fresh; [exact Hs | apply fresh_raise].
Qed.

(** The notes of a tremolo in place: the event itself when it is too
    short to be split, and else new notes only. *)
Lemma Tremolo_in_place_notes t l ks (h : store Note) src pre main post :
  h !! l = Some src ->
  snd (Tremolo.realize t l ks true h) = Ok (pre, main, post) ->
  ((quarterLength src <= Tremolo.lengthOfEach t)%Q -> pre = [l] /\ post = [])
  /\ ((Tremolo.lengthOfEach t < quarterLength src)%Q ->
      Forall (le (length h)) (pre ++ post)).
Proof.
  intros Hl H.
  destruct (Tremolo_realize_start t l ks true h src Hl) as [Hl' Hrun].
  cbv zeta in Hl', Hrun. rewrite Hrun in H. clear Hrun.
  set (src' := set_expressions (remove_first (ETremolo t) (expressions src)) src) in *.
  set (h0 := <[l := src']> h) in *.
  set (len := Tremolo.lengthOfEach t) in *.
  pose proof (lengthOfEach_positive t) as Hlen. fold len in Hlen.
  assert (Hh0 : length h0 = length h) by apply length_insert.
  split.
  - intros Hshort.
    destruct (splitLoop_run len Hlen _ l [] h0 src' Hl' (le_n _))
      as (tl & firsts & last & q' & Hloop & _ & _ & _ & _ & _ & Hend).
    destruct (Hend Hshort) as (-> & -> & ->).
    unfold bind in H.
    change (quarterLength src') with (quarterLength src) in Hloop.
    rewrite Hloop in H. cbn in H. injection H as <- _ <-. auto.
  - intros Hlong.
    rewrite splitLoop_eq in H.
    unfold bind at 1 in H. rewrite (run_read _ _ _ _ _ Hl') in H.
    change (quarterLength src') with (quarterLength src) in H.
    rewrite (Qlt_bool_true _ _ Hlong) in H.
    pose proof (roundsFor_step len _ Hlen Hlong) as Hfuel.
    destruct (Tremolo.roundsFor len (quarterLength src)) as [|fuel]; [lia|].
    unfold bind at 1 in H. rewrite (splitAtQuarterLength_run _ _ _ _ Hl') in H.
    cbv iota beta in H. rewrite Hh0 in H.
    set (h1 := h0 ++ _) in H.
    destruct (fresh_splitLoop (length h) len fuel (S (length h)) ([] ++ [length h])
                ltac:(lia) ltac:(repeat constructor) h1
                ltac:(unfold h1; rewrite length_app, Hh0; lia))
      as (_ & _ & Hres).
    destruct (Tremolo.splitLoop fuel len (S (length h)) ([] ++ [length h]) h1)
      as [h2 [[objs r]|x]]; [|discriminate H].
    destruct (Hres _ eq_refl) as [G1 G2]. cbn [fst snd] in G1, G2.
    cbn in H. injection H as <- _ <-. rewrite app_nil_r.
    apply Forall_app. split; [exact G1 | repeat constructor; exact G2].
Qed.

(** X17. In place, [realize] assigns to the event and to nothing else
    that was there before, whether it returns or raises, and all it
    changes of the event is the duration and the expressions: the pitch
    and the context stay. The main note, when there is one, is the event
    itself. The notes before and after it are new ones, for every
    ornament, but for a tremolo on an event too short to be split (no
    longer than [lengthOfEach]): that returns the event itself as its only
    note. *)
Theorem realize_in_place_touches_event_only (e : Expression) (l : loc)
  (ks : option key.KeySignature) (h : store Note) (src : Note) :
  h !! l = Some src ->
  let run := realize e l ks true h in
  (forall x, x < length h -> x <> l -> fst run !! x = h !! x)
  /\ (exists src', fst run !! l = Some src'
        /\ pitch src' = pitch src /\ contextKeySig src' = contextKeySig src)
  /\ (forall pre main post, snd run = Ok (pre, main, post) ->
        (forall r, main = Some r -> r = l)
        /\ ((forall t, e = ETremolo t ->
              (Tremolo.lengthOfEach t < quarterLength src)%Q) ->
            forall x, x ∈ pre ++ post -> length h <= x)
        /\ (forall t, e = ETremolo t ->
              (quarterLength src <= Tremolo.lengthOfEach t)%Q ->
              pre = [l] /\ post = [])).
Proof.
  intros Hl run.
  assert (l < length h) as Hlt by (eapply lookup_lt_Some, Hl).
  destruct (realize_in_place l (length h) e ks Hlt h (le_n _)) as (_ & H2 & H3 & H4).
  fold run in H2, H3, H4.
  split; [exact H2|]. split.
  - destruct (H3 src Hl) as (src' & Hs' & Hp & Hc). eauto.
  - intros pre main post Hrun. destruct (H4 _ Hrun) as [_ G2].
    split; [exact G2|]. split.
    + intros Hlong x Hx.
      assert (Forall (le (length h)) (pre ++ post)) as Hnew.
      { destruct (classic_tremolo e) as [[t ->]|Hne].
        - apply (proj2 (Tremolo_in_place_notes t l ks h src pre main post Hl Hrun)).
          apply (Hlong t). reflexivity.
        - destruct (realize_in_place_new l (length h) e ks Hlt Hne h (le_n _))
            as (_ & _ & _ & H5).
          fold run in H5. destruct (H5 _ Hrun) as (P1 & _ & P3).
          apply Forall_app. split; assumption. }
      rewrite Forall_forall in Hnew. apply Hnew, Hx.
    + intros t -> Hshort.
      apply (proj1 (Tremolo_in_place_notes t l ks h src pre main post Hl Hrun)).
      exact Hshort.
Qed.

Lemma realize_in_place_touches_event_only_witness :
  let m := mkMordent Mordent_ "" (1 # 8) true in
  let src := mkNote (Some C4) (1 # 2) [EMordent m] None in
  let other := mkNote (Some E4) 1 [] None in
  let run := realize (EMordent m) 1%nat None true [other; src] in
  fst run !! 0%nat = Some other
  /\ snd run = Ok ([2; 3]%nat, Some 1%nat, [])
  /\ fst run !! 1%nat = Some (mkNote (Some C4) (1 # 4) [] None)
  /\ (forall x, x ∈ [2; 3]%nat -> 2 <= x).
Proof.
  intros m src other run.
  destruct (realize_in_place_touches_event_only (EMordent m) 1%nat None
              [other; src] src eq_refl) as (H1 & _ & H3).
  split; [apply (H1 0%nat); [simpl; lia | discriminate]|].
  split; [reflexivity|]. split; [reflexivity|].
  destruct (H3 [2; 3]%nat (Some 1%nat) [] eq_refl) as (_ & Hnew & _).
  intros x Hx. apply Hnew; [discriminate|].
  rewrite app_nil_r. exact Hx.
Defined.

(* ===================================================================== *)
(** ** Sizes, delays and key signatures *)
(* ===================================================================== *)

Lemma between_second (up : bool) p acc :
  interval.staffDistance
    (interval.between p
       (withAccidental
          (interval.transposePitch
             (interval.GenericInterval (if up then 2 else -2))
             (withAccidental p None)) acc))
  = (if up then 1 else -1)%Z.
Proof.
  cbn [interval.between interval.staffDistance].
  pose proof (generic_second_step up (withAccidental p None) acc) as H.
  cbv zeta in H. rewrite H.
  change (diatonicNoteNum (withAccidental p None)) with (diatonicNoteNum p). lia.
Qed.

(** X18. Whenever [getSize] returns, the interval is a second: one staff
    step, upwards for an inverted mordent, a trill and the upper note of a
    turn, downwards for a mordent and the lower note of a turn, whatever
    the accidental named and the key signature. For the classes named
    after their step the interval does not depend on the event or the key
    signature at all, and it is returned even for an event without pitch:
    a minor second for the half-step classes, a major second for the
    whole-step classes. *)
Theorem getSize_is_a_second (src : Note) (ks : option key.KeySignature)
  (i : interval.Interval) :
  (forall m, GeneralMordent.getSize m src ks = Ok i ->
     interval.staffDistance i
     = (if String.eqb (GeneralMordent._direction (mordentClass m)) "up"
        then 1 else -1)%Z)
  /\ (forall t, Trill.getSize t src ks = Ok i -> interval.staffDistance i = 1%Z)
  /\ (forall t which, Turn.getSize t src ks which = Ok i ->
        interval.staffDistance i
        = (if String.eqb which "upper" then 1 else -1)%Z)
  /\ (forall m, GeneralMordent.isFixedStep (mordentClass m) = true ->
        GeneralMordent.getSize m src ks
        = Ok (match mordentClass m with
              | HalfStepMordent_ => interval.m_2
              | WholeStepMordent_ => interval.M_2
              | HalfStepInvertedMordent_ => interval.m2
              | _ => interval.M2
              end))
  /\ (forall t, Trill.isFixedStep (trillClass t) = true ->
        Trill.getSize t src ks
        = Ok (match trillClass t with
              | HalfStepTrill_ => interval.m2
              | _ => interval.M2
              end)).
Proof.
  repeat apply conj.
  - intros m. unfold GeneralMordent.getSize, GeneralMordent.directionKnown.
    destruct (mordentClass m) eqn:Ec; cbn [GeneralMordent._direction];
      try (intros [= <-]; reflexivity).
    + change (String.eqb "down" "up") with false.
      change (String.eqb "down" "down") with true. cbn [orb negb].
      destruct (pitch src) as [p|]; [|discriminate].
      destruct (nonEmpty (GeneralMordent.accidentalName m)); intros [= <-];
        apply (between_second false).
    + change (String.eqb "up" "up") with true. cbn [orb negb].
      destruct (pitch src) as [p|]; [|discriminate].
      destruct (nonEmpty (GeneralMordent.accidentalName m)); intros [= <-];
        apply (between_second true).
  - intros t. unfold Trill.getSize.
    destruct (pitch src) as [p|]; destruct (trillClass t);
      try discriminate; try (intros [= <-]; reflexivity).
    all: intros [= <-]; destruct (nonEmpty (Trill.accidentalName t));
      apply (between_second true).
  - intros t which. unfold Turn.getSize.
    destruct (String.eqb which "upper" || String.eqb which "lower"); cbn [negb];
      [|discriminate].
    destruct (pitch src) as [p|]; [|discriminate].
    destruct (String.eqb which "upper").
    + destruct (nonEmpty (turn_upperAccidentalName t)); intros [= <-];
        apply (between_second true).
    + destruct (nonEmpty (turn_lowerAccidentalName t)); intros [= <-];
        apply (between_second false).
  - intros m Hfix. unfold GeneralMordent.getSize.
    destruct (mordentClass m); try discriminate Hfix; reflexivity.
  - intros t Hfix. unfold Trill.getSize.
    destruct (trillClass t); try discriminate Hfix; reflexivity.
Qed.

Lemma getSize_is_a_second_witness :
  let m := mkMordent InvertedMordent_ "sharp" (1 # 8) true in
  let src := mkNote (Some B3) 1 [] None in
  GeneralMordent.getSize m src None = Ok interval.M2
  /\ interval.staffDistance interval.M2 = 1%Z.
Proof.
  intros m src. split; [reflexivity|].
  exact (proj1 (getSize_is_a_second src None interval.M2) m eq_refl).
Defined.

(** X19. A turn made by [__init__] and the setters returns a main note
    exactly when it is delayed: without delay the four notes of the turn
    use up the event and the main note is [None]; with a delay the main
    note comes first in time, for the length of the delay. In place the
    main note is then the event itself, otherwise a new note. *)
Theorem Turn_main_note_iff_delayed (t : TurnObj) (l : loc)
  (ks : option key.KeySignature) (inPlace : bool) (h h' : store Note)
  (src : Note) (pre : list loc) (main : option loc) (post : list loc) :
  TurnReachable t -> h !! l = Some src ->
  Turn.realize t l ks inPlace h = (h', Ok (pre, main, post)) ->
  (Turn.isDelayed t = true <-> main <> None)
  /\ (Turn.isDelayed t = true ->
      main = Some (if inPlace then l else length h + 4)
      /\ exists q, durationAt h' (if inPlace then l else length h + 4) = Some q
           /\ (q == Turn.remainderDuration t (quarterLength src))%Q)
  /\ (Turn.isDelayed t = false -> main = None).
Proof.
  intros Hreach Hl H.
  assert (~ (quarterLength src == 0)%Q) as Hd.
  { intros Hz. rewrite (Turn_zero_duration t l ks inPlace h src Hl Hz) in H.
    discriminate. }
  destruct (Turn_realize_Ok t l ks inPlace h h' src pre main post Hl H)
    as (lengths & _ & _ & _ & Hrest). cbv zeta in Hrest.
  pose proof (reachable_delay_positive t Hreach) as Hpos.
  assert (Turn.isDelayed t
          = negb (Qeq_bool (Turn.remainderDuration t (quarterLength src)) 0)) as Hiff.
  { unfold Turn.isDelayed, Turn.remainderDuration.
    destruct (turn_delay t) as [[|]|q]; cbn [delayPositive] in Hpos.
    - reflexivity.
    - rewrite bool_decide_eq_false_2 by discriminate. cbn [negb].
      symmetry. apply negb_true_iff, Qeq_bool_false. unfold opFrac.
      rewrite Qred_correct. pose proof (Qdiv2 (quarterLength src)). lra.
    - rewrite bool_decide_eq_false_2 by discriminate. cbn [negb].
      symmetry. apply negb_true_iff, Qeq_bool_false. lra. }
  rewrite Hiff.
  destruct (Qeq_bool (Turn.remainderDuration t (quarterLength src)) 0) eqn:Ez;
    cbn [negb].
  - destruct Hrest as [-> _].
    split; [split; [discriminate | intros Hc; contradiction]|].
    split; [discriminate | reflexivity].
  - destruct Hrest as [-> Hq].
    split; [split; [discriminate | reflexivity]|].
    split; [|discriminate]. intros _. split; [reflexivity|].
    exists (Qred (Turn.remainderDuration t (quarterLength src))).
    split; [|apply Qred_correct].
    rewrite durationAt_qls, Hq. destruct inPlace.
    + apply list_lookup_insert_eq. rewrite length_app, length_qls.
      apply lookup_lt_Some in Hl. lia.
    + rewrite <- (length_qls h), lookup_at. reflexivity.
Qed.

Lemma Turn_main_note_iff_delayed_witness :
  let t := Turn.init Turn_ (DelayQL (PyFloat (1 # 2))) "" "" in
  let src := mkNote (Some C4) 2 [ETurn t] None in
  Turn.isDelayed t = true
  /\ snd (Turn.realize t 0%nat None true [src]) = Ok ([], Some 0%nat, [1; 2; 3; 4]%nat)
  /\ exists q, durationAt (fst (Turn.realize t 0%nat None true [src])) 0%nat = Some q
       /\ (q == 1 # 2)%Q.
Proof.
  intros t src. split; [reflexivity|]. split; [reflexivity|].
  destruct (Turn_main_note_iff_delayed t 0%nat None true [src]
              (fst (Turn.realize t 0%nat None true [src])) src
              [] (Some 0%nat) [1; 2; 3; 4]%nat
              (reach_init Turn_ (DelayQL (PyFloat (1 # 2))) "" "") eq_refl eq_refl)
    as (_ & H & _).
  exact (proj2 (H eq_refl)).
Defined.

(** X20. The key signature plays no part in a half-step or a whole-step
    trill: whichever is passed, [getSize], [resolveOrnamentalPitches] and
    [realize] do the same. *)
Theorem fixed_step_trill_ignores_keySig (t : TrillObj)
  (ks ks' : option key.KeySignature) :
  Trill.isFixedStep (trillClass t) = true ->
  (forall src, Trill.getSize t src ks = Trill.getSize t src ks')
  /\ (forall src, TrillDisplay.resolveOrnamentalPitches t src ks
                  = TrillDisplay.resolveOrnamentalPitches t src ks')
  /\ (forall l inPlace h, Trill.realize t l ks inPlace h
                          = Trill.realize t l ks' inPlace h).
Proof.
  intros Hfix.
  assert (forall src k, Trill.getSize t src k
                        = Ok (match trillClass t with
                              | HalfStepTrill_ => interval.m2
                              | _ => interval.M2
                              end)) as Hsize.
  { intros src k. unfold Trill.getSize.
    destruct (trillClass t); try discriminate Hfix; reflexivity. }
  split; [|split].
  - intros src. rewrite !Hsize. reflexivity.
  - intros src. unfold TrillDisplay.resolveOrnamentalPitches.
    rewrite !Hsize. reflexivity.
  - intros l inPlace h. unfold Trill.realize, Trill._setAccidentalFromKeySig.
    rewrite Hfix. cbn [negb].
    destruct (h !! l) as [src|] eqn:Hl.
    + rewrite !(run_read _ _ _ _ _ Hl).
      destruct (pitch src); [|reflexivity].
      rewrite !Hsize. reflexivity.
    + unfold bind, read. rewrite Hl. reflexivity.
Qed.

Lemma fixed_step_trill_ignores_keySig_witness :
  let t := mkTrill HalfStepTrill_ "" false (PyFloat (1 # 8)) true in
  let src := mkNote (Some E4) 1 [ETrill t] None in
  Trill.realize t 0%nat (Some oneSharp) false [src]
  = Trill.realize t 0%nat (Some noSharpsOrFlats) false [src].
Proof.
  intros t src.
  exact (proj2 (proj2 (fixed_step_trill_ignores_keySig t (Some oneSharp)
                         (Some noSharpsOrFlats) eq_refl)) 0%nat false [src]).
Defined.

(* ===================================================================== *)
(** ** The examples of the docstrings *)
(* ===================================================================== *)

(** The ornamental pitches of the docstring of
    [Ornament.resolveOrnamentalPitches] *)
Example resolveOrnamentalPitches_docstring :
  let G4 := mkNote (Some (mkPitch sG 4 None)) 1 [] None in
  let D4 := mkNote (Some (mkPitch sD 4 None)) 1 [] None in
  let C4n := mkNote (Some C4) 1 [] None in
  let mordent := mkMordent Mordent_ "" (1 # 8) true in
  let natural := mkMordent Mordent_ "natural" (1 # 8) true in
  let trill := mkTrill Trill_ "" false (PyFloat (1 # 8)) true in
  GeneralMordentDisplay.resolveOrnamentalPitches mordent G4 (Some noSharpsOrFlats)
  = Ok [mkPitch sF 4 None]
  /\ GeneralMordentDisplay.resolveOrnamentalPitches mordent G4 (Some oneSharp)
     = Ok [mkPitch sF 4 (Some (mkAccidental 1 None))]
  /\ GeneralMordentDisplay.resolveOrnamentalPitches natural G4 (Some oneSharp)
     = Ok [mkPitch sF 4 (Some (mkAccidental 0 (Some true)))]
  /\ TrillDisplay.resolveOrnamentalPitches trill D4 (Some noSharpsOrFlats)
     = Ok [mkPitch sE 4 None]
  /\ TurnDisplay.resolveOrnamentalPitches (Turn.init Turn_ (DelayEnum NO_DELAY) "" "")
       D4 (Some (key.mkKeySignature (-2)))
     = Ok [mkPitch sE 4 (Some (mkAccidental (-1) None)); mkPitch sC 4 None]
  /\ TurnDisplay.resolveOrnamentalPitches
       (Turn.init Turn_ (DelayEnum NO_DELAY) "sharp" "flat") C4n
       (Some noSharpsOrFlats)
     = Ok [mkPitch sD 4 (Some (mkAccidental 1 (Some true)));
           mkPitch sB 3 (Some (mkAccidental (-1) (Some true)))].
Proof. repeat split. Qed.

(** The two examples of the docstring of [GeneralAppoggiatura.realize] *)
Example Appoggiatura_realize_docstring :
  let a1 := GeneralAppoggiatura.init Appoggiatura_ in
  let a2 := GeneralAppoggiatura.init HalfStepInvertedAppoggiatura_ in
  let run1 := GeneralAppoggiatura.realize a1 0%nat None false
                [mkNote (Some C4) (1 # 2) [] None] in
  let run2 := GeneralAppoggiatura.realize a2 0%nat None false
                [mkNote (Some C4) 1 [] None] in
  snd run1 = Ok ([1%nat], Some 2%nat, [])
  /\ (pitch <$> fst run1 !! 1%nat) = Some (Some (mkPitch sD 4 None))
  /\ (pitch <$> fst run1 !! 2%nat) = Some (Some C4)
  /\ snd run2 = Ok ([1%nat], Some 2%nat, [])
  /\ (pitch <$> fst run2 !! 1%nat) = Some (Some B3)
  /\ (pitch <$> fst run2 !! 2%nat) = Some (Some C4).
Proof. repeat split. Qed.

(* ===================================================================== *)
(** ** The text of a TextExpression as it is shown *)
(* ===================================================================== *)

(** X21. What [_reprInternal] of a [TextExpression] hands to [repr] is the
    content itself when that has fewer than 13 characters, and else its
    first ten characters followed by three full stops. So the text shown
    has at most 13 characters and begins as the content does; a content
    of exactly 13 characters is cut although the result is no shorter. *)
Theorem TextExpression_repr_is_short (Char : Type) (fullStop : Char)
  (repr : list Char -> list Char) (content : list Char) :
  exists shown,
    TextExpression._reprInternal Char fullStop repr content = repr shown
    /\ length shown = Nat.min (length content) 13
    /\ take 10 shown = take 10 content
    /\ (length content < 13 -> shown = content)
    /\ (13 <= length content ->
        shown = take 10 content ++ [fullStop; fullStop; fullStop]).
Proof.
  unfold TextExpression._reprInternal.
  destruct (13 <=? length content)%nat eqn:E.
  - apply Nat.leb_le in E.
    exists (take 10 content ++ [fullStop; fullStop; fullStop]).
    split; [reflexivity|]. split.
    { rewrite length_app, length_take. cbn [length]. lia. }
    split.
    { rewrite take_app_le by (rewrite length_take; lia).
      rewrite take_take. f_equal. }
    split; [lia | reflexivity].
  - apply Nat.leb_gt in E. exists content.
    split; [reflexivity|]. split; [lia|]. split; [reflexivity|].
    split; [reflexivity | lia].
Qed.
